(** * Operation tracking: registry, event-stream client and completion arbiter

    A shallow embedding of the progress-tracking core of the classification
    front end:

    - [Registry]  : [frontend/src/contexts/ProgressContext.tsx]
                    (active operations, bounded history, localStorage mirror);
    - [Channel]   : [subscribeToProgress] of the API client (Server-Sent
                    Events subscription with bounded reconnection);
    - [Arbiter]   : [handleClassifyDocument] of [frontend/src/App.tsx]
                    (first-signal-wins completion with two fallback timers);
    - [Browser]   : the clock and the timer table the last two share, and
                    [Subscriber], a subscription observed on its own.
    - [Carousel]  : the list of results and the index on display, of
                    [frontend/src/App.tsx].
    - [Progress]  : the updater of [addProgress] on the entry objects and
                    their [steps] arrays, invoked once or again;
    - [Session]   : a job on the registry it shares with the other
                    callers, from a start that may fail.

    Conventions.  Timestamps ([Date.now()]) are integers in milliseconds.
    The React state updaters are applied once each, in the order in which
    they are queued (production rendering; the development-only replay of
    updaters is what the [(documentId, startedAt)] check of the terminal
    transitions guards against).  The one updater whose replay shows, that
    of [addProgress], is modelled with its further invocations in
    [Progress] and [Session].  The values kept in [localStorage] are
    modelled after [JSON.parse], i.e. as the arrays they encode. *)

From Stdlib Require Import List String ZArith Bool Lia Arith DecimalString.
Import ListNotations.

Local Open Scope string_scope.

(* ================================================================== *)
(** ** JavaScript [Map] with string keys                               *)
(* ================================================================== *)

(** A [Map] iterates in insertion order, [set] on a present key keeps the
    key's position, and [delete] removes the key.  The entries are kept as
    an association list in iteration order. *)
Module JSMap.

Definition t (V : Type) : Type := list (string * V).

Definition empty {V} : t V := [].

Definition get {V} (k : string) (m : t V) : option V :=
  match find (fun kv => String.eqb (fst kv) k) m with
  | Some kv => Some (snd kv)
  | None => None
  end.

Fixpoint set {V} (k : string) (v : V) (m : t V) : t V :=
  match m with
  | [] => [(k, v)]
  | (k', v') :: rest =>
      if String.eqb k' k then (k, v) :: rest else (k', v') :: set k v rest
  end.

Definition delete {V} (k : string) (m : t V) : t V :=
  filter (fun kv => negb (String.eqb (fst kv) k)) m.

Definition has {V} (k : string) (m : t V) : bool :=
  match get k m with Some _ => true | None => false end.

(** [Array.from(m.values())] *)
Definition values {V} (m : t V) : list V := map snd m.

Definition keys {V} (m : t V) : list string := map fst m.

(** [new Map(entries)] *)
Definition of_entries {V} (entries : list (string * V)) : t V :=
  fold_left (fun m kv => set (fst kv) (snd kv) m) entries empty.

End JSMap.

(* ================================================================== *)
(** ** The operation registry ([ProgressContext.tsx])                  *)
(* ================================================================== *)

Module Registry.

Inductive StepType := TypeInfo | TypeSuccess | TypeWarning | TypeError.

Inductive Status := StatusActive | StatusCompleted | StatusError.

Record ProgressStep := mkStep {
  id : string;
  message : string;
  timestamp : Z;
  type : option StepType
}.

Record ProgressOperation := mkOperation {
  documentId : string;
  filename : option string;
  status : Status;
  steps : list ProgressStep;
  startedAt : Z;
  completedAt : option Z;
  error : option string
}.

Definition STORAGE_KEY := "classification_history".
Definition ACTIVE_STORAGE_KEY := "classification_active".
Definition MAX_HISTORY : nat := 50.

(** The two [localStorage] items; [None] is an absent key. *)
Record Storage := mkStorage {
  classification_history : option (list ProgressOperation);
  classification_active : option (list ProgressOperation)
}.

Record State := mkState {
  activeOperations : JSMap.t ProgressOperation;
  history : list ProgressOperation;
  localStorage : Storage
}.

Definition setActiveOperations (m : JSMap.t ProgressOperation) (s : State) : State :=
  mkState m (history s) (localStorage s).

Definition setHistory (h : list ProgressOperation) (s : State) : State :=
  mkState (activeOperations s) h (localStorage s).

Definition setStorage (st : Storage) (s : State) : State :=
  mkState (activeOperations s) (history s) st.

(** Which of the two [useState] cells received a new object from a
    callback; an updater that returns [prev] itself leaves its cell
    clean and React skips the render. *)
Record Dirty := mkDirty { activeChanged : bool; historyChanged : bool }.

(** *** Persistence effects *)

(** [useEffect(..., [activeOperations])] *)
Definition persistActive (s : State) : State :=
  setStorage
    (mkStorage (classification_history (localStorage s))
               (Some (JSMap.values (activeOperations s)))) s.

(** [useEffect(..., [history])] *)
Definition persistHistory (s : State) : State :=
  setStorage
    (mkStorage (Some (history s))
               (classification_active (localStorage s))) s.

(** The effects that run after the render caused by a callback. *)
Definition runEffects (r : State * Dirty) : State :=
  let s1 := if activeChanged (snd r) then persistActive (fst r) else fst r in
  if historyChanged (snd r) then persistHistory s1 else s1.

(** *** Initial state and the stale-operations effect *)

Definition loadActive (st : Storage) : JSMap.t ProgressOperation :=
  match classification_active st with
  | Some parsed => JSMap.of_entries (map (fun op => (documentId op, op)) parsed)
  | None => JSMap.empty
  end.

Definition loadHistory (st : Storage) : list ProgressOperation :=
  match classification_history st with
  | Some parsed => parsed
  | None => []
  end.

(** The two lazy [useState] initialisers. *)
Definition initialState (st : Storage) : State :=
  mkState (loadActive st) (loadHistory st) st.

Definition fiveMinutes : Z := 5 * 60 * 1000.

Definition interruptedMessage := "Operation interrupted (page refresh)".

Definition isStale (now : Z) (op : ProgressOperation) : bool :=
  (fiveMinutes <? now - startedAt op)%Z.

Definition interrupt (now : Z) (op : ProgressOperation) : ProgressOperation :=
  mkOperation (documentId op) (filename op) StatusError (steps op)
              (startedAt op) (Some now) (Some interruptedMessage).

(** The [prev.forEach] loop: the stale entries in iteration order and the
    map they are deleted from. *)
Definition staleOps (now : Z) (prev : JSMap.t ProgressOperation)
  : list ProgressOperation :=
  map (interrupt now) (filter (isStale now) (JSMap.values prev)).

Definition dropFrom (now : Z) (visited : list ProgressOperation)
           (newMap : JSMap.t ProgressOperation) : JSMap.t ProgressOperation :=
  fold_left
    (fun newMap op =>
       if isStale now op then JSMap.delete (documentId op) newMap else newMap)
    visited newMap.

Definition dropStale (now : Z) (prev : JSMap.t ProgressOperation)
  : JSMap.t ProgressOperation :=
  dropFrom now (JSMap.values prev) prev.

Definition staleEffect (now : Z) (s : State) : State * Dirty :=
  let prev := activeOperations s in
  let stale := staleOps now prev in
  let s1 := setActiveOperations (dropStale now prev) s in
  match stale with
  | [] => (s1, mkDirty true false)
  | _ :: _ =>
      (setHistory (firstn MAX_HISTORY (stale ++ history s)) s1,
       mkDirty true true)
  end.

(** Mounting the provider: the initialisers, the first run of the two
    persistence effects, then the stale-operations effect and the render
    it causes. *)
Definition mount (now : Z) (st : Storage) : State :=
  runEffects
    (staleEffect now (persistHistory (persistActive (initialState st)))).

(** *** The callbacks *)

Definition startOperation (documentId : string) (filename : option string)
           (now : Z) (s : State) : State * Dirty :=
  let operation :=
    mkOperation documentId filename StatusActive [] now None None in
  (setActiveOperations (JSMap.set documentId operation (activeOperations s)) s,
   mkDirty true false).

Definition decimal (z : Z) : string := NilZero.string_of_int (Z.to_int z).

(** [operation.steps.push(step)] followed by [{ ...operation }].  The
    array is extended in place; it is reachable only from this entry and
    from the superseded maps, which are dropped. *)
Definition pushStep (step : ProgressStep) (operation : ProgressOperation)
  : ProgressOperation :=
  mkOperation (documentId operation) (filename operation)
              (status operation) (steps operation ++ [step])
              (startedAt operation) (completedAt operation)
              (error operation).

(** [idNow] and [now] are the two successive readings of [Date.now()],
    [random] the rendering of [Math.random()]. *)
Definition addProgress (documentId message : string) (type : StepType)
           (idNow : Z) (random : string) (now : Z) (s : State)
  : State * Dirty :=
  match JSMap.get documentId (activeOperations s) with
  | Some operation =>
      let step :=
        mkStep (documentId ++ "-" ++ decimal idNow ++ "-" ++ random)
               message now (Some type) in
      (setActiveOperations
         (JSMap.set documentId (pushStep step operation) (activeOperations s)) s,
       mkDirty true false)
  | None => (s, mkDirty true false)
  end.

(** [prevHistory.some(h => h.documentId === documentId &&
                           h.startedAt === operation.startedAt)] *)
Definition isDuplicate (documentId : string) (started : Z)
           (prevHistory : list ProgressOperation) : bool :=
  existsb
    (fun h => String.eqb (Registry.documentId h) documentId
              && Z.eqb (startedAt h) started)
    prevHistory.

(** The history updater shared by the two terminal transitions. *)
Definition addToHistory (documentId : string) (operation finished : ProgressOperation)
           (s : State) : State * bool :=
  if isDuplicate documentId (startedAt operation) (history s)
  then (s, false)
  else (setHistory (firstn MAX_HISTORY (finished :: history s)) s, true).

(** [{ ...operation, status: 'completed', completedAt: Date.now() }] *)
Definition markCompleted (now : Z) (operation : ProgressOperation)
  : ProgressOperation :=
  mkOperation (Registry.documentId operation) (filename operation)
              StatusCompleted (steps operation) (startedAt operation)
              (Some now) (error operation).

(** [{ ...operation, status: 'error', completedAt: Date.now(), error }] *)
Definition markError (now : Z) (err : string) (operation : ProgressOperation)
  : ProgressOperation :=
  mkOperation (Registry.documentId operation) (filename operation)
              StatusError (steps operation) (startedAt operation)
              (Some now) (Some err).

Definition completeOperation (documentId : string) (now : Z) (s : State)
  : State * Dirty :=
  match JSMap.get documentId (activeOperations s) with
  | None => (s, mkDirty false false)
  | Some operation =>
      let completedOperation := markCompleted now operation in
      let '(s1, changed) := addToHistory documentId operation completedOperation s in
      (setActiveOperations (JSMap.delete documentId (activeOperations s1)) s1,
       mkDirty true changed)
  end.

Definition errorOperation (documentId : string) (err : string) (now : Z)
           (s : State) : State * Dirty :=
  match JSMap.get documentId (activeOperations s) with
  | None => (s, mkDirty false false)
  | Some operation =>
      let erroredOperation := markError now err operation in
      let '(s1, changed) := addToHistory documentId operation erroredOperation s in
      (setActiveOperations (JSMap.delete documentId (activeOperations s1)) s1,
       mkDirty true changed)
  end.

Definition removeOperation (documentId : string) (s : State) : State * Dirty :=
  (setActiveOperations (JSMap.delete documentId (activeOperations s)) s,
   mkDirty true false).

(** [setHistory([])] followed by the two [removeItem] calls. *)
Definition clearHistory (s : State) : State * Dirty :=
  (setStorage (mkStorage None None) (setHistory [] s), mkDirty false true).

Definition getOperation (documentId : string) (s : State)
  : option ProgressOperation :=
  JSMap.get documentId (activeOperations s).

(** *** Calls of the registry as data *)

Inductive Call :=
| StartOperation (documentId : string) (filename : option string) (now : Z)
| AddProgress (documentId message : string) (type : StepType)
              (idNow : Z) (random : string) (now : Z)
| CompleteOperation (documentId : string) (now : Z)
| ErrorOperation (documentId : string) (err : string) (now : Z)
| RemoveOperation (documentId : string)
| ClearHistory.

Definition handler (c : Call) : State -> State * Dirty :=
  match c with
  | StartOperation d f now => startOperation d f now
  | AddProgress d m ty idNow random now => addProgress d m ty idNow random now
  | CompleteOperation d now => completeOperation d now
  | ErrorOperation d e now => errorOperation d e now
  | RemoveOperation d => removeOperation d
  | ClearHistory => clearHistory
  end.

(** A call followed by the render and effects it triggers. *)
Definition dispatch (c : Call) (s : State) : State := runEffects (handler c s).

Definition run (calls : list Call) (s : State) : State :=
  fold_left (fun acc c => dispatch c acc) calls s.

(** The registry of a first visit: nothing stored, nothing tracked. *)
Definition fresh : State := initialState (mkStorage None None).

(** *** Observations used by the properties *)

Definition isActive (d : string) (s : State) : bool :=
  JSMap.has d (activeOperations s).

Definition occurrences (d : string) (h : list ProgressOperation) : nat :=
  List.length (filter (fun op => String.eqb (documentId op) d) h).

Definition pairOccurrences (d : string) (started : Z)
           (h : list ProgressOperation) : nat :=
  List.length (filter (fun op => String.eqb (documentId op) d
                            && Z.eqb (startedAt op) started) h).

(** [c] is a terminal transition requested for [d]. *)
Definition terminalFor (d : string) (c : Call) : bool :=
  match c with
  | CompleteOperation d' _ => String.eqb d' d
  | ErrorOperation d' _ _ => String.eqb d' d
  | _ => false
  end.

(** The history entry a terminal transition makes of an active entry. *)
Definition finished (c : Call) (operation : ProgressOperation)
  : option ProgressOperation :=
  match c with
  | CompleteOperation _ now => Some (markCompleted now operation)
  | ErrorOperation _ err now => Some (markError now err operation)
  | _ => None
  end.

(** The property of the specification: never active and in history at
    once, never twice in history. *)
Definition exclusive (d : string) (s : State) : Prop :=
  (isActive d s = true -> occurrences d (history s) = 0)
  /\ occurrences d (history s) <= 1.

(** Every entry of the active map sits under its own [documentId]. *)
Definition keyed (m : JSMap.t ProgressOperation) : Prop :=
  Forall (fun kv => documentId (snd kv) = fst kv) m.

Definition starts (d : string) (calls : list Call) : nat :=
  List.length (filter (fun c => match c with
                           | StartOperation d' _ _ => String.eqb d' d
                           | _ => false
                           end) calls).

(** [c] starts [d] while history holds an entry of [d]. *)
Definition startsRecorded (d : string) (c : Call) (s : State) : bool :=
  match c with
  | StartOperation d' _ _ =>
      String.eqb d' d && negb (Nat.eqb (occurrences d (history s)) 0)
  | _ => false
  end.

(** Along [calls], run from [s], no call starts [d] while history holds an
    entry of [d].  Starting [d] again while it is active, or after it was
    removed or history was cleared, is allowed. *)
Fixpoint neverStartsRecorded (d : string) (calls : list Call) (s : State)
  : bool :=
  match calls with
  | [] => true
  | c :: rest =>
      negb (startsRecorded d c s) && neverStartsRecorded d rest (dispatch c s)
  end.

End Registry.

(* ================================================================== *)
(** ** The browser: clock, timers, and a record of what was called     *)
(* ================================================================== *)

Module Browser.

(** The four closures handed to [setTimeout] by the two source files. *)
Inductive TimerKind :=
| ReconnectCallback     (* subscribeToProgress: close and connect again *)
| ResolveDelay          (* handleClassifyDocument: the 500 ms pause      *)
| CompletionFallback    (* handleClassifyDocument: completionTimer       *)
| SafetyCleanup.        (* handleClassifyDocument: cleanupTimer          *)

Record Timer := mkTimer { handle : nat; due : Z; callback : TimerKind }.

(** What the code did, newest first.  The record is never read by the
    modelled code; it only lets properties count calls. *)
Inductive Action :=
| NewEventSource
| Close                               (* eventSource.close() *)
| Opened                              (* onopen ran *)
| Cleanup                             (* cleanup() was entered *)
| SetTimeout (k : TimerKind) (delay : Z)
| OnProgress (message : string)
| OnComplete
| OnError (err : option string).

Definition isCleanup (a : Action) : bool :=
  match a with Cleanup => true | _ => false end.

Definition isClose (a : Action) : bool :=
  match a with Close => true | _ => false end.

(** [C] is the state owned by the subscriber. *)
Record World (C : Type) := mkWorld {
  clock : Z;
  timers : list Timer;
  nextHandle : nat;
  client : C;
  trace : list Action
}.

Arguments mkWorld {C}.
Arguments clock {C}.
Arguments timers {C}.
Arguments nextHandle {C}.
Arguments client {C}.
Arguments trace {C}.

Section Primitives.
Context {C : Type}.

Definition withClient (c : C) (w : World C) : World C :=
  mkWorld (clock w) (timers w) (nextHandle w) c (trace w).

Definition withClock (t : Z) (w : World C) : World C :=
  mkWorld t (timers w) (nextHandle w) (client w) (trace w).

Definition log (a : Action) (w : World C) : World C :=
  mkWorld (clock w) (timers w) (nextHandle w) (client w) (a :: trace w).

(** Handles are positive, hence truthy. *)
Definition setTimeout (k : TimerKind) (delay : Z) (w : World C)
  : nat * World C :=
  (nextHandle w,
   mkWorld (clock w)
           (timers w ++ [mkTimer (nextHandle w) (clock w + delay) k])
           (S (nextHandle w)) (client w)
           (SetTimeout k delay :: trace w)).

Definition clearTimeout (h : nat) (w : World C) : World C :=
  mkWorld (clock w)
          (filter (fun tm => negb (Nat.eqb (handle tm) h)) (timers w))
          (nextHandle w) (client w) (trace w).

Definition findTimer (h : nat) (w : World C) : option Timer :=
  find (fun tm => Nat.eqb (handle tm) h) (timers w).

(** The pending timer that is due first (the oldest among equals). *)
Fixpoint earliest (l : list Timer) : option Timer :=
  match l with
  | [] => None
  | tm :: rest =>
      match earliest rest with
      | Some tm' => if (due tm' <? due tm)%Z then Some tm' else Some tm
      | None => Some tm
      end
  end.

Definition pending (k : TimerKind) (w : World C) : list Timer :=
  filter (fun tm => match callback tm, k with
                    | ReconnectCallback, ReconnectCallback
                    | ResolveDelay, ResolveDelay
                    | CompletionFallback, CompletionFallback
                    | SafetyCleanup, SafetyCleanup => true
                    | _, _ => false
                    end) (timers w).

End Primitives.

End Browser.

(* ================================================================== *)
(** ** The event-stream client ([subscribeToProgress])                 *)
(* ================================================================== *)

Module Channel.
Import Browser.

Inductive ReadyState := CONNECTING | OPEN | CLOSED.

(** [data.type] of a frame that parsed. *)
Inductive FrameType :=
| TConnected | TProgress | TComplete | TError | TOther.

(** [event.data] as [onmessage] sees it. *)
Inductive Frame :=
| Keepalive                                   (* starts with ':' *)
| Malformed                                   (* JSON.parse throws *)
| Typed (ty : FrameType) (msg : option string).
                     (* [msg = None]: [data.message] is not a string *)

(** The variables closed over by [connect] and [cleanup].  The variable
    [eventSource] always designates the only EventSource object that can
    still deliver events, so the object is represented by its
    [readyState]. *)
Record Vars := mkVars {
  eventSource : option ReadyState;
  reconnectAttempts : nat;
  isManuallyCloseD : bool;
  reconnectTimer : option nat
}.

Definition maxReconnectAttempts : nat := 3.
Definition reconnectDelay : Z := 2000.

Definition serverErrorMessage := "Server reported an error during classification".
Definition connectionLostMessage :=
  "Connection lost. Please refresh the page and try again.".
Definition connectFailedMessage := "Failed to establish connection".

Definition initialVars : Vars := mkVars None 0 false None.

Section Subscription.
Context {C : Type}.

(** Where the subscriber keeps the closure of this subscription. *)
Variable getVars : C -> Vars.
Variable setVars : Vars -> C -> C.

(** Whether [new EventSource(url)] accepts the URL. *)
Variable urlOk : bool.

Variable onProgress : string -> World C -> World C.
Variable onComplete : World C -> World C.
Variable onError : option string -> World C -> World C.

Definition vars (w : World C) : Vars := getVars (client w).

Definition update (f : Vars -> Vars) (w : World C) : World C :=
  withClient (setVars (f (vars w)) (client w)) w.

Definition setEventSource (es : option ReadyState) : World C -> World C :=
  update (fun v => mkVars es (reconnectAttempts v) (isManuallyCloseD v)
                          (reconnectTimer v)).

Definition setReconnectAttempts (n : nat) : World C -> World C :=
  update (fun v => mkVars (eventSource v) n (isManuallyCloseD v)
                          (reconnectTimer v)).

Definition setManuallyClosed (b : bool) : World C -> World C :=
  update (fun v => mkVars (eventSource v) (reconnectAttempts v) b
                          (reconnectTimer v)).

Definition setReconnectTimer (h : option nat) : World C -> World C :=
  update (fun v => mkVars (eventSource v) (reconnectAttempts v)
                          (isManuallyCloseD v) h).

Definition cleanup (w : World C) : World C :=
  let w1 := setManuallyClosed true (log Cleanup w) in
  let w2 := match reconnectTimer (vars w1) with
            | Some h => setReconnectTimer None (clearTimeout h w1)
            | None => w1
            end in
  match eventSource (vars w2) with
  | Some _ => setEventSource None (log Close w2)
  | None => w2
  end.

Definition connect (w : World C) : World C :=
  if isManuallyCloseD (vars w) then w
  else if urlOk
       then setEventSource (Some CONNECTING) (log NewEventSource w)
       else onError (Some connectFailedMessage)
                    (log (OnError (Some connectFailedMessage)) w).

Definition onopen (w : World C) : World C :=
  setReconnectAttempts 0 (log Opened w).

Definition onmessage (f : Frame) (w : World C) : World C :=
  match f with
  | Keepalive => w
  | Malformed => w
  | Typed TConnected _ => w
  | Typed TProgress (Some m) => onProgress m (log (OnProgress m) w)
  | Typed TProgress None => w
  | Typed TComplete _ => cleanup (onComplete (log OnComplete w))
  | Typed TError _ =>
      cleanup (onError (Some serverErrorMessage)
                       (log (OnError (Some serverErrorMessage)) w))
  | Typed TOther _ => w
  end.

Definition onerror (w : World C) : World C :=
  match eventSource (vars w) with
  | Some CLOSED =>
      if negb (isManuallyCloseD (vars w))
         && (reconnectAttempts (vars w) <? maxReconnectAttempts)%nat
      then
        let w1 := setReconnectAttempts (S (reconnectAttempts (vars w))) w in
        let '(h, w2) := setTimeout ReconnectCallback reconnectDelay w1 in
        setReconnectTimer (Some h) w2
      else if (maxReconnectAttempts <=? reconnectAttempts (vars w))%nat
      then cleanup (onError (Some connectionLostMessage)
                            (log (OnError (Some connectionLostMessage)) w))
      else w
  | _ => w
  end.

(** The closure given to [setTimeout] by [onerror]. *)
Definition reconnectCallback (w : World C) : World C :=
  let w1 := match eventSource (vars w) with
            | Some _ => setEventSource (Some CLOSED) (log Close w)
            | None => w
            end in
  connect w1.

(** *** The EventSource object, as driven by the browser

    An EventSource delivers [open] once connected, [message] while
    open, and [error] when the connection drops: it then either
    reconnects by itself ([CONNECTING]) or has failed for good
    ([CLOSED]); a closed object delivers nothing. *)

Definition deliverOpen (w : World C) : option (World C) :=
  match eventSource (vars w) with
  | Some CONNECTING => Some (onopen (setEventSource (Some OPEN) w))
  | _ => None
  end.

Definition deliverMessage (f : Frame) (w : World C) : option (World C) :=
  match eventSource (vars w) with
  | Some OPEN => Some (onmessage f w)
  | _ => None
  end.

Definition deliverError (fatal : bool) (w : World C) : option (World C) :=
  match eventSource (vars w) with
  | Some CONNECTING | Some OPEN =>
      Some (onerror
              (setEventSource (Some (if fatal then CLOSED else CONNECTING)) w))
  | _ => None
  end.

End Subscription.

End Channel.

(* ================================================================== *)
(** ** A subscription on its own                                       *)
(* ================================================================== *)

(** The client with callbacks that do nothing: what it calls, and when, is
    read off the [trace]. *)
Module Subscriber.
Import Browser Channel.

Definition W : Type := World Vars.

Definition getVars (v : Vars) : Vars := v.
Definition setVars (v _ : Vars) : Vars := v.

Definition onProgress (_ : string) (w : W) : W := w.
Definition onComplete (w : W) : W := w.
Definition onError (_ : option string) (w : W) : W := w.

Definition cleanup : W -> W := Channel.cleanup getVars setVars.
Definition connect (urlOk : bool) : W -> W :=
  Channel.connect getVars setVars urlOk onError.
Definition reconnectCallback (urlOk : bool) : W -> W :=
  Channel.reconnectCallback getVars setVars urlOk onError.

(** [subscribeToProgress] up to its [return cleanup]. *)
Definition subscribe (urlOk : bool) (now : Z) : W :=
  connect urlOk (mkWorld now [] 1 initialVars []).

Inductive Event :=
| Open
| Message (f : Frame)
| Failure (fatal : bool)
| Timeout (h : nat)
| Unsubscribe.                       (* the caller invokes [cleanup] *)

(** A timer fires once it is due and leaves the table as it does. *)
Definition fire (urlOk : bool) (h : nat) (w : W) : option W :=
  match findTimer h w with
  | Some tm =>
      if (due tm <=? clock w)%Z
      then
        let w1 := clearTimeout h w in
        Some (match callback tm with
              | ReconnectCallback => reconnectCallback urlOk w1
              | _ => w1
              end)
      else None
  | None => None
  end.

(** Event [e] happens at time [t]; [None] when the browser cannot
    produce it in this state. *)
Definition step (urlOk : bool) (t : Z) (e : Event) (w : W) : option W :=
  if (t <? clock w)%Z then None
  else
    let w0 := withClock t w in
    match e with
    | Open => deliverOpen getVars setVars w0
    | Message f =>
        deliverMessage getVars setVars onProgress onComplete onError f w0
    | Failure fatal => deliverError getVars setVars onError fatal w0
    | Timeout h => fire urlOk h w0
    | Unsubscribe => Some (cleanup w0)
    end.

Fixpoint run (urlOk : bool) (evs : list (Z * Event)) (w : W) : option W :=
  match evs with
  | [] => Some w
  | (t, e) :: rest =>
      match step urlOk t e w with
      | Some w' => run urlOk rest w'
      | None => None
      end
  end.

(** *** Observations on the trace (newest first) *)

Definition isConnectionLost (a : Action) : bool :=
  match a with
  | OnError (Some m) => String.eqb m connectionLostMessage
  | _ => false
  end.

Definition isErrorCall (a : Action) : bool :=
  match a with OnError _ => true | _ => false end.

Definition isRetry (a : Action) : bool :=
  match a with SetTimeout ReconnectCallback _ => true | _ => false end.

Definition count (p : Action -> bool) (tr : list Action) : nat :=
  List.length (filter p tr).

(** Retries scheduled since the connection last opened. *)
Fixpoint retriesSinceOpen (tr : list Action) : nat :=
  match tr with
  | [] => 0
  | Opened :: _ => 0
  | a :: older => (if isRetry a then 1 else 0) + retriesSinceOpen older
  end.

Definition retryDelayOk (a : Action) : bool :=
  match a with
  | SetTimeout ReconnectCallback d => Z.eqb d 2000
  | _ => true
  end.

(** Connections attempted since the connection last opened. *)
Fixpoint attemptsSinceOpen (tr : list Action) : nat :=
  match tr with
  | [] => 0
  | Opened :: _ => 0
  | NewEventSource :: older => S (attemptsSinceOpen older)
  | _ :: older => attemptsSinceOpen older
  end.

Definition live (v : Vars) : bool :=
  match eventSource v with
  | Some CONNECTING | Some OPEN => true
  | _ => false
  end.

(** The trace of a subscription that gave up: the "connection lost" error
    was reported once, after three retries had been scheduled and three
    connections attempted since the connection last opened; [cleanup]
    followed at once and closed the transport; since then only further
    calls of [cleanup] were made. *)
Definition gaveUp (tr : list Action) : Prop :=
  exists post pre,
    tr = (post ++ Close :: Cleanup :: OnError (Some connectionLostMessage) :: pre)%list
    /\ forallb isCleanup post = true
    /\ count isConnectionLost pre = 0
    /\ retriesSinceOpen pre = maxReconnectAttempts
    /\ maxReconnectAttempts <= attemptsSinceOpen pre.

End Subscriber.

(* ================================================================== *)
(** ** The completion arbiter ([handleClassifyDocument])               *)
(* ================================================================== *)

Module Arbiter.
Import Browser Channel.

(** Where the [async] function stands: in its 500 ms pause, waiting for
    [classifyApi.classifyDocument], or past it. *)
Inductive Phase := Delaying | Requesting | Returned.

(** The closure of one call of [handleClassifyDocument], with the
    registry it talks to and the closure of its subscription. *)
Record Job := mkJob {
  docId : string;
  registry : Registry.State;
  isCompleted : bool;
  completionTimer : option nat;
  cleanupTimer : option nat;
  phase : Phase;
  subscription : Vars;
  randomCalls : nat
}.

Definition W : Type := World Job.

Definition setRegistry (r : Registry.State) (j : Job) : Job :=
  mkJob (docId j) r (isCompleted j) (completionTimer j) (cleanupTimer j)
        (phase j) (subscription j) (randomCalls j).
Definition setCompleted (b : bool) (j : Job) : Job :=
  mkJob (docId j) (registry j) b (completionTimer j) (cleanupTimer j)
        (phase j) (subscription j) (randomCalls j).
Definition setCompletionTimer (h : option nat) (j : Job) : Job :=
  mkJob (docId j) (registry j) (isCompleted j) h (cleanupTimer j)
        (phase j) (subscription j) (randomCalls j).
Definition setCleanupTimer (h : option nat) (j : Job) : Job :=
  mkJob (docId j) (registry j) (isCompleted j) (completionTimer j) h
        (phase j) (subscription j) (randomCalls j).
Definition setPhase (p : Phase) (j : Job) : Job :=
  mkJob (docId j) (registry j) (isCompleted j) (completionTimer j)
        (cleanupTimer j) p (subscription j) (randomCalls j).
Definition setVars (v : Vars) (j : Job) : Job :=
  mkJob (docId j) (registry j) (isCompleted j) (completionTimer j)
        (cleanupTimer j) (phase j) v (randomCalls j).
Definition setRandomCalls (n : nat) (j : Job) : Job :=
  mkJob (docId j) (registry j) (isCompleted j) (completionTimer j)
        (cleanupTimer j) (phase j) (subscription j) n.

Definition upd (f : Job -> Job) (w : W) : W := withClient (f (client w)) w.

(** A registry callback invoked at the current time, with its render. *)
Definition call (c : Registry.Call) (w : W) : W :=
  upd (fun j => setRegistry (Registry.dispatch c (registry j)) j) w.

(** [unsubscribe], the function returned by [subscribeToProgress]. *)
Definition unsubscribe : W -> W := Channel.cleanup subscription setVars.

Definition clearIfSet (h : option nat) (w : W) : W :=
  match h with Some n => clearTimeout n w | None => w end.

Section Callbacks.
(** The successive renderings of [Math.random()]. *)
Variable mathRandom : nat -> string.

Definition onProgress (message : string) (w : W) : W :=
  let j := client w in
  upd (fun j' => setRandomCalls (S (randomCalls j')) j')
      (call (Registry.AddProgress (docId j) message Registry.TypeInfo
                                  (clock w) (mathRandom (randomCalls j))
                                  (clock w)) w).

Definition onComplete (w : W) : W :=
  if isCompleted (client w) then w
  else
    let w1 := upd (setCompleted true) w in
    let w2 := call (Registry.CompleteOperation (docId (client w1)) (clock w1)) w1 in
    let w3 := clearIfSet (completionTimer (client w2)) w2 in
    clearIfSet (cleanupTimer (client w3)) w3.

(** [error || 'Connection error'] *)
Definition orConnectionError (err : option string) : string :=
  match err with
  | Some m => if String.eqb m "" then "Connection error" else m
  | None => "Connection error"
  end.

Definition onError (err : option string) (w : W) : W :=
  if isCompleted (client w) then w
  else
    let w1 := upd (setCompleted true) w in
    let w2 := call (Registry.ErrorOperation (docId (client w1))
                                            (orConnectionError err) (clock w1)) w1 in
    let w3 := unsubscribe w2 in
    let w4 := clearIfSet (completionTimer (client w3)) w3 in
    clearIfSet (cleanupTimer (client w4)) w4.

(** The synchronous prefix of [handleClassifyDocument], entered at time
    [now] with the registry in state [reg]; the URL of the stream is
    well formed. *)
Definition start (d : string) (filename : option string) (now : Z)
           (reg : Registry.State) : W :=
  let job :=
    mkJob d (Registry.dispatch (Registry.StartOperation d filename now) reg)
          false None None Delaying initialVars 0 in
  let w := Channel.connect subscription setVars true onError
                           (mkWorld now [] 1 job []) in
  snd (setTimeout ResolveDelay 500 w).

(** The pause is over: the request is sent. *)
Definition resolveDelay (w : W) : W :=
  match phase (client w) with
  | Delaying => upd (setPhase Requesting) w
  | _ => w
  end.

(** The [try] block after [await classifyApi.classifyDocument]. *)
Definition requestSuccess (w : W) : W :=
  let '(h1, w1) := setTimeout CompletionFallback 2000 w in
  let w2 := upd (setCompletionTimer (Some h1)) w1 in
  let '(h2, w3) := setTimeout SafetyCleanup 5000 w2 in
  upd (setPhase Returned) (upd (setCleanupTimer (Some h2)) w3).

(** The [catch] block. *)
Definition requestFailure (message : string) (w : W) : W :=
  let w1 :=
    if isCompleted (client w) then w
    else
      let w' := upd (setCompleted true) w in
      call (Registry.ErrorOperation (docId (client w')) message (clock w')) w' in
  let w2 := unsubscribe w1 in
  let w3 := clearIfSet (completionTimer (client w2)) w2 in
  upd (setPhase Returned) (clearIfSet (cleanupTimer (client w3)) w3).

(** The closure of [completionTimer]. *)
Definition completionFallback (w : W) : W :=
  if isCompleted (client w) then w
  else
    let w1 := upd (setCompleted true) w in
    unsubscribe
      (call (Registry.CompleteOperation (docId (client w1)) (clock w1)) w1).

(** The closure of [cleanupTimer]. *)
Definition safetyCleanup (w : W) : W :=
  let w1 :=
    if isCompleted (client w) then w
    else
      let w' := upd (setCompleted true) w in
      call (Registry.CompleteOperation (docId (client w')) (clock w')) w' in
  let w2 := unsubscribe w1 in
  clearIfSet (completionTimer (client w2)) w2.

Inductive Event :=
| Open
| Message (f : Frame)
| Failure (fatal : bool)
| Timeout (h : nat)
| RequestSuccess
| RequestFailure (message : string).

Definition fire (h : nat) (w : W) : option W :=
  match findTimer h w with
  | Some tm =>
      if (due tm <=? clock w)%Z
      then
        let w1 := clearTimeout h w in
        Some (match callback tm with
              | ReconnectCallback =>
                  Channel.reconnectCallback subscription setVars true onError w1
              | ResolveDelay => resolveDelay w1
              | CompletionFallback => completionFallback w1
              | SafetyCleanup => safetyCleanup w1
              end)
      else None
  | None => None
  end.

Definition awaitingRequest (w : W) : bool :=
  match phase (client w) with Requesting => true | _ => false end.

Definition step (t : Z) (e : Event) (w : W) : option W :=
  if (t <? clock w)%Z then None
  else
    let w0 := withClock t w in
    match e with
    | Open => deliverOpen subscription setVars w0
    | Message f =>
        deliverMessage subscription setVars onProgress onComplete onError f w0
    | Failure fatal => deliverError subscription setVars onError fatal w0
    | Timeout h => fire h w0
    | RequestSuccess =>
        if awaitingRequest w0 then Some (requestSuccess w0) else None
    | RequestFailure m =>
        if awaitingRequest w0 then Some (requestFailure m w0) else None
    end.

Fixpoint run (evs : list (Z * Event)) (w : W) : option W :=
  match evs with
  | [] => Some w
  | (t, e) :: rest =>
      match step t e w with
      | Some w' => run rest w'
      | None => None
      end
  end.

(** Time passes and nothing else happens: the pending timers fire in
    the order in which they fall due, each at its due time. *)
Definition fireNext (w : W) : option W :=
  match earliest (timers w) with
  | Some tm => step (Z.max (clock w) (due tm)) (Timeout (handle tm)) w
  | None => None
  end.

Fixpoint runTimersFuel (fuel : nat) (w : W) : W :=
  match fuel with
  | O => w
  | S fuel' =>
      match fireNext w with
      | Some w' => runTimersFuel fuel' w'
      | None => w
      end
  end.

(** No closure schedules a timer, so each firing shortens the table. *)
Definition runTimers (w : W) : W :=
  runTimersFuel (List.length (timers w)) w.

End Callbacks.

(** *** Observations *)

Definition armed (w : W) : list Timer :=
  pending CompletionFallback w ++ pending SafetyCleanup w.

Definition cleanupCalls (w : W) : nat := List.length (filter isCleanup (trace w)).
Definition closeCalls (w : W) : nat := List.length (filter isClose (trace w)).

(** The four completion signals as the arbiter receives them. *)
Inductive Signal :=
| StreamComplete
| StreamError (err : option string)
| RequestSucceeded
| RequestFailed (message : string).

(** [w'] is settled, by the registry call [c] made on [w]. *)
Definition settledWith (c : Registry.Call) (w w' : W) : Prop :=
  isCompleted (client w') = true
  /\ registry (client w') = Registry.dispatch c (registry (client w)).

(** [w'] has the flag and the registry of [w]. *)
Definition untouched (w w' : W) : Prop :=
  isCompleted (client w') = isCompleted (client w)
  /\ registry (client w') = registry (client w).

(** The event is the firing of the grace-window timer. *)
Definition fallbackFires (e : Event) (w : W) : bool :=
  match e with
  | Timeout h =>
      match findTimer h w with
      | Some tm => match callback tm with CompletionFallback => true | _ => false end
      | None => false
      end
  | _ => false
  end.

Definition signal (sg : Signal) (w : W) : W :=
  match sg with
  | StreamComplete => onComplete w
  | StreamError err => onError err w
  | RequestSucceeded => requestSuccess w
  | RequestFailed m => requestFailure m w
  end.

(** Handles in the timer table are distinct and were all handed out. *)
Definition handlesOk (l : list Timer) (next : nat) : Prop :=
  NoDup (map handle l) /\ Forall (fun tm => (handle tm < next)%nat) l.

(** Why a timer is pending: a retry is the one [reconnectTimer] holds,
    and the EventSource it replaces has failed; the pause (handle 1) is
    pending while the function is in it; the two timers of the [try]
    block are the ones whose handles the closure holds. *)
Definition held (j : Job) (tm : Timer) : Prop :=
  match callback tm with
  | ReconnectCallback =>
      reconnectTimer (subscription j) = Some (handle tm)
      /\ eventSource (subscription j) = Some CLOSED
  | ResolveDelay => phase j = Delaying /\ handle tm = 1%nat
  | CompletionFallback =>
      completionTimer j = Some (handle tm) /\ phase j = Returned
  | SafetyCleanup =>
      cleanupTimer j = Some (handle tm) /\ phase j = Returned
  end.

(** What holds of a job while it is unsettled: [cleanup] was never
    entered and the subscription holds an EventSource; every pending
    timer is held; the handle in [reconnectTimer], stale or not, is no
    handle of another timer; the timers of [keep] are pending. *)
Record Waiting (keep : list Timer) (w : W) : Prop := mkWaiting {
  waiting_cleanup : cleanupCalls w = 0%nat;
  waiting_source : eventSource (subscription (client w)) <> None;
  waiting_handles : handlesOk (timers w) (nextHandle w);
  waiting_fresh :
    forall h, reconnectTimer (subscription (client w)) = Some h ->
              (h < nextHandle w)%nat;
  waiting_held : forall tm, In tm (timers w) -> held (client w) tm;
  waiting_retry :
    forall tm, In tm (timers w) ->
               reconnectTimer (subscription (client w)) = Some (handle tm) ->
               callback tm = ReconnectCallback;
  waiting_keep :
    forall tm, In tm keep ->
               In tm (timers w)
               /\ (callback tm = CompletionFallback
                   \/ callback tm = SafetyCleanup)
}.

Definition waiting (d : string) (keep : list Timer) (w : W) : Prop :=
  docId (client w) = d /\ (isCompleted (client w) = false -> Waiting keep w).

(** The grace-window timer has settled the job: the subscription is
    closed, [cleanup] ran once, and [safety] is the one timer left. *)
Definition fallenBack (safety : Timer) (w : W) : Prop :=
  isCompleted (client w) = true
  /\ eventSource (subscription (client w)) = None
  /\ phase (client w) = Returned
  /\ cleanupCalls w = 1%nat
  /\ forall tm, In tm (timers w) <-> tm = safety.

End Arbiter.

(* ================================================================== *)
(** ** Concrete runs                                                   *)
(* ================================================================== *)

Module Scenario.
Import Registry.

(** Scenario A up to the second step: "doc-1" started and reporting. *)
Definition reporting : State :=
  run [StartOperation "doc-1" (Some "report.pdf") 100;
       AddProgress "doc-1" "Extracting" TypeInfo 110 "0.25" 110;
       AddProgress "doc-1" "Classifying" TypeInfo 120 "0.75" 120] fresh.

(** Scenario D: "doc-4" has already finished. *)
Definition finishedDoc4 : State :=
  run [StartOperation "doc-4" None 100;
       AddProgress "doc-4" "Extracting" TypeInfo 110 "0.5" 110;
       CompleteOperation "doc-4" 200] fresh.

Definition docName (n : nat) : string := "doc-" ++ decimal (Z.of_nat n).

(** Fifty documents classified one after the other, then a fifty-first
    started. *)
Definition fiftyFinished : list Call :=
  flat_map (fun n => [StartOperation (docName n) None (Z.of_nat (1000 + n));
                      CompleteOperation (docName n) (Z.of_nat (2000 + n))])
           (seq 1 50).

Definition fullThenOneMore : list Call :=
  (fiftyFinished ++ [StartOperation "doc-51" None 3000])%list.

Definition doc51 : ProgressOperation :=
  mkOperation "doc-51" None StatusActive [] 3000 None None.

(** A document classified, then classified again. *)
Definition restarted : list Call :=
  [StartOperation "doc-1" None 100;
   CompleteOperation "doc-1" 200;
   StartOperation "doc-1" None 300].

Definition restartedAndFinished : list Call :=
  (restarted ++ [CompleteOperation "doc-1" 400])%list.

(** A document whose classification is started again while the first is
    still reporting, and one started again after it was removed. *)
Definition startedOver : list Call :=
  [StartOperation "doc-2" None 100;
   AddProgress "doc-2" "Extracting" TypeInfo 110 "0.5" 110;
   StartOperation "doc-2" None 150;
   CompleteOperation "doc-2" 200].

Definition removedThenStarted : list Call :=
  [StartOperation "doc-2" None 100;
   RemoveOperation "doc-2";
   StartOperation "doc-2" None 150;
   CompleteOperation "doc-2" 200].

(** A reload at time 1000000 that finds one entry started at 0 and one
    started at 900000. *)
Definition docOld : ProgressOperation :=
  mkOperation "doc-old" (Some "old.pdf") StatusActive [] 0 None None.

Definition docRecent : ProgressOperation :=
  mkOperation "doc-recent" None StatusActive [] 900000 None None.

Definition stored : Storage := mkStorage (Some []) (Some [docOld; docRecent]).


(** A stream whose server refuses every connection: the first attempt and
    the three retries fail for good. *)
Definition dropped : list (Z * Subscriber.Event) :=
  [(100, Subscriber.Failure true);
   (2100, Subscriber.Timeout 1);
   (2200, Subscriber.Failure true);
   (4200, Subscriber.Timeout 2);
   (4300, Subscriber.Failure true);
   (6300, Subscriber.Timeout 3);
   (6400, Subscriber.Failure true)]%Z.

(** One classification of "doc-3", started at time 0 on a first visit. *)
Definition random (n : nat) : string := "0.5".

Definition job : Arbiter.W :=
  Arbiter.start "doc-3" (Some "contract.pdf") 0 fresh.

(** Scenario C: the stream opens, the request is sent after the pause and
    resolves at 900; the stream stays silent. *)
Definition silentStream : list (Z * Arbiter.Event) :=
  [(100, Arbiter.Open); (500, Arbiter.Timeout 1)]%Z.

Definition resolved : list (Z * Arbiter.Event) :=
  (silentStream ++ [(900, Arbiter.RequestSuccess)])%list%Z.

(** The first connection fails for good and a retry is scheduled; the
    request is sent after the pause and resolves at 900 with the retry
    pending.  The retry then connects. *)
Definition retrying : list (Z * Arbiter.Event) :=
  [(100, Arbiter.Failure true); (500, Arbiter.Timeout 1)]%Z.

Definition reconnected : list (Z * Arbiter.Event) :=
  [(2100, Arbiter.Timeout 2); (2200, Arbiter.Open)]%Z.

(** The stream announces completion before the request resolves. *)
Definition streamFirst : list (Z * Arbiter.Event) :=
  [(100, Arbiter.Open);
   (300, Arbiter.Message (Channel.Typed Channel.TComplete None));
   (500, Arbiter.Timeout 1);
   (900, Arbiter.RequestSuccess)]%Z.

End Scenario.

(* ================================================================== *)
(** ** The results carousel ([App.tsx])                                *)
(* ================================================================== *)

(** The list of classification results and the index of the result on
    display.  Each event is followed by its render; events are rendered
    one at a time. *)
Module Carousel.

Inductive ClassificationCategory :=
| PUBLIC | CONFIDENTIAL | HIGHLY_SENSITIVE | UNSAFE.

(** The fields of a result that [App] reads or writes; [rest] stands for
    the others, which are only copied. *)
Record ClassificationResult := mkResult {
  document_id : string;
  classification : ClassificationCategory;
  requires_review : bool;
  rest : string
}.

(** The two [useState] cells behind the carousel. *)
Record View := mkView {
  classificationResults : list ClassificationResult;
  currentResultIndex : Z
}.

(** [classificationResults.length] *)
Definition size (v : View) : Z :=
  Z.of_nat (List.length (classificationResults v)).

Definition setCurrentResultIndex (i : Z) (v : View) : View :=
  mkView (classificationResults v) i.

Definition setClassificationResults (l : list ClassificationResult) (v : View)
  : View :=
  mkView l (currentResultIndex v).

(** [useEffect(..., [classificationResults.length])] *)
Definition lengthEffect (v : View) : View :=
  if (0 <? size v)%Z then setCurrentResultIndex (size v - 1) v
  else setCurrentResultIndex 0 v.

(** The effect runs after a render in which the length differs from the
    length of the render [before]. *)
Definition rendered (before : View) (v : View) : View :=
  if (size v =? size before)%Z then v else lengthEffect v.

(** [setClassificationResults(prev => [...prev, result])] of
    [handleClassifyDocument]. *)
Definition addResult (result : ClassificationResult) (v : View) : View :=
  setClassificationResults (classificationResults v ++ [result])%list v.

(** The state update of [handleDeleteResult]; [seen] is the
    [currentResultIndex] its closure captured. *)
Definition handleDeleteResult (documentId : string) (seen : Z) (v : View)
  : View :=
  let filtered :=
    filter (fun r => negb (String.eqb (document_id r) documentId))
           (classificationResults v) in
  let n := Z.of_nat (List.length filtered) in
  let v1 :=
    if ((n <=? seen) && (0 <? n))%Z then setCurrentResultIndex (n - 1) v
    else if (n =? 0)%Z then setCurrentResultIndex 0 v
    else v in
  setClassificationResults filtered v1.

(** The state updates of [handleClearAll] that concern the carousel. *)
Definition handleClearAll (v : View) : View :=
  setCurrentResultIndex 0 (setClassificationResults [] v).

(** The state update of [handleReviewSubmit]; [reviewing] is
    [reviewingResult.document_id]. *)
Definition handleReviewSubmit (approved : bool)
           (correctedClassification : option ClassificationCategory)
           (reviewing : string) (v : View) : View :=
  setClassificationResults
    (map (fun r =>
            if String.eqb (document_id r) reviewing
            then if approved
                 then mkResult (document_id r) (classification r) false (rest r)
                 else mkResult (document_id r)
                               (match correctedClassification with
                                | Some c => c
                                | None => classification r
                                end)
                               false (rest r)
            else r)
         (classificationResults v))
    v.

Definition handlePreviousResult (v : View) : View :=
  setCurrentResultIndex (Z.max 0 (currentResultIndex v - 1)) v.

Definition handleNextResult (v : View) : View :=
  setCurrentResultIndex (Z.min (size v - 1) (currentResultIndex v + 1)) v.

(** What the user and the backend make happen. *)
Inductive Event :=
| Classified (result : ClassificationResult)
| Loaded (validResults : list ClassificationResult)
| Deleted (documentId : string) (seen : Z)
| ClearedAll
| Reviewed (approved : bool)
           (correctedClassification : option ClassificationCategory)
           (reviewing : string)
| Previous
| Next.

(** The navigation header is rendered for more than one result, and each
    button is disabled at its end of the list. *)
Definition previousEnabled (v : View) : bool :=
  (1 <? size v)%Z && negb (currentResultIndex v =? 0)%Z.

Definition nextEnabled (v : View) : bool :=
  (1 <? size v)%Z && negb (currentResultIndex v =? size v - 1)%Z.

(** One event and the render that follows it; [None] when the button is
    not there to be clicked. *)
Definition step (e : Event) (v : View) : option View :=
  match e with
  | Classified result => Some (rendered v (addResult result v))
  | Loaded validResults =>
      Some (rendered v (setClassificationResults validResults v))
  | Deleted documentId seen =>
      Some (rendered v (handleDeleteResult documentId seen v))
  | ClearedAll => Some (rendered v (handleClearAll v))
  | Reviewed approved corrected reviewing =>
      Some (rendered v (handleReviewSubmit approved corrected reviewing v))
  | Previous =>
      if previousEnabled v then Some (handlePreviousResult v) else None
  | Next => if nextEnabled v then Some (handleNextResult v) else None
  end.

Fixpoint run (evs : list Event) (v : View) : option View :=
  match evs with
  | [] => Some v
  | e :: later =>
      match step e v with
      | Some v' => run later v'
      | None => None
      end
  end.




End Carousel.

(* ================================================================== *)
(** ** Further observations                                            *)
(* ================================================================== *)

(** *** Progress reports *)

Module Progress.

(** What one invocation of the updater of [addProgress] reads:
    [Date.now()] for the id of the step, [Math.random()], and
    [Date.now()] for the timestamp. *)
Record Readings := mkReadings { idNow : Z; random : string; now : Z }.

(** One call of [addProgress], as data: the message, the type, what the
    invocation of its updater reads, and what each further invocation of
    the same updater reads.  React invokes an updater once in a
    production build; under [React.StrictMode], which [main.tsx] turns
    on, it invokes it again in development. *)
Record Report := mkReport {
  text : string;
  kind : Registry.StepType;
  first : Readings;
  again : list Readings
}.

Definition invocations (r : Report) : list Readings := first r :: again r.

(** The step one invocation builds. *)
Definition stepOf (d : string) (r : Report) (rd : Readings)
  : Registry.ProgressStep :=
  Registry.mkStep (d ++ "-" ++ Registry.decimal (idNow rd) ++ "-" ++ random rd)
                  (text r) (now rd) (Some (kind r)).




(** An entry of the active map is an object whose [steps] field refers
    to an array; [{ ...operation }] makes an object with the same
    fields, hence with the same array. *)
Record Object := mkObject {
  documentId : string;
  filename : option string;
  status : Registry.Status;
  steps : nat;
  startedAt : Z;
  completedAt : option Z;
  error : option string
}.

(** The arrays, by address. *)
Definition Arrays : Type := list (list Registry.ProgressStep).

Definition read (a : nat) (h : Arrays) : list Registry.ProgressStep :=
  nth a h [].

(** [array.push(step)] *)
Fixpoint push (a : nat) (step : Registry.ProgressStep) (h : Arrays) {struct h}
  : Arrays :=
  match h, a with
  | [], _ => []
  | arr :: rest, O => (arr ++ [step])%list :: rest
  | arr :: rest, S a' => arr :: push a' step rest
  end.

(** The entry as [Registry] has it. *)
Definition view (h : Arrays) (o : Object) : Registry.ProgressOperation :=
  Registry.mkOperation (documentId o) (filename o) (status o)
                       (read (steps o) h) (startedAt o) (completedAt o)
                       (error o).

Definition viewMap (h : Arrays) (m : JSMap.t Object)
  : JSMap.t Registry.ProgressOperation :=
  map (fun kv => (fst kv, view h (snd kv))) m.

(** Every entry has an array of its own, as [startOperation] gives it
    ([steps: []]). *)
Definition separate (m : JSMap.t Object) (h : Arrays) : Prop :=
  NoDup (map (fun kv => steps (snd kv)) m)
  /\ Forall (fun kv => (steps (snd kv) < List.length h)%nat) m.

(** [startOperation] on objects and arrays: [steps: []] is a new array. *)
Definition startOperation (d : string) (filename : option string) (now : Z)
           (st : JSMap.t Object * Arrays) : JSMap.t Object * Arrays :=
  (JSMap.set d (mkObject d filename Registry.StatusActive
                         (List.length (snd st)) now None None) (fst st),
   (snd st ++ [[]])%list).

(** The updater [addProgress] hands to [setActiveOperations], invoked on
    [prev]: the step is pushed on the array of the entry [prev] holds,
    and the new map holds a copy of that entry. *)
Definition updater (d : string) (r : Report) (rd : Readings)
           (prev : JSMap.t Object) (h : Arrays) : JSMap.t Object * Arrays :=
  match JSMap.get d prev with
  | Some operation =>
      (JSMap.set d operation prev, push (steps operation) (stepOf d r rd) h)
  | None => (prev, h)
  end.

(** React invokes the updater on the state it holds, each time on the
    same [prev], and keeps the map the last invocation returned. *)
Fixpoint invoke (d : string) (r : Report) (rds : list Readings)
         (prev kept : JSMap.t Object) (h : Arrays)
  : JSMap.t Object * Arrays :=
  match rds with
  | [] => (kept, h)
  | rd :: rest =>
      let '(m, h') := updater d r rd prev h in invoke d r rest prev m h'
  end.


Definition addProgress (d : string) (r : Report)
           (st : JSMap.t Object * Arrays) : JSMap.t Object * Arrays :=
  invoke d r (invocations r) (fst st) (fst st) (snd st).


End Progress.

(** *** Storage and reload *)

Module Persistence.
Import Registry.




(** Distinct keys, each entry under its own id. *)
Definition wellKeyed (m : JSMap.t ProgressOperation) : Prop :=
  keyed m /\ NoDup (JSMap.keys m).

(** The entries of a map that are not stale at [now], in map order. *)
Definition recent (now : Z) (m : JSMap.t ProgressOperation)
  : JSMap.t ProgressOperation :=
  filter (fun kv => negb (isStale now (snd kv))) m.


End Persistence.

(** *** Frames and callbacks of a subscription *)

Module Delivery.
Import Browser Channel Subscriber.

(** The callback a frame makes [onmessage] invoke, if any. *)
Definition callbackOf (f : Frame) : list Action :=
  match f with
  | Typed TProgress (Some m) => [OnProgress m]
  | Typed TComplete _ => [OnComplete]
  | Typed TError _ => [OnError (Some serverErrorMessage)]
  | _ => []
  end.

Definition isTerminal (f : Frame) : bool :=
  match f with
  | Typed TComplete _ | Typed TError _ => true
  | _ => false
  end.

Definition isCallback (a : Action) : bool :=
  match a with
  | OnProgress _ | OnComplete | OnError _ => true
  | _ => false
  end.

(** The callbacks invoked so far, oldest first. *)
Definition callbacks (tr : list Action) : list Action :=
  rev (filter isCallback tr).

(** The frames of a stream as events, each with its time of arrival. *)
Definition messages (fs : list (Z * Frame)) : list (Z * Event) :=
  map (fun tf => (fst tf, Message (snd tf))) fs.

(** The closure of a subscription as [cleanup] leaves it. *)
Definition released (v : Vars) : Prop :=
  eventSource v = None /\ isManuallyCloseD v = true /\ reconnectTimer v = None.

(** The timer table of a subscription: empty, or the one retry the
    subscription holds while its connection is closed. *)
Definition oneRetry (w : W) : Prop :=
  timers w = []
  \/ exists tm,
      timers w = [tm]
      /\ callback tm = ReconnectCallback
      /\ reconnectTimer (client w) = Some (handle tm)
      /\ eventSource (client w) = Some CLOSED
      /\ isManuallyCloseD (client w) = false.

End Delivery.

(** *** A job and the registry *)

Module Tracking.
Import Browser Channel Arbiter.

(** The messages handed to [onProgress] so far, oldest first. *)
Fixpoint progressOf (tr : list Action) : list string :=
  match tr with
  | [] => []
  | OnProgress m :: older => (progressOf older ++ [m])%list
  | _ :: older => progressOf older
  end.

(** The subscription of the job was closed by [cleanup]. *)
Definition unsubscribed (w : W) : Prop :=
  isManuallyCloseD (subscription (client w)) = true
  /\ eventSource (subscription (client w)) = None.

(** A closed subscription has no EventSource, and a settled job has
    closed its subscription. *)
Definition sound (w : W) : Prop :=
  (isManuallyCloseD (subscription (client w)) = true ->
   eventSource (subscription (client w)) = None)
  /\ (isCompleted (client w) = true ->
      isManuallyCloseD (subscription (client w)) = true).

(** What one event does to the job: nothing to the flag and the
    registry; or one [addProgress]; or the one terminal transition. *)
Definition quiet (w w' : W) : Prop :=
  isCompleted (client w') = isCompleted (client w)
  /\ registry (client w') = registry (client w)
  /\ progressOf (trace w') = progressOf (trace w).

Definition reports (w w' : W) : Prop :=
  isCompleted (client w) = false
  /\ isCompleted (client w') = false
  /\ exists m random,
      registry (client w')
      = Registry.dispatch
          (Registry.AddProgress (docId (client w)) m Registry.TypeInfo
                                (clock w') random (clock w'))
          (registry (client w))
      /\ progressOf (trace w') = (progressOf (trace w) ++ [m])%list.

Definition settles (w w' : W) : Prop :=
  isCompleted (client w) = false
  /\ isCompleted (client w') = true
  /\ progressOf (trace w') = progressOf (trace w)
  /\ exists c,
      Registry.terminalFor (docId (client w)) c = true
      /\ registry (client w') = Registry.dispatch c (registry (client w)).



(** Past the request, an unsettled job has its hard-safety timer
    pending, due within five seconds. *)
Definition guarded (w : W) : Prop :=
  handlesOk (timers w) (nextHandle w)
  /\ (phase (client w) = Returned ->
      isCompleted (client w) = false ->
      exists tm, In tm (timers w)
                 /\ callback tm = SafetyCleanup
                 /\ cleanupTimer (client w) = Some (handle tm)
                 /\ (due tm <= clock w + 5000)%Z).

End Tracking.

(** *** Which ids are active, and what entries look like *)

Module Integrity.
Import Registry.

(** What a call says about an id: it makes it active, it makes it
    inactive, or it leaves it as it is. *)
Definition verdict (d : string) (c : Call) : option bool :=
  match c with
  | StartOperation d' _ _ => if String.eqb d' d then Some true else None
  | CompleteOperation d' _ | ErrorOperation d' _ _ | RemoveOperation d' =>
      if String.eqb d' d then Some false else None
  | AddProgress _ _ _ _ _ _ | ClearHistory => None
  end.

(** The last verdict of a sequence of calls, [before] if there is none. *)
Definition lastVerdict (d : string) (calls : list Call) (before : bool) : bool :=
  fold_left (fun acc c => match verdict d c with Some b => b | None => acc end)
            calls before.

(** An entry being tracked: active, not completed, no error. *)
Definition isPending (op : ProgressOperation) : bool :=
  match status op, completedAt op, error op with
  | StatusActive, None, None => true
  | _, _, _ => false
  end.

(** An entry of the history: completed without an error, or failed with
    one, and in both cases with the time it ended. *)
Definition isFinished (op : ProgressOperation) : bool :=
  match status op, completedAt op, error op with
  | StatusCompleted, Some _, None => true
  | StatusError, Some _, Some _ => true
  | _, _, _ => false
  end.

Definition consistent (s : State) : Prop :=
  forallb isFinished (history s) = true
  /\ forallb isPending (JSMap.values (activeOperations s)) = true.

Definition consistentStorage (st : Storage) : Prop :=
  forallb isFinished (loadHistory st) = true
  /\ forallb isPending (match classification_active st with
                        | Some parsed => parsed
                        | None => []
                        end) = true.

(** The call is made for the id. *)
Definition names (d : string) (c : Call) : bool :=
  match c with
  | StartOperation d' _ _ | AddProgress d' _ _ _ _ _
  | CompleteOperation d' _ | ErrorOperation d' _ _ | RemoveOperation d' =>
      String.eqb d' d
  | ClearHistory => false
  end.

(** None of the calls is made for the id. *)
Definition others (d : string) (calls : list Call) : bool :=
  forallb (fun c => negb (names d c)) calls.

End Integrity.

(** *** EventSource objects created and closed *)

Module Leak.
Import Browser Channel Subscriber.

Definition isNew (a : Action) : bool :=
  match a with NewEventSource => true | _ => false end.

(** EventSource objects created and not yet closed. *)
Definition unclosed (tr : list Action) : Z :=
  (Z.of_nat (count isNew tr) - Z.of_nat (count isClose tr))%Z.

(** The variable [eventSource] holds the one EventSource that was
    created and not closed, if there is one. *)
Definition accounted (w : W) : Prop :=
  unclosed (trace w)
  = match eventSource (client w) with Some _ => 1%Z | None => 0%Z end.

End Leak.

(** *** A job on the shared registry *)

Module Session.
Import Browser Channel Arbiter.



(** What happens while a job runs: an event of the job; a progress frame
    whose [addProgress] updater React invokes [again] more times; a call
    of the registry by another job or by the notification centre.  The
    updaters of [startOperation] and of the terminal transitions leave
    the same state when they are invoked again (the second history
    updater finds the entry of the first), so the events of the job
    stand for them whether or not React invokes them again. *)
Inductive Event :=
| Own (e : Arbiter.Event)
| Replayed (message : string) (again : nat)
| Other (c : Registry.Call).

Section Shared.
Variable mathRandom : nat -> string.

(** A further invocation of the updater pushes on the array the entry
    shares with the previous state: it does to the registry what one
    more [addProgress] does ([Progress.updater]). *)
Definition replay (message : string) (again : nat) (w : W) : W :=
  Nat.iter again (onProgress mathRandom message) w.

Definition step (t : Z) (ev : Event) (w : W) : option W :=
  match ev with
  | Own e => Arbiter.step mathRandom t e w
  | Replayed m again =>
      match Arbiter.step mathRandom t (Message (Typed TProgress (Some m))) w with
      | Some w' => Some (replay m again w')
      | None => None
      end
  | Other c =>
      if (t <? clock w)%Z then None else Some (call c (withClock t w))
  end.

Fixpoint run (evs : list (Z * Event)) (w : W) : option W :=
  match evs with
  | [] => Some w
  | (t, ev) :: rest =>
      match step t ev w with
      | Some w' => run rest w'
      | None => None
      end
  end.

End Shared.






End Session.

(** *** Concrete inputs *)

Module Cases.




(** After a reload at 1000000 of [Scenario.stored], "doc-7" is
    started. *)
Definition afterReload : list Registry.Call :=
  [Registry.StartOperation "doc-7" (Some "memo.pdf") 1000100;
   Registry.AddProgress "doc-7" "Extracting" Registry.TypeInfo
                        1000200 "0.5" 1000200].


Definition thenFailed : list Registry.Call :=
  (afterReload ++ [Registry.ErrorOperation "doc-7" "Network Error" 1000300])%list.

(** What happens to "doc-7" next, and a [clearHistory]. *)
Definition onDoc7 : list Registry.Call :=
  [Registry.AddProgress "doc-7" "Classifying" Registry.TypeInfo
                        1000300 "0.25" 1000300;
   Registry.CompleteOperation "doc-7" 1000400;
   Registry.ClearHistory].

(** A stream that opens, reports twice among frames that carry nothing,
    and completes. *)
Definition opened : list (Z * Subscriber.Event) := [(100, Subscriber.Open)]%Z.

Definition stream : list (Z * Channel.Frame) :=
  [(200, Channel.Typed Channel.TConnected None);
   (300, Channel.Typed Channel.TProgress (Some "Extracting"));
   (400, Channel.Keepalive);
   (500, Channel.Malformed);
   (600, Channel.Typed Channel.TProgress (Some "Classifying"));
   (700, Channel.Typed Channel.TComplete None)]%Z.

(** A connection that fails for good once: a retry is pending. *)
Definition failedOnce : list (Z * Subscriber.Event) :=
  [(100, Subscriber.Failure true)]%Z.

(** A subscription with a timer it no longer holds the handle of. *)
Definition strayTimer : Subscriber.W :=
  Browser.mkWorld 0 [Browser.mkTimer 7 50 Browser.ReconnectCallback] 8
                  (Channel.mkVars (Some Channel.OPEN) 1 false None) [].

Definition afterCleanup : list (Z * Subscriber.Event) :=
  [(60, Subscriber.Timeout 7); (70, Subscriber.Unsubscribe)]%Z.

(** The job of [Scenario.job]: the stream opens, reports and
    completes. *)
Definition reported : list (Z * Arbiter.Event) :=
  [(100, Arbiter.Open);
   (200, Arbiter.Message (Channel.Typed Channel.TProgress (Some "Extracting")));
   (300, Arbiter.Message (Channel.Typed Channel.TComplete None))]%Z.


Definition result (d : string) : Carousel.ClassificationResult :=
  Carousel.mkResult d Carousel.CONFIDENTIAL true "".


End Cases.

(* ================================================================== *)
(** * Properties                                                       *)
(* ================================================================== *)

(** ** Facts about [JSMap] *)

Section JSMapFacts.
Context {V : Type}.
Implicit Types (m : JSMap.t V) (k : string) (v : V).

Lemma get_set_same k v m : JSMap.get k (JSMap.set k v m) = Some v.
Proof.
  unfold JSMap.get.
  induction m as [|[k' v'] m IH]; simpl.
  - now rewrite String.eqb_refl.
  - destruct (String.eqb k' k) eqn:E; simpl.
    + now rewrite String.eqb_refl.
    + now rewrite E.
Qed.

Lemma get_set_other k k' v m :
  k <> k' -> JSMap.get k (JSMap.set k' v m) = JSMap.get k m.
Proof.
  intros Hne. unfold JSMap.get.
  induction m as [|[k0 v0] m IH]; simpl.
  - destruct (String.eqb_spec k' k); [congruence | reflexivity].
  - destruct (String.eqb_spec k0 k') as [-> | Hk]; simpl.
    + destruct (String.eqb_spec k' k); [congruence | reflexivity].
    + destruct (String.eqb k0 k); [reflexivity | exact IH].
Qed.

Lemma get_delete_same k m : JSMap.get k (JSMap.delete k m) = None.
Proof.
  unfold JSMap.get, JSMap.delete.
  induction m as [|[k' v'] m IH]; simpl; [reflexivity|].
  destruct (String.eqb k' k) eqn:E; simpl; [exact IH|].
  now rewrite E.
Qed.

Lemma get_delete_other k k' m :
  k <> k' -> JSMap.get k (JSMap.delete k' m) = JSMap.get k m.
Proof.
  intros Hne. unfold JSMap.get, JSMap.delete.
  induction m as [|[k0 v0] m IH]; simpl; [reflexivity|].
  destruct (String.eqb_spec k0 k') as [-> | Hk]; simpl.
  - destruct (String.eqb_spec k' k); [congruence | exact IH].
  - destruct (String.eqb k0 k); [reflexivity | exact IH].
Qed.

Lemma has_set k k' v m :
  JSMap.has k (JSMap.set k' v m)
  = if String.eqb k' k then true else JSMap.has k m.
Proof.
  unfold JSMap.has.
  destruct (String.eqb_spec k' k) as [-> | Hne].
  - now rewrite get_set_same.
  - rewrite get_set_other; [reflexivity | congruence].
Qed.

Lemma has_delete k k' m :
  JSMap.has k (JSMap.delete k' m)
  = if String.eqb k' k then false else JSMap.has k m.
Proof.
  unfold JSMap.has.
  destruct (String.eqb_spec k' k) as [-> | Hne].
  - now rewrite get_delete_same.
  - rewrite get_delete_other; [reflexivity | congruence].
Qed.

(** An entry found under a key occurs in the map with that key. *)
Lemma get_In k v m : JSMap.get k m = Some v -> In (k, v) m.
Proof.
  unfold JSMap.get.
  destruct (find _ m) as [[k' v']|] eqn:F; [|discriminate].
  intros [= <-]. apply find_some in F as [Hin Hk]. simpl in Hk.
  apply String.eqb_eq in Hk. now subst.
Qed.

Lemma In_delete k kv m :
  In kv (JSMap.delete k m) <-> In kv m /\ fst kv <> k.
Proof.
  unfold JSMap.delete. rewrite filter_In, negb_true_iff, String.eqb_neq.
  reflexivity.
Qed.

Lemma In_set kv k v m :
  In kv (JSMap.set k v m) -> kv = (k, v) \/ In kv m.
Proof.
  induction m as [|[k' v'] m IH]; simpl.
  - intros [<- | []]. now left.
  - destruct (String.eqb k' k); simpl.
    + intros [<- | Hin]; [now left | right; now right].
    + intros [<- | Hin]; [right; now left|].
      destruct (IH Hin) as [-> | H]; [now left | right; now right].
Qed.

Lemma keys_set k v m :
  JSMap.keys (JSMap.set k v m)
  = if existsb (String.eqb k) (JSMap.keys m)
    then JSMap.keys m else (JSMap.keys m ++ [k])%list.
Proof.
  unfold JSMap.keys.
  induction m as [|[k' v'] m IH]; simpl; [reflexivity|].
  rewrite (String.eqb_sym k k').
  destruct (String.eqb_spec k' k) as [-> | Hne]; simpl; [reflexivity|].
  rewrite IH. now destruct (existsb _ _).
Qed.

Lemma NoDup_keys_set k v m :
  NoDup (JSMap.keys m) -> NoDup (JSMap.keys (JSMap.set k v m)).
Proof.
  intros Hnd. rewrite keys_set.
  destruct (existsb _ _) eqn:E; [exact Hnd|].
  apply NoDup_app; [exact Hnd | repeat constructor; intros [] | ].
  intros x Hx [Hk | []]. subst x.
  assert (existsb (String.eqb k) (JSMap.keys m) = true); [|congruence].
  apply existsb_exists. exists k. split; [exact Hx | apply String.eqb_refl].
Qed.

Lemma NoDup_keys_of_entries (entries : list (string * V)) :
  NoDup (JSMap.keys (JSMap.of_entries entries)).
Proof.
  unfold JSMap.of_entries.
  assert (G : forall m, NoDup (JSMap.keys m) ->
              NoDup (JSMap.keys
                       (fold_left (fun m kv => JSMap.set (fst kv) (snd kv) m)
                                  entries m))).
  { induction entries as [|kv entries IH]; intros m Hm; simpl; [exact Hm|].
    apply IH. now apply NoDup_keys_set. }
  apply G. constructor.
Qed.

Lemma In_of_entries (entries : list (string * V)) kv :
  In kv (JSMap.of_entries entries) -> In kv entries.
Proof.
  unfold JSMap.of_entries.
  assert (G : forall m,
              In kv (fold_left (fun m kv => JSMap.set (fst kv) (snd kv) m)
                               entries m) -> In kv m \/ In kv entries).
  { induction entries as [|e entries IH]; intros m H; simpl in *; [now left|].
    destruct (IH _ H) as [H1 | H1]; [|right; now right].
    destruct (In_set _ _ _ _ H1) as [-> | H2]; [|now left].
    right. left. now destruct e. }
  intros H. destruct (G _ H) as [[] | H1]. exact H1.
Qed.

(** Under distinct keys an entry is found by its key. *)
Lemma NoDup_keys_get k v m :
  NoDup (JSMap.keys m) -> In (k, v) m -> JSMap.get k m = Some v.
Proof.
  unfold JSMap.keys, JSMap.get.
  induction m as [|[k' v'] m IH]; simpl; [intros _ []|].
  intros Hnd [[= -> ->] | Hin].
  - now rewrite String.eqb_refl.
  - inversion Hnd as [|? ? Hnot Hnd']; subst.
    destruct (String.eqb_spec k' k) as [-> | Hne].
    + exfalso. apply Hnot. apply in_map_iff. now exists (k, v).
    + now apply IH.
Qed.

Lemma filter_keeps_NoDup {A B} (key : A -> B) (keep : A -> bool) (xs : list A) :
  NoDup (map key xs) -> NoDup (map key (filter keep xs)).
Proof.
  intros Hnd. induction xs as [|x xs IH]; simpl; [constructor|].
  inversion Hnd as [|? ? Hnot Hnd']; subst.
  destruct (keep x); simpl; [|auto]. constructor; [|auto].
  intros Hin. apply Hnot. apply in_map_iff in Hin as [y [Hy Hin]].
  apply filter_In in Hin as [Hin _]. apply in_map_iff. eauto.
Qed.

End JSMapFacts.

(** ** The registry *)

Section RegistryFacts.
Import Registry.
Implicit Types (s : State) (d : string) (c : Call) (h : list ProgressOperation).

Lemma active_runEffects (r : State * Dirty) :
  activeOperations (runEffects r) = activeOperations (fst r).
Proof.
  unfold runEffects.
  destruct (activeChanged (snd r)), (historyChanged (snd r)); reflexivity.
Qed.

Lemma history_runEffects (r : State * Dirty) :
  history (runEffects r) = history (fst r).
Proof.
  unfold runEffects.
  destruct (activeChanged (snd r)), (historyChanged (snd r)); reflexivity.
Qed.

Lemma terminalFor_inv d c :
  terminalFor d c = true ->
  (exists now, c = CompleteOperation d now)
  \/ (exists err now, c = ErrorOperation d err now).
Proof.
  destruct c; simpl; try discriminate; intros H; apply String.eqb_eq in H;
    subst; eauto.
Qed.

(** A terminal transition for an id that is not active changes nothing,
    not even the stored snapshots. *)
Lemma terminal_absent d c s :
  terminalFor d c = true -> getOperation d s = None -> dispatch c s = s.
Proof.
  intros Ht Hget. unfold getOperation in Hget.
  destruct (terminalFor_inv _ _ Ht) as [[now ->] | [err [now ->]]];
    unfold dispatch, handler, completeOperation, errorOperation;
    rewrite Hget; reflexivity.
Qed.

Lemma active_terminal d c s :
  terminalFor d c = true ->
  activeOperations (dispatch c s)
  = match getOperation d s with
    | Some _ => JSMap.delete d (activeOperations s)
    | None => activeOperations s
    end.
Proof.
  intros Ht. unfold dispatch. rewrite active_runEffects.
  unfold getOperation.
  destruct (terminalFor_inv _ _ Ht) as [[now ->] | [err [now ->]]];
    unfold handler, completeOperation, errorOperation, addToHistory;
    destruct (JSMap.get d (activeOperations s)) as [op|]; try reflexivity;
    destruct (isDuplicate d (startedAt op) (history s)); reflexivity.
Qed.

Lemma history_terminal d c s :
  terminalFor d c = true ->
  history (dispatch c s)
  = match getOperation d s with
    | Some op =>
        if isDuplicate d (startedAt op) (history s) then history s
        else match finished c op with
             | Some entry => firstn MAX_HISTORY (entry :: history s)
             | None => history s
             end
    | None => history s
    end.
Proof.
  intros Ht. unfold dispatch. rewrite history_runEffects.
  unfold getOperation.
  destruct (terminalFor_inv _ _ Ht) as [[now ->] | [err [now ->]]];
    unfold handler, completeOperation, errorOperation, addToHistory;
    destruct (JSMap.get d (activeOperations s)) as [op|]; try reflexivity;
    destruct (isDuplicate d (startedAt op) (history s)); reflexivity.
Qed.

Lemma terminal_removes d c s :
  terminalFor d c = true -> getOperation d (dispatch c s) = None.
Proof.
  intros Ht. unfold getOperation at 1. rewrite (active_terminal d c s Ht).
  destruct (getOperation d s) eqn:E; [apply get_delete_same | exact E].
Qed.

Lemma filter_firstn_le {A} (p : A -> bool) n (l : list A) :
  List.length (filter p (firstn n l)) <= List.length (filter p l).
Proof.
  revert n. induction l as [|a l IH]; intros [|n]; simpl; try lia.
  specialize (IH n). destruct (p a); simpl; lia.
Qed.

Lemma existsb_false_filter {A} (p : A -> bool) (l : list A) :
  existsb p l = false -> filter p l = [].
Proof.
  induction l as [|a l IH]; simpl; [reflexivity|].
  destruct (p a); simpl; [discriminate | exact IH].
Qed.

Lemma finished_fields c op entry :
  finished c op = Some entry ->
  documentId entry = documentId op /\ startedAt entry = startedAt op
  /\ steps entry = steps op.
Proof. destruct c; simpl; intros [= <-]; auto. Qed.

Lemma finished_terminal d c op :
  terminalFor d c = true -> exists entry, finished c op = Some entry.
Proof.
  intros Ht.
  destruct (terminalFor_inv _ _ Ht) as [[now ->] | [err [now ->]]];
    simpl; eauto.
Qed.

(** A terminal transition never adds an entry for a pair that history
    already holds. *)
Lemma terminal_pair_bound d c s started :
  terminalFor d c = true ->
  pairOccurrences d started (history (dispatch c s))
  <= Nat.max 1 (pairOccurrences d started (history s)).
Proof.
  intros Ht. rewrite (history_terminal d c s Ht).
  destruct (getOperation d s) as [op|]; [|lia].
  destruct (isDuplicate d (startedAt op) (history s)) eqn:Edup; [lia|].
  destruct (finished_terminal d c op Ht) as [entry He]. rewrite He.
  destruct (finished_fields _ _ _ He) as (Hd & Hs & _).
  unfold pairOccurrences.
  etransitivity; [apply filter_firstn_le|]. cbn [filter].
  destruct (String.eqb (documentId entry) d && Z.eqb (startedAt entry) started)
    eqn:Ematch; cbn [List.length]; [|lia].
  apply andb_true_iff in Ematch as [E1 E2].
  apply Z.eqb_eq in E2.
  assert (started = startedAt op) by congruence. subst started.
  unfold isDuplicate in Edup.
  rewrite Hs. rewrite (existsb_false_filter _ _ Edup). cbn [List.length]. lia.
Qed.

End RegistryFacts.

(** ** Terminal transitions, late progress and clearing *)

Section RegistryClaims.
Import Registry.

(** C2. [completeOperation] and [errorOperation] are idempotent: whatever
    the state, a terminal call for an id that follows a terminal call for
    the same id changes nothing (active map, history and stored snapshots
    are those left by the first call), and the two calls together never
    raise the number of history entries for a pair (id, startedAt) above
    one, unless it already was. *)
Theorem C2_terminal_idempotent (s : State) (d : string) (c1 c2 : Call) :
  terminalFor d c1 = true ->
  terminalFor d c2 = true ->
  dispatch c2 (dispatch c1 s) = dispatch c1 s
  /\ forall started,
      pairOccurrences d started (history (dispatch c2 (dispatch c1 s)))
      <= Nat.max 1 (pairOccurrences d started (history s)).
Proof.
  intros H1 H2.
  assert (E : dispatch c2 (dispatch c1 s) = dispatch c1 s).
  { apply (terminal_absent d); [exact H2 | now apply terminal_removes]. }
  split; [exact E|].
  intros started. rewrite E. now apply terminal_pair_bound.
Qed.

Lemma C2_terminal_idempotent_witness :
  terminalFor "doc-1" (CompleteOperation "doc-1" 200) = true
  /\ terminalFor "doc-1" (ErrorOperation "doc-1" "late failure" 300) = true
  /\ dispatch (ErrorOperation "doc-1" "late failure" 300)
              (dispatch (CompleteOperation "doc-1" 200) Scenario.reporting)
     = dispatch (CompleteOperation "doc-1" 200) Scenario.reporting.
Proof.
  split; [reflexivity|]. split; [reflexivity|].
  apply (C2_terminal_idempotent Scenario.reporting "doc-1"
           (CompleteOperation "doc-1" 200)
           (ErrorOperation "doc-1" "late failure" 300));
    reflexivity.
Defined.

(** C7. [addProgress] for an id that has no active entry is a silent
    no-op: the call returns, the active map and the history (entries and
    their steps) are what they were, and the id is still not active. *)
Theorem C7_late_progress_is_noop (s : State) (d message : string)
        (ty : StepType) (idNow : Z) (random : string) (now : Z) :
  getOperation d s = None ->
  let s' := dispatch (AddProgress d message ty idNow random now) s in
  activeOperations s' = activeOperations s
  /\ history s' = history s
  /\ getOperation d s' = None.
Proof.
  intros Hget. unfold getOperation in *. cbv zeta.
  unfold dispatch. rewrite active_runEffects, history_runEffects.
  unfold handler, addProgress. rewrite Hget. simpl. auto.
Qed.

Lemma C7_late_progress_is_noop_witness :
  getOperation "doc-4" Scenario.finishedDoc4 = None
  /\ activeOperations
       (dispatch (AddProgress "doc-4" "late message" TypeInfo 300 "0.125" 300)
                 Scenario.finishedDoc4)
     = activeOperations Scenario.finishedDoc4
  /\ history
       (dispatch (AddProgress "doc-4" "late message" TypeInfo 300 "0.125" 300)
                 Scenario.finishedDoc4)
     = history Scenario.finishedDoc4
  /\ getOperation "doc-4"
       (dispatch (AddProgress "doc-4" "late message" TypeInfo 300 "0.125" 300)
                 Scenario.finishedDoc4)
     = None.
Proof.
  split; [reflexivity|].
  apply (C7_late_progress_is_noop Scenario.finishedDoc4 "doc-4" "late message"
           TypeInfo 300 "0.125" 300).
  reflexivity.
Defined.

(** C10. [clearHistory] empties the history and removes both stored
    snapshots, the history one and the active one, and leaves the active
    map as it is: every id is looked up after the call as before it. *)
Theorem C10_clearHistory_keeps_active (s : State) :
  let s' := fst (clearHistory s) in
  history s' = []
  /\ classification_history (localStorage s') = None
  /\ classification_active (localStorage s') = None
  /\ activeOperations s' = activeOperations s
  /\ forall d, getOperation d s' = getOperation d s.
Proof. cbv zeta. unfold clearHistory. simpl. auto 6. Qed.

(** The render that follows rewrites the history snapshot from the emptied
    history; the active snapshot stays absent until the active map next
    changes. *)
Lemma clearHistory_rendered (s : State) :
  let s' := dispatch ClearHistory s in
  history s' = []
  /\ classification_history (localStorage s') = Some []
  /\ classification_active (localStorage s') = None
  /\ activeOperations s' = activeOperations s.
Proof. cbv zeta. unfold dispatch. simpl. auto. Qed.

End RegistryClaims.

(** ** Invariants of the registry along a run *)

Section RegistryRuns.
Import Registry.
Implicit Types (s : State) (d : string) (c : Call) (calls : list Call).

Lemma run_snoc calls c s : run (calls ++ [c]) s = dispatch c (run calls s).
Proof. unfold run. now rewrite fold_left_app. Qed.

Lemma starts_snoc d calls c :
  starts d (calls ++ [c])
  = starts d calls
    + match c with
      | StartOperation d' _ _ => if String.eqb d' d then 1 else 0
      | _ => 0
      end.
Proof.
  unfold starts. rewrite filter_app, length_app. f_equal.
  destruct c as [d' f now | | | | | ]; simpl; try reflexivity.
  now destruct (String.eqb d' d).
Qed.

(** What a call that is not a terminal transition does to the two cells. *)
Lemma dispatch_start d f now s :
  activeOperations (dispatch (StartOperation d f now) s)
  = JSMap.set d (mkOperation d f StatusActive [] now None None) (activeOperations s)
  /\ history (dispatch (StartOperation d f now) s) = history s.
Proof. unfold dispatch. now rewrite active_runEffects, history_runEffects. Qed.

Lemma dispatch_addProgress d m ty idNow random now s :
  history (dispatch (AddProgress d m ty idNow random now) s) = history s
  /\ match getOperation d s with
     | Some op =>
         exists step,
         activeOperations (dispatch (AddProgress d m ty idNow random now) s)
         = JSMap.set d (pushStep step op) (activeOperations s)
     | None =>
         activeOperations (dispatch (AddProgress d m ty idNow random now) s)
         = activeOperations s
     end.
Proof.
  unfold dispatch. rewrite active_runEffects, history_runEffects.
  unfold getOperation, handler, addProgress.
  destruct (JSMap.get d (activeOperations s)); simpl; eauto.
Qed.

Lemma dispatch_remove d s :
  activeOperations (dispatch (RemoveOperation d) s)
  = JSMap.delete d (activeOperations s)
  /\ history (dispatch (RemoveOperation d) s) = history s.
Proof. unfold dispatch. now rewrite active_runEffects, history_runEffects. Qed.

Lemma dispatch_clear s :
  activeOperations (dispatch ClearHistory s) = activeOperations s
  /\ history (dispatch ClearHistory s) = [].
Proof. unfold dispatch. now rewrite active_runEffects, history_runEffects. Qed.

Lemma terminalFor_self c :
  match c with
  | CompleteOperation d _ | ErrorOperation d _ _ => terminalFor d c = true
  | _ => True
  end.
Proof. destruct c; simpl; auto using String.eqb_refl. Qed.

(** The cap is kept by every call. *)
Lemma history_cap_step c s :
  List.length (history s) <= MAX_HISTORY ->
  List.length (history (dispatch c s)) <= MAX_HISTORY.
Proof.
  intros Hcap.
  assert (Hterm : forall d, terminalFor d c = true ->
                       List.length (history (dispatch c s)) <= MAX_HISTORY).
  { intros d Ht. rewrite (history_terminal d c s Ht).
    destruct (getOperation d s) as [op|]; [|exact Hcap].
    destruct (isDuplicate _ _ _); [exact Hcap|].
    destruct (finished c op); [|exact Hcap].
    apply firstn_le_length. }
  pose proof (terminalFor_self c) as Hself.
  destruct c.
  - now rewrite (proj2 (dispatch_start _ _ _ _)).
  - now rewrite (proj1 (dispatch_addProgress _ _ _ _ _ _ _)).
  - eapply Hterm, Hself.
  - eapply Hterm, Hself.
  - now rewrite (proj2 (dispatch_remove _ _)).
  - rewrite (proj2 (dispatch_clear _)). simpl. lia.
Qed.

Lemma history_cap_run calls s :
  List.length (history s) <= MAX_HISTORY ->
  List.length (history (run calls s)) <= MAX_HISTORY.
Proof.
  revert s. induction calls as [|c calls IH]; intros s Hcap; simpl; [exact Hcap|].
  apply IH. now apply history_cap_step.
Qed.

(** C6. Along any run of the registry from a first visit the history holds
    at most 50 entries; a terminal transition that records an entry puts
    it at the front, in front of the first 49 entries there were, so that
    a full history loses its last (oldest) entry. *)
Theorem C6_history_capped (calls : list Call) :
  let s := run calls fresh in
  List.length (history s) <= MAX_HISTORY
  /\ forall d c op entry,
      terminalFor d c = true ->
      getOperation d s = Some op ->
      isDuplicate d (startedAt op) (history s) = false ->
      finished c op = Some entry ->
      history (dispatch c s) = entry :: firstn (MAX_HISTORY - 1) (history s)
      /\ (List.length (history s) = MAX_HISTORY ->
          history (dispatch c s) = entry :: removelast (history s)).
Proof.
  cbv zeta. split.
  - apply history_cap_run. simpl. lia.
  - intros d c op entry Ht Hget Hdup Hfin.
    rewrite (history_terminal d c _ Ht), Hget, Hdup, Hfin.
    split; [reflexivity|].
    intros Hfull. rewrite removelast_firstn_len, Hfull. reflexivity.
Qed.

End RegistryRuns.

Section RegistryRunsWitnesses.
Import Registry.

Lemma C6_history_capped_witness :
  let s := run Scenario.fullThenOneMore fresh in
  List.length (history s) = MAX_HISTORY
  /\ history (dispatch (CompleteOperation "doc-51" 4000) s)
     = markCompleted 4000 Scenario.doc51 :: removelast (history s).
Proof.
  cbv zeta.
  destruct (C6_history_capped Scenario.fullThenOneMore) as [_ Hfront].
  assert (Hfull : List.length (history (run Scenario.fullThenOneMore fresh))
                  = MAX_HISTORY) by (vm_compute; reflexivity).
  split; [exact Hfull|].
  apply (Hfront "doc-51" (CompleteOperation "doc-51" 4000) Scenario.doc51
                (markCompleted 4000 Scenario.doc51)).
  - reflexivity.
  - vm_compute; reflexivity.
  - vm_compute; reflexivity.
  - reflexivity.
  - exact Hfull.
Defined.

End RegistryRunsWitnesses.

(** ** One id along a run: started, active, recorded *)

Section RegistryTracking.
Import Registry.
Implicit Types (s : State) (d : string) (c : Call) (calls : list Call).

Lemma keyed_set k op (m : JSMap.t ProgressOperation) :
  keyed m -> documentId op = k -> keyed (JSMap.set k op m).
Proof.
  unfold keyed. rewrite !Forall_forall. intros Hm Hk kv Hin.
  destruct (In_set _ _ _ _ Hin) as [-> | Hold]; [exact Hk | now apply Hm].
Qed.

Lemma keyed_delete k (m : JSMap.t ProgressOperation) :
  keyed m -> keyed (JSMap.delete k m).
Proof.
  unfold keyed. rewrite !Forall_forall. intros Hm kv Hin.
  apply In_delete in Hin as [Hin _]. now apply Hm.
Qed.

Lemma keyed_get k op (m : JSMap.t ProgressOperation) :
  keyed m -> JSMap.get k m = Some op -> documentId op = k.
Proof.
  unfold keyed. rewrite Forall_forall. intros Hm Hget.
  exact (Hm _ (get_In _ _ _ Hget)).
Qed.

Lemma keyed_step c s :
  keyed (activeOperations s) -> keyed (activeOperations (dispatch c s)).
Proof.
  intros Hk. pose proof (terminalFor_self c) as Hself.
  assert (Hterm : forall d, terminalFor d c = true ->
                       keyed (activeOperations (dispatch c s))).
  { intros d Ht. rewrite (active_terminal d c s Ht).
    destruct (getOperation d s); [now apply keyed_delete | exact Hk]. }
  destruct c as [d f now | d m ty idNow random now | d now | d err now | d | ].
  - rewrite (proj1 (dispatch_start _ _ _ _)). now apply keyed_set.
  - pose proof (proj2 (dispatch_addProgress d m ty idNow random now s)) as H.
    destruct (getOperation d s) as [op|] eqn:E.
    + destruct H as [step ->]. apply keyed_set; [exact Hk|].
      simpl. now apply (keyed_get _ _ _ Hk).
    + now rewrite H.
  - eapply Hterm, Hself.
  - eapply Hterm, Hself.
  - rewrite (proj1 (dispatch_remove _ _)). now apply keyed_delete.
  - now rewrite (proj1 (dispatch_clear _)).
Qed.

Lemma isActive_get d s :
  isActive d s = match getOperation d s with Some _ => true | None => false end.
Proof. reflexivity. Qed.

(** A terminal transition moves an id from the active map to history: it
    never raises "entries in history plus one if active". *)
Lemma terminal_balance d d' c s :
  keyed (activeOperations s) ->
  terminalFor d' c = true ->
  occurrences d (history (dispatch c s)) + Nat.b2n (isActive d (dispatch c s))
  <= occurrences d (history s) + Nat.b2n (isActive d s).
Proof.
  intros Hk Ht. unfold isActive at 1.
  rewrite (history_terminal d' c s Ht), (active_terminal d' c s Ht).
  destruct (getOperation d' s) as [op|] eqn:E; [|apply Nat.le_refl].
  rewrite has_delete.
  assert (Hop : documentId op = d') by exact (keyed_get _ _ _ Hk E).
  assert (Hact : String.eqb d' d = true -> isActive d s = true).
  { intros H. apply String.eqb_eq in H. rewrite <- H.
    rewrite isActive_get. now rewrite E. }
  destruct (isDuplicate _ _ _).
  - destruct (String.eqb d' d) eqn:Ed; [|apply Nat.le_refl].
    rewrite (Hact eq_refl). simpl. lia.
  - destruct (finished_terminal d' c op Ht) as [entry He]. rewrite He.
    destruct (finished_fields _ _ _ He) as (Hd & _ & _).
    unfold occurrences.
    pose proof (filter_firstn_le (fun o => String.eqb (documentId o) d)
                  MAX_HISTORY (entry :: history s)) as Hle.
    cbn [filter] in Hle. rewrite Hd, Hop in Hle.
    destruct (String.eqb d' d) eqn:Ed.
    + rewrite (Hact eq_refl). cbn [List.length Nat.b2n] in *. lia.
    + unfold isActive. lia.
Qed.

Lemma terminal_pairs d d' c s started :
  keyed (activeOperations s) ->
  terminalFor d' c = true ->
  pairOccurrences d started (history s) <= 1 ->
  pairOccurrences d started (history (dispatch c s)) <= 1.
Proof.
  intros Hk Ht Hone.
  destruct (String.eqb_spec d' d) as [-> | Hne].
  - pose proof (terminal_pair_bound d c s started Ht). lia.
  - rewrite (history_terminal d' c s Ht).
    destruct (getOperation d' s) as [op|] eqn:E; [|exact Hone].
    destruct (isDuplicate _ _ _); [exact Hone|].
    destruct (finished_terminal d' c op Ht) as [entry He]. rewrite He.
    destruct (finished_fields _ _ _ He) as (Hd & _ & _).
    unfold pairOccurrences in *.
    etransitivity; [apply filter_firstn_le|]. cbn [filter].
    rewrite Hd, (keyed_get _ _ _ Hk E).
    destruct (String.eqb_spec d' d); [contradiction|]. exact Hone.
Qed.

(** What is known of id [d] after the calls [calls]. *)
Definition tracked d calls s : Prop :=
  keyed (activeOperations s)
  /\ occurrences d (history s) + Nat.b2n (isActive d s) <= starts d calls
  /\ forall started, pairOccurrences d started (history s) <= 1.

Lemma tracked_step d calls c s :
  tracked d calls s -> tracked d (calls ++ [c]) (dispatch c s).
Proof.
  intros (Hk & Hbal & Hpair).
  split; [now apply keyed_step|].
  pose proof (terminalFor_self c) as Hself.
  rewrite starts_snoc.
  destruct c as [d' f now | d' m ty idNow random now | d' now | d' err now | d' | ].
  - destruct (dispatch_start d' f now s) as [Ha Hh].
    unfold isActive. rewrite Ha, Hh, has_set. split; [|exact Hpair].
    fold (isActive d s). destruct (String.eqb d' d); simpl; [|lia].
    destruct (isActive d s); simpl in *; lia.
  - destruct (dispatch_addProgress d' m ty idNow random now s) as [Hh Ha].
    rewrite Hh. split; [|exact Hpair].
    enough (isActive d (dispatch (AddProgress d' m ty idNow random now) s)
            = isActive d s) as -> by lia.
    unfold isActive. destruct (getOperation d' s) as [op|] eqn:E.
    + destruct Ha as [step ->]. rewrite has_set.
      destruct (String.eqb_spec d' d) as [-> | Hne]; [|reflexivity].
      unfold JSMap.has. unfold getOperation in E. now rewrite E.
    + now rewrite Ha.
  - split.
    + pose proof (terminal_balance d d' _ s Hk Hself). lia.
    + intros started. now apply (terminal_pairs d d').
  - split.
    + pose proof (terminal_balance d d' _ s Hk Hself). lia.
    + intros started. now apply (terminal_pairs d d').
  - destruct (dispatch_remove d' s) as [Ha Hh].
    unfold isActive. rewrite Ha, Hh, has_delete. split; [|exact Hpair].
    fold (isActive d s). destruct (String.eqb d' d); simpl; lia.
  - destruct (dispatch_clear s) as [Ha Hh].
    unfold isActive. rewrite Ha, Hh. split.
    + fold (isActive d s). unfold occurrences in *. simpl. lia.
    + intros started. unfold pairOccurrences. simpl. lia.
Qed.

Lemma tracked_run d calls : tracked d calls (run calls fresh).
Proof.
  induction calls as [|c calls IH] using rev_ind.
  - split; [constructor|]. split; [vm_compute; lia|].
    intros started. vm_compute. lia.
  - rewrite run_snoc. now apply tracked_step.
Qed.

(** One call never raises "entries in history plus one if active", unless
    it starts an id that is neither active nor in history. *)
Lemma balance_step d c s :
  keyed (activeOperations s) ->
  startsRecorded d c s = false ->
  occurrences d (history s) + Nat.b2n (isActive d s) <= 1 ->
  occurrences d (history (dispatch c s)) + Nat.b2n (isActive d (dispatch c s))
  <= 1.
Proof.
  intros Hk Hrec Hbal. pose proof (terminalFor_self c) as Hself.
  destruct c as [d' f now | d' m ty idNow random now | d' now | d' err now | d' | ].
  - destruct (dispatch_start d' f now s) as [Ha Hh].
    unfold isActive at 1. rewrite Ha, Hh, has_set. fold (isActive d s).
    cbn [startsRecorded] in Hrec.
    destruct (String.eqb d' d); [|exact Hbal].
    cbn [andb] in Hrec. apply Bool.negb_false_iff, Nat.eqb_eq in Hrec.
    rewrite Hrec. apply Nat.le_refl.
  - destruct (dispatch_addProgress d' m ty idNow random now s) as [Hh Ha].
    rewrite Hh.
    enough (isActive d (dispatch (AddProgress d' m ty idNow random now) s)
            = isActive d s) as -> by exact Hbal.
    unfold isActive. destruct (getOperation d' s) as [op|] eqn:E.
    + destruct Ha as [step ->]. rewrite has_set.
      destruct (String.eqb_spec d' d) as [-> | Hne]; [|reflexivity].
      unfold JSMap.has. unfold getOperation in E. now rewrite E.
    + now rewrite Ha.
  - pose proof (terminal_balance d d' _ s Hk Hself). lia.
  - pose proof (terminal_balance d d' _ s Hk Hself). lia.
  - destruct (dispatch_remove d' s) as [Ha Hh].
    unfold isActive at 1. rewrite Ha, Hh, has_delete. fold (isActive d s).
    destruct (String.eqb d' d); simpl; lia.
  - destruct (dispatch_clear s) as [Ha Hh].
    unfold isActive at 1. rewrite Ha, Hh. fold (isActive d s).
    unfold occurrences in *. simpl. lia.
Qed.

Lemma balance_run d calls : forall s,
  keyed (activeOperations s) ->
  neverStartsRecorded d calls s = true ->
  occurrences d (history s) + Nat.b2n (isActive d s) <= 1 ->
  occurrences d (history (run calls s)) + Nat.b2n (isActive d (run calls s))
  <= 1.
Proof.
  induction calls as [|c calls IH]; intros s Hk Hnever Hbal; [exact Hbal|].
  cbn [neverStartsRecorded] in Hnever.
  apply Bool.andb_true_iff in Hnever as [Hc Hrest].
  apply Bool.negb_true_iff in Hc.
  change (run (c :: calls) s) with (run calls (dispatch c s)).
  apply IH; [now apply keyed_step | exact Hrest | now apply balance_step].
Qed.

(** An id started at most once is never started while history holds an
    entry of it. *)
Lemma once_neverStartsRecorded d calls : forall pre s,
  tracked d pre s ->
  starts d (pre ++ calls) <= 1 ->
  neverStartsRecorded d calls s = true.
Proof.
  induction calls as [|c calls IH]; intros pre s Ht Hone; [reflexivity|].
  cbn [neverStartsRecorded]. apply Bool.andb_true_iff. split.
  - apply Bool.negb_true_iff.
    destruct c as [d' f now | | | | | ]; try reflexivity.
    cbn [startsRecorded].
    destruct (String.eqb d' d) eqn:Ed; [|reflexivity]. cbn [andb].
    apply Bool.negb_false_iff, Nat.eqb_eq.
    destruct Ht as (_ & Hbal & _).
    unfold starts in Hone. rewrite filter_app, length_app in Hone.
    cbn [filter] in Hone. rewrite Ed in Hone. cbn [List.length] in Hone.
    unfold starts in Hbal. lia.
  - apply (IH (pre ++ [c])%list); [now apply tracked_step|].
    now rewrite <- app_assoc.
Qed.

Lemma exclusive_run d calls :
  neverStartsRecorded d calls fresh = true -> exclusive d (run calls fresh).
Proof.
  intros Hnever.
  assert (Hbal : occurrences d (history (run calls fresh))
                 + Nat.b2n (isActive d (run calls fresh)) <= 1).
  { apply balance_run; [constructor | exact Hnever | vm_compute; lia]. }
  unfold exclusive. split.
  - intros Hact. rewrite Hact in Hbal. simpl in Hbal. lia.
  - lia.
Qed.

Lemma start_recorded_breaks d f now s :
  0 < occurrences d (history s) ->
  ~ exclusive d (dispatch (StartOperation d f now) s).
Proof.
  intros Hrec [Hboth _].
  destruct (dispatch_start d f now s) as [Ha Hh].
  rewrite Hh in Hboth. unfold isActive in Hboth.
  rewrite Ha, has_set, String.eqb_refl in Hboth.
  specialize (Hboth eq_refl). lia.
Qed.

Lemma neverStartsRecorded_snoc d calls c : forall s,
  neverStartsRecorded d (calls ++ [c]) s
  = neverStartsRecorded d calls s && negb (startsRecorded d c (run calls s)).
Proof.
  induction calls as [|a calls IH]; intros s.
  - cbn. now rewrite Bool.andb_true_r.
  - change (run (a :: calls) s) with (run calls (dispatch a s)).
    cbn [app neverStartsRecorded]. now rewrite IH, Bool.andb_assoc.
Qed.

Lemma neverStartsRecorded_prefix d pre post : forall s,
  neverStartsRecorded d (pre ++ post) s = true ->
  neverStartsRecorded d pre s = true.
Proof.
  induction pre as [|a pre IH]; intros s; [reflexivity|].
  cbn [app neverStartsRecorded]. intros H.
  apply Bool.andb_true_iff in H as [H1 H2].
  now rewrite H1, (IH _ H2).
Qed.

(** C3, as the code has it.  Along any run from a first visit, history
    never holds two entries for the same pair (id, startedAt).  As long as
    no call starts an id while history holds an entry of that id, the id
    is never active and in history at once and never twice in history:
    this covers an id started once, and also one started again while it is
    active, after it was removed or after history was cleared.  A start
    for an id that history holds makes the id active and in history at
    once, in every reachable state; so all the states of a run have the
    property for an id exactly when no call of the run starts the id
    while history holds an entry of it. *)
Theorem C3_one_entry_per_run (calls : list Call) (d : string) :
  let s := run calls fresh in
  (forall started, pairOccurrences d started (history s) <= 1)
  /\ (neverStartsRecorded d calls fresh = true -> exclusive d s)
  /\ (starts d calls <= 1 -> neverStartsRecorded d calls fresh = true)
  /\ (forall f now, 0 < occurrences d (history s) ->
      ~ exclusive d (dispatch (StartOperation d f now) s))
  /\ ((forall pre post, calls = (pre ++ post)%list ->
                        exclusive d (run pre fresh))
      <-> neverStartsRecorded d calls fresh = true).
Proof.
  cbv zeta. destruct (tracked_run d calls) as (_ & _ & Hpair).
  split; [exact Hpair|]. split; [apply exclusive_run|]. split; [|split].
  - intros Hone. apply (once_neverStartsRecorded d calls [] fresh).
    + exact (tracked_run d []).
    + exact Hone.
  - intros f now. apply start_recorded_breaks.
  - split.
    + clear Hpair. induction calls as [|c calls IH] using rev_ind;
        [reflexivity|]. intros Hall.
      rewrite neverStartsRecorded_snoc. apply Bool.andb_true_iff. split.
      * apply IH. intros pre post ->.
        apply (Hall pre (post ++ [c])%list). now rewrite app_assoc.
      * apply Bool.negb_true_iff.
        destruct (startsRecorded d c (run calls fresh)) eqn:E; [|reflexivity].
        exfalso. destruct c as [d' f now | | | | | ]; try discriminate.
        cbn [startsRecorded] in E. apply Bool.andb_true_iff in E as [Ed Eo].
        apply String.eqb_eq in Ed. subst d'.
        apply Bool.negb_true_iff, Nat.eqb_neq in Eo.
        apply (start_recorded_breaks d f now (run calls fresh)); [lia|].
        rewrite <- run_snoc. apply (Hall _ []). now rewrite app_nil_r.
    + intros Hnever pre post ->. apply exclusive_run.
      exact (neverStartsRecorded_prefix d pre post fresh Hnever).
Qed.

Lemma C3_one_entry_per_run_witness :
  starts "doc-2" Scenario.startedOver = 2
  /\ neverStartsRecorded "doc-2" Scenario.startedOver fresh = true
  /\ exclusive "doc-2" (run Scenario.startedOver fresh)
  /\ neverStartsRecorded "doc-2" Scenario.removedThenStarted fresh = true
  /\ exclusive "doc-2" (run Scenario.removedThenStarted fresh).
Proof.
  assert (H1 : neverStartsRecorded "doc-2" Scenario.startedOver fresh = true)
    by (vm_compute; reflexivity).
  assert (H2 : neverStartsRecorded "doc-2" Scenario.removedThenStarted fresh
               = true) by (vm_compute; reflexivity).
  split; [vm_compute; reflexivity|]. split; [exact H1|]. split; [|split].
  - exact (proj1 (proj2 (C3_one_entry_per_run Scenario.startedOver "doc-2"))
             H1).
  - exact H2.
  - exact (proj1 (proj2 (C3_one_entry_per_run Scenario.removedThenStarted
                           "doc-2")) H2).
Defined.

(** The property as the specification words it fails once an id is started
    again: "doc-1" is active while its first run is in history, and after
    the second run has finished it is in history twice. *)
Lemma C3_counterexample :
  ~ exclusive "doc-1" (run Scenario.restarted fresh)
  /\ ~ exclusive "doc-1" (run Scenario.restartedAndFinished fresh).
Proof.
  split; intros [Hboth Honce].
  - specialize (Hboth eq_refl). vm_compute in Hboth. discriminate.
  - vm_compute in Honce. lia.
Qed.

End RegistryTracking.

(** ** Reload: stale entries become interrupted *)

Section Reload.
Import Registry.
Implicit Types (m : JSMap.t ProgressOperation) (l : list ProgressOperation).




(** The map restored from storage has distinct keys, each entry under its
    own id. *)
Lemma loadActive_keys (st : Storage) : NoDup (JSMap.keys (loadActive st)).
Proof.
  unfold loadActive. destruct (classification_active st).
  - apply NoDup_keys_of_entries.
  - constructor.
Qed.

Lemma loadActive_keyed (st : Storage) : keyed (loadActive st).
Proof.
  unfold loadActive, keyed. destruct (classification_active st) as [parsed|];
    [|constructor].
  apply Forall_forall. intros kv Hin.
  apply In_of_entries, in_map_iff in Hin as [op [<- _]]. reflexivity.
Qed.


Lemma active_mount now st :
  activeOperations (mount now st) = dropFrom now (JSMap.values (loadActive st)) (loadActive st).
Proof.
  unfold mount. rewrite active_runEffects. unfold staleEffect. simpl.
  now destruct (staleOps now (loadActive st)).
Qed.

Lemma history_mount now st :
  history (mount now st)
  = match staleOps now (loadActive st) with
    | [] => loadHistory st
    | stale => firstn MAX_HISTORY (stale ++ loadHistory st)
    end.
Proof.
  unfold mount. rewrite history_runEffects. unfold staleEffect. simpl.
  now destruct (staleOps now (loadActive st)).
Qed.




End Reload.

(** ** The event-stream client: bounded reconnection *)

Section Reconnection.
Import Browser Channel Subscriber.

(** What holds of a subscription after any sequence of events. *)
Record Inv (urlOk : bool) (w : W) : Prop := mkInv {
  inv_attempts : reconnectAttempts (client w) = retriesSinceOpen (trace w);
  inv_bound : reconnectAttempts (client w) <= 3;
  inv_delay : forallb retryDelayOk (trace w) = true;
  inv_closed : isManuallyCloseD (client w) = true -> eventSource (client w) = None;
  inv_tried : retriesSinceOpen (trace w) <= S (attemptsSinceOpen (trace w));
  inv_live : live (client w) = true ->
             retriesSinceOpen (trace w) <= attemptsSinceOpen (trace w);
  inv_lost : count isConnectionLost (trace w) = 0
             \/ (isManuallyCloseD (client w) = true /\ gaveUp (trace w));
  inv_url : urlOk = false -> timers w = [] /\ eventSource (client w) = None;
  inv_errors : count isErrorCall (trace w) = 0
               \/ (count isErrorCall (trace w) = 1
                   /\ (isManuallyCloseD (client w) = true \/ urlOk = false))
}.

Lemma gaveUp_cleanup tr : gaveUp tr -> gaveUp (Cleanup :: tr).
Proof.
  intros (post & pre & -> & Hq & H1 & H2 & H3).
  exists (Cleanup :: post), pre. auto.
Qed.

Lemma Inv_cleanup urlOk (w : W) : Inv urlOk w -> Inv urlOk (cleanup w).
Proof.
  intros [H1 H2 H3 H4 H5 H6 H7 H8 H9].
  destruct w as [clk tms nh [es att man rt] tr]. cbn in *.
  assert (Htr : trace (cleanup (mkWorld clk tms nh (mkVars es att man rt) tr))
                = match es with
                  | Some _ => Close :: Cleanup :: tr
                  | None => Cleanup :: tr
                  end).
  { destruct es, rt; reflexivity. }
  assert (Hcl : client (cleanup (mkWorld clk tms nh (mkVars es att man rt) tr))
                = mkVars None att true None).
  { destruct es, rt; reflexivity. }
  assert (Htm : tms = [] ->
                timers (cleanup (mkWorld clk tms nh (mkVars es att man rt) tr)) = []).
  { intros ->. destruct es, rt; reflexivity. }
  constructor; rewrite ?Htr, ?Hcl; cbn.
  - destruct es; exact H1.
  - exact H2.
  - destruct es; exact H3.
  - reflexivity.
  - destruct es; exact H5.
  - discriminate.
  - destruct H7 as [H7 | [Hm H7]].
    + left. destruct es; exact H7.
    + right. split; [reflexivity|]. rewrite (H4 Hm). now apply gaveUp_cleanup.
  - intros Hu. destruct (H8 Hu) as [Ht _]. split; [now apply Htm | reflexivity].
  - destruct H9 as [H9 | [H9 _]]; [left | right; split; [|now left]];
      destruct es; exact H9.
Qed.

Lemma Inv_subscribe urlOk now : Inv urlOk (subscribe urlOk now).
Proof.
  destruct urlOk; constructor; cbn; auto; try lia; try discriminate.
Qed.

Lemma Inv_reconnectCallback (w : W) :
  Inv true w -> Inv true (reconnectCallback true w).
Proof.
  intros [H1 H2 H3 H4 H5 H6 H7 H8 H9].
  destruct w as [clk tms nh [es att man rt] tr]. cbn in *.
  destruct man.
  - rewrite (H4 eq_refl) in *. cbn. constructor; auto.
  - destruct H7 as [H7 | [? _]]; [|discriminate].
    destruct H9 as [H9 | [_ [? | ?]]]; try discriminate.
    destruct es as [rs|]; cbn; constructor; cbn; auto; try lia;
      try discriminate.
Qed.

Lemma Inv_withClock urlOk t (w : W) : Inv urlOk w -> Inv urlOk (withClock t w).
Proof. intros []. now destruct w. Qed.

Lemma Inv_clearTimeout urlOk h (w : W) :
  Inv urlOk w -> Inv urlOk (clearTimeout h w).
Proof.
  intros [H1 H2 H3 H4 H5 H6 H7 H8 H9]. destruct w. constructor; auto.
  intros Hu. destruct (H8 Hu) as [Ht He]. cbn in *. now rewrite Ht.
Qed.

(** A source that can still deliver events: the URL was accepted, nothing
    was cleaned up and no error was reported. *)
Lemma Inv_alive urlOk (w : W) :
  Inv urlOk w -> eventSource (client w) <> None ->
  urlOk = true
  /\ isManuallyCloseD (client w) = false
  /\ count isConnectionLost (trace w) = 0
  /\ count isErrorCall (trace w) = 0.
Proof.
  intros [H1 H2 H3 H4 H5 H6 H7 H8 H9] Hes.
  assert (Hu : urlOk = true).
  { destruct urlOk; [reflexivity|]. now destruct (H8 eq_refl). }
  assert (Hm : isManuallyCloseD (client w) = false).
  { destruct (isManuallyCloseD (client w)); [|reflexivity].
    now specialize (H4 eq_refl). }
  repeat split; auto.
  - destruct H7 as [? | [? _]]; congruence.
  - destruct H9 as [? | [_ [? | ?]]]; congruence.
Qed.

Lemma Inv_deliverOpen urlOk (w w' : W) :
  Inv urlOk w -> deliverOpen getVars setVars w = Some w' -> Inv urlOk w'.
Proof.
  intros HI. unfold deliverOpen, Channel.vars, getVars.
  destruct (eventSource (client w)) as [[| |]|] eqn:Ees; try discriminate.
  intros [= <-].
  destruct (Inv_alive urlOk w HI) as (Hu & Hm & Hl & He); [congruence|].
  destruct HI as [H1 H2 H3 H4 H5 H6 H7 H8 H9].
  destruct w as [clk tms nh [es att man rt] tr]. cbn in *. subst.
  constructor; cbn; auto; try lia; try discriminate.
Qed.

(** Logging a callback on a source that can still deliver events. *)
Lemma Inv_log_callback urlOk a (w : W) :
  Inv urlOk w -> eventSource (client w) <> None ->
  match a with OnProgress _ | OnComplete => True | _ => False end ->
  Inv urlOk (log a w).
Proof.
  intros HI Hes Hcb.
  destruct (Inv_alive urlOk w HI Hes) as (Hu & Hm & Hl & He).
  destruct HI as [H1 H2 H3 H4 H5 H6 H7 H8 H9].
  destruct w as [clk tms nh v tr]. unfold count in *. cbn in *.
  destruct a; try contradiction; constructor; cbn; auto.
Qed.

Lemma Inv_server_error urlOk (w : W) :
  Inv urlOk w -> eventSource (client w) <> None ->
  Inv urlOk (cleanup (log (OnError (Some serverErrorMessage)) w)).
Proof.
  intros HI Hes.
  destruct (Inv_alive urlOk w HI Hes) as (Hu & Hm & Hl & He).
  destruct HI as [H1 H2 H3 H4 H5 H6 H7 H8 H9].
  destruct w as [clk tms nh [es att man rt] tr]. cbn in *. subst.
  destruct es as [rs|]; [|congruence].
  unfold count in *.
  destruct rt; cbn; constructor; cbn; auto; try discriminate.
  all: right; rewrite He; auto.
Qed.

Lemma Inv_deliverMessage urlOk f (w w' : W) :
  Inv urlOk w ->
  deliverMessage getVars setVars onProgress onComplete onError f w = Some w' ->
  Inv urlOk w'.
Proof.
  intros HI. unfold deliverMessage.
  destruct (eventSource (Channel.vars getVars w)) as [[| |]|] eqn:Ees;
    try discriminate.
  intros [= <-].
  assert (Hes : eventSource (client w) <> None).
  { unfold Channel.vars, getVars in Ees. congruence. }
  destruct f as [| |[| | | |] [m|]]; try exact HI; cbn [Channel.onmessage].
  - now apply (Inv_log_callback urlOk (OnProgress m)).
  - now apply Inv_cleanup, (Inv_log_callback urlOk OnComplete).
  - now apply Inv_cleanup, (Inv_log_callback urlOk OnComplete).
  - now apply Inv_server_error.
  - now apply Inv_server_error.
Qed.

Lemma Inv_deliverError urlOk fatal (w w' : W) :
  Inv urlOk w ->
  deliverError getVars setVars onError fatal w = Some w' ->
  Inv urlOk w'.
Proof.
  intros HI Hd.
  assert (Hes : eventSource (client w) <> None).
  { unfold deliverError, Channel.vars, getVars in Hd.
    destruct (eventSource (client w)); [discriminate | congruence]. }
  destruct (Inv_alive urlOk w HI Hes) as (Hu & Hm & Hl & He).
  destruct HI as [H1 H2 H3 H4 H5 H6 H7 H8 H9]. clear H7 H8 H9.
  destruct w as [clk tms nh [es att man rt] tr]. cbn in *. subst urlOk man.
  unfold deliverError, count in *. cbn in Hd. revert Hd.
  destruct es as [[| |]|]; try discriminate; intros [= <-];
    specialize (H6 eq_refl);
    destruct fatal; cbn; try (constructor; cbn; auto; discriminate).
  all: destruct att as [|[|[|[|att]]]]; [| | | |lia]; destruct rt; cbn.
  all: try (constructor; cbn; rewrite <- ?H1; auto; try lia; discriminate).
  all: constructor; cbn; rewrite <- ?H1, ?He; auto; try lia; try discriminate.
  all: right; split; [reflexivity|].
  all: exists [], tr; unfold maxReconnectAttempts; cbn; repeat split; auto; lia.
Qed.

Lemma Inv_fire urlOk h (w w' : W) :
  Inv urlOk w -> fire urlOk h w = Some w' -> Inv urlOk w'.
Proof.
  intros HI. unfold fire.
  destruct (findTimer h w) as [tm|] eqn:Ef; [|discriminate].
  destruct (due tm <=? clock w)%Z; [|discriminate].
  intros [= <-].
  destruct urlOk.
  - destruct (callback tm);
      [apply Inv_reconnectCallback| | |]; now apply Inv_clearTimeout.
  - destruct (inv_url _ _ HI eq_refl) as [Ht _].
    unfold findTimer in Ef. rewrite Ht in Ef. discriminate.
Qed.

Lemma Inv_step urlOk t e (w w' : W) :
  Inv urlOk w -> step urlOk t e w = Some w' -> Inv urlOk w'.
Proof.
  intros HI. unfold step. destruct (t <? clock w)%Z; [discriminate|].
  apply (Inv_withClock urlOk t) in HI.
  destruct e.
  - now apply Inv_deliverOpen.
  - now apply Inv_deliverMessage.
  - now apply Inv_deliverError.
  - now apply Inv_fire.
  - intros [= <-]. now apply Inv_cleanup.
Qed.

Lemma Inv_run urlOk evs (w w' : W) :
  Inv urlOk w -> run urlOk evs w = Some w' -> Inv urlOk w'.
Proof.
  revert w. induction evs as [|[t e] evs IH]; intros w HI; simpl.
  - now intros [= <-].
  - destruct (step urlOk t e w) as [w1|] eqn:E; [|discriminate].
    apply IH. now apply (Inv_step urlOk t e w).
Qed.

Lemma gaveUp_once tr : gaveUp tr -> count isConnectionLost tr = 1.
Proof.
  intros (post & pre & -> & Hq & Hc & _).
  unfold count in *. rewrite filter_app, length_app. cbn.
  rewrite Hc.
  assert (filter isConnectionLost post = []) as ->; [|reflexivity].
  induction post as [|a post IH]; [reflexivity|].
  cbn in Hq. apply andb_true_iff in Hq as [Ha Hq].
  destruct a; try discriminate. cbn. now apply IH.
Qed.

(** A connection that fails for good either schedules a retry two seconds
    ahead or, once three retries have been spent, reports the loss and
    cleans up. *)
Lemma failure_outcome urlOk t (w w' : W) :
  Inv urlOk w ->
  step urlOk t (Failure true) w = Some w' ->
  if (retriesSinceOpen (trace w) <? maxReconnectAttempts)%nat
  then trace w' = SetTimeout ReconnectCallback 2000 :: trace w
       /\ timers w'
          = (timers w ++ [mkTimer (nextHandle w) (t + 2000) ReconnectCallback])%list
  else trace w'
       = Close :: Cleanup :: OnError (Some connectionLostMessage) :: trace w.
Proof.
  intros HI. unfold step. destruct (t <? clock w)%Z; [discriminate|].
  intros Hd.
  assert (Hes : eventSource (client w) <> None).
  { unfold deliverError, Channel.vars, getVars in Hd. destruct w as [? ? ? v ?].
    cbn in *. destruct (eventSource v); [discriminate | congruence]. }
  destruct (Inv_alive urlOk w HI Hes) as (Hu & Hm & Hl & He).
  destruct HI as [H1 H2 H3 H4 H5 H6 H7 H8 H9]. clear H7 H8 H9.
  destruct w as [clk tms nh [es att man rt] tr]. cbn in *. subst urlOk man.
  rewrite <- H1. unfold deliverError in Hd. cbn in Hd. revert Hd.
  destruct es as [[| |]|]; try discriminate; intros [= <-].
  all: destruct att as [|[|[|[|att]]]]; [| | | |lia]; destruct rt; cbn; auto.
Qed.

(** C4. Whatever the browser delivers after [subscribeToProgress]: at most
    three retries are scheduled since the connection last opened, each
    with a delay of 2000 ms; the error callback is invoked at most once;
    and when the "connection lost" error has been reported, it was
    reported after three retries had been scheduled and three connections
    attempted since the last open, it was followed at once by [cleanup]
    closing the transport, and nothing but further [cleanup] calls
    happened afterwards (no connection, no retry, no callback).  A
    connection that fails for good schedules a retry due 2000 ms later
    while fewer than three were scheduled, and otherwise reports the loss
    and cleans up. *)
Theorem C4_bounded_reconnection (urlOk : bool) (now : Z)
        (evs : list (Z * Event)) (w : W) :
  run urlOk evs (subscribe urlOk now) = Some w ->
  retriesSinceOpen (trace w) <= maxReconnectAttempts
  /\ forallb retryDelayOk (trace w) = true
  /\ count isErrorCall (trace w) <= 1
  /\ (count isConnectionLost (trace w) = 1 -> gaveUp (trace w))
  /\ forall t w',
      step urlOk t (Failure true) w = Some w' ->
      if (retriesSinceOpen (trace w) <? maxReconnectAttempts)%nat
      then trace w' = SetTimeout ReconnectCallback 2000 :: trace w
           /\ timers w'
              = (timers w
                 ++ [mkTimer (nextHandle w) (t + 2000) ReconnectCallback])%list
      else trace w'
           = Close :: Cleanup :: OnError (Some connectionLostMessage) :: trace w.
Proof.
  intros Hrun.
  pose proof (Inv_run urlOk evs _ _ (Inv_subscribe urlOk now) Hrun) as HI.
  destruct HI as [H1 H2 H3 H4 H5 H6 H7 H8 H9] eqn:E. clear E.
  split; [unfold maxReconnectAttempts; lia|]. split; [exact H3|].
  split; [destruct H9 as [-> | [-> _]]; lia|].
  split.
  - intros Hone. destruct H7 as [H7 | [_ H7]]; [lia | exact H7].
  - intros t w'. apply failure_outcome.
    exact (mkInv _ _ H1 H2 H3 H4 H5 H6 H7 H8 H9).
Qed.

Lemma C4_bounded_reconnection_witness :
  exists w0 w,
    run true (firstn 6 Scenario.dropped) (subscribe true 0) = Some w0
    /\ step true 6400 (Failure true) w0 = Some w
    /\ run true Scenario.dropped (subscribe true 0) = Some w
    /\ trace w = Close :: Cleanup :: OnError (Some connectionLostMessage) :: trace w0
    /\ count isErrorCall (trace w) = 1
    /\ gaveUp (trace w).
Proof.
  let r0 := eval vm_compute in
              (run true (firstn 6 Scenario.dropped) (subscribe true 0)) in
  let r := eval vm_compute in (run true Scenario.dropped (subscribe true 0)) in
  match r0 with
  | Some ?w0 =>
      match r with
      | Some ?w =>
          exists w0, w;
          assert (H0 : run true (firstn 6 Scenario.dropped) (subscribe true 0)
                       = Some w0) by (vm_compute; reflexivity);
          assert (H1 : step true 6400 (Failure true) w0 = Some w)
            by (vm_compute; reflexivity);
          assert (H2 : run true Scenario.dropped (subscribe true 0) = Some w)
            by (vm_compute; reflexivity);
          pose proof (C4_bounded_reconnection true 0 (firstn 6 Scenario.dropped)
                        w0 H0) as (_ & _ & _ & _ & Hfail);
          pose proof (C4_bounded_reconnection true 0 Scenario.dropped w H2)
            as (_ & _ & _ & Hgave & _);
          specialize (Hfail 6400%Z w H1)
      end
  end.
  repeat (split; [assumption|]).
  split; [reflexivity|]. apply Hgave. reflexivity.
Defined.

End Reconnection.

(** ** The completion arbiter *)

Section Arbitration.
Import Browser Channel Arbiter.
Local Open Scope nat_scope.

Implicit Types (w : W).

Ltac open_world w :=
  destruct w as [clk tms nh [d reg done ct st ph [es att man rt] rc] tr];
  cbn [client clock timers nextHandle trace docId registry isCompleted
       completionTimer cleanupTimer phase subscription randomCalls] in *.

(** [unsubscribe] touches the subscription, its timer and the trace only. *)
Lemma unsubscribe_frame w :
  registry (client (unsubscribe w)) = registry (client w)
  /\ isCompleted (client (unsubscribe w)) = isCompleted (client w)
  /\ completionTimer (client (unsubscribe w)) = completionTimer (client w)
  /\ cleanupTimer (client (unsubscribe w)) = cleanupTimer (client w)
  /\ docId (client (unsubscribe w)) = docId (client w)
  /\ clock (unsubscribe w) = clock w.
Proof. open_world w. destruct es, rt; cbn; auto 7. Qed.

Lemma onComplete_settles w :
  isCompleted (client w) = false ->
  settledWith (Registry.CompleteOperation (docId (client w)) (clock w))
              w (onComplete w).
Proof.
  open_world w. intros ->. unfold onComplete, settledWith. cbn.
  destruct ct, st; cbn; auto.
Qed.

Lemma onError_settles err w :
  isCompleted (client w) = false ->
  settledWith (Registry.ErrorOperation (docId (client w))
                                       (orConnectionError err) (clock w))
              w (onError err w).
Proof.
  open_world w. intros ->. unfold onError, settledWith. cbn.
  destruct es, rt, ct, st; cbn; auto.
Qed.

Lemma requestFailure_settles m w :
  isCompleted (client w) = false ->
  settledWith (Registry.ErrorOperation (docId (client w)) m (clock w))
              w (requestFailure m w).
Proof.
  open_world w. intros ->. unfold requestFailure, settledWith. cbn.
  destruct es, rt, ct, st; cbn; auto.
Qed.

Lemma completionFallback_settles w :
  isCompleted (client w) = false ->
  settledWith (Registry.CompleteOperation (docId (client w)) (clock w))
              w (completionFallback w).
Proof.
  open_world w. intros ->. unfold completionFallback, settledWith. cbn.
  destruct es, rt; cbn; auto.
Qed.

Lemma safetyCleanup_settles w :
  isCompleted (client w) = false ->
  settledWith (Registry.CompleteOperation (docId (client w)) (clock w))
              w (safetyCleanup w).
Proof.
  open_world w. intros ->. unfold safetyCleanup, settledWith. cbn.
  destruct es, rt, ct; cbn; auto.
Qed.

Lemma requestSuccess_arms w :
  untouched w (requestSuccess w)
  /\ timers (requestSuccess w)
     = (timers w
        ++ [mkTimer (nextHandle w) (clock w + 2000) CompletionFallback;
            mkTimer (S (nextHandle w)) (clock w + 5000) SafetyCleanup])%list
  /\ completionTimer (client (requestSuccess w)) = Some (nextHandle w)
  /\ cleanupTimer (client (requestSuccess w)) = Some (S (nextHandle w)).
Proof.
  open_world w. unfold requestSuccess, untouched. cbn.
  rewrite <- app_assoc. auto.
Qed.

Lemma settled_signal_untouched sg w :
  isCompleted (client w) = true -> untouched w (signal sg w).
Proof.
  open_world w. intros ->. unfold untouched.
  destruct sg; cbn; auto.
  unfold requestFailure. cbn. destruct es, rt, ct, st; cbn; auto.
Qed.

Lemma settled_timers_untouched w :
  isCompleted (client w) = true ->
  untouched w (completionFallback w) /\ untouched w (safetyCleanup w).
Proof.
  open_world w. intros ->. unfold untouched, completionFallback, safetyCleanup.
  cbn. destruct es, rt, ct; cbn; auto.
Qed.


(** *** Who owns the pending timers *)

(** Before the request has returned no fallback timer exists; afterwards
    every pending fallback timer is the one whose handle the closure
    holds. *)
Record Owned (w : W) : Prop := mkOwned {
  owned_none : phase (client w) <> Returned -> armed w = [];
  owned_completion :
    forall tm, In tm (timers w) -> callback tm = CompletionFallback ->
               completionTimer (client w) = Some (handle tm);
  owned_cleanup :
    forall tm, In tm (timers w) -> callback tm = SafetyCleanup ->
               cleanupTimer (client w) = Some (handle tm);
  owned_fresh :
    forall h, reconnectTimer (subscription (client w)) = Some h ->
              h < nextHandle w
}.

Lemma filter_nil_iff {A} (p : A -> bool) (l : list A) :
  filter p l = [] <-> forall x, In x l -> p x = false.
Proof.
  induction l as [|a l IH]; cbn.
  - split; [intros _ x [] | reflexivity].
  - destruct (p a) eqn:E; split.
    + discriminate.
    + intros H. specialize (H a (or_introl eq_refl)). congruence.
    + intros H x [<- | Hin]; [exact E | now apply IH].
    + intros H. apply IH. intros x Hin. apply H. now right.
Qed.

Lemma armed_nil w :
  armed w = [] <->
  forall tm, In tm (timers w) ->
             callback tm <> CompletionFallback /\ callback tm <> SafetyCleanup.
Proof.
  unfold armed, pending. split.
  - intros H tm Hin. apply app_eq_nil in H as [H1 H2].
    pose proof (proj1 (filter_nil_iff _ _) H1 tm Hin) as P1.
    pose proof (proj1 (filter_nil_iff _ _) H2 tm Hin) as P2.
    cbn in P1, P2. destruct (callback tm); split; congruence.
  - intros H.
    assert (E1 : forall k, k = CompletionFallback \/ k = SafetyCleanup ->
                      pending k w = []).
    { intros k Hk. apply filter_nil_iff. intros tm Hin.
      destruct (H tm Hin), Hk; subst k; destruct (callback tm); congruence. }
    unfold pending in E1.
    rewrite (E1 CompletionFallback), (E1 SafetyCleanup); auto.
Qed.

(** [w'] has no timer that [w] had not, save retries of the stream, and
    the closure holds the same handles. *)
Record Shrinks (w w' : W) : Prop := mkShrinks {
  shrinks_timers :
    forall tm, In tm (timers w') ->
               In tm (timers w) \/ callback tm = ReconnectCallback;
  shrinks_completion : completionTimer (client w') = completionTimer (client w);
  shrinks_cleanup : cleanupTimer (client w') = cleanupTimer (client w);
  shrinks_phase : phase (client w') <> Returned -> phase (client w) <> Returned;
  shrinks_handles : nextHandle w <= nextHandle w';
  shrinks_retry :
    forall h, reconnectTimer (subscription (client w')) = Some h ->
              reconnectTimer (subscription (client w)) = Some h
              \/ nextHandle w <= h < nextHandle w'
}.

Lemma Shrinks_refl w : Shrinks w w.
Proof. constructor; auto. Qed.

Lemma Shrinks_trans w1 w2 w3 : Shrinks w1 w2 -> Shrinks w2 w3 -> Shrinks w1 w3.
Proof.
  intros [A1 A2 A3 A4 A5 A6] [B1 B2 B3 B4 B5 B6].
  constructor; try congruence; auto.
  - intros tm H. destruct (B1 tm H) as [H2 | H2]; auto.
  - lia.
  - intros h H. destruct (B6 h H) as [H2 | H2]; [|right; lia].
    destruct (A6 h H2) as [H3 | H3]; [now left | right; lia].
Qed.

Lemma Owned_Shrinks w w' : Owned w -> Shrinks w w' -> Owned w'.
Proof.
  intros [O1 O2 O3 O4] [S1 S2 S3 S4 S5 S6]. constructor.
  4:{ intros h H. destruct (S6 h H) as [H1 | H1]; [|lia].
      specialize (O4 h H1). lia. }
  - intros Hp. apply armed_nil. intros tm Hin.
    pose proof (proj1 (armed_nil w) (O1 (S4 Hp))) as Hnil.
    destruct (S1 tm Hin) as [H | H]; [now apply Hnil|].
    rewrite H. split; discriminate.
  - intros tm Hin Hk. rewrite S2. destruct (S1 tm Hin) as [H | H]; [auto|].
    congruence.
  - intros tm Hin Hk. rewrite S3. destruct (S1 tm Hin) as [H | H]; [auto|].
    congruence.
Qed.

Lemma armed_Shrinks w w' : armed w = [] -> Shrinks w w' -> armed w' = [].
Proof.
  intros Ha [S1 _ _ _ _ _]. apply armed_nil. intros tm Hin.
  destruct (S1 tm Hin) as [H | H]; [now apply (proj1 (armed_nil w) Ha)|].
  rewrite H. split; discriminate.
Qed.

Ltac shrink_timers :=
  let tm := fresh "tm" in
  let H := fresh "H" in
  intros tm H;
  repeat (apply filter_In in H as [H _]);
  try (apply in_app_or in H as [H | [<- | []]]);
  auto.

Ltac by_cases :=
  constructor; cbn; auto; try congruence; try discriminate;
  first [ shrink_timers; fail
        | let h := fresh "h" in intros h [= <-]; right; lia ].

Lemma Shrinks_unsubscribe w : Shrinks w (unsubscribe w).
Proof.
  open_world w. destruct es, rt; by_cases.
Qed.

Lemma Shrinks_clearIfSet h w : Shrinks w (clearIfSet h w).
Proof.
  open_world w. destruct h; by_cases.
Qed.

Lemma Shrinks_clearTimeout h w : Shrinks w (clearTimeout h w).
Proof. open_world w. by_cases. Qed.

Lemma Shrinks_withClock t w : Shrinks w (withClock t w).
Proof. open_world w. by_cases. Qed.

Lemma Shrinks_call c w : Shrinks w (call c w).
Proof. open_world w. by_cases. Qed.

Lemma Shrinks_setCompleted b w : Shrinks w (upd (setCompleted b) w).
Proof. open_world w. by_cases. Qed.

(** *** Handles of the timer table *)

Lemma handlesOk_filter p l nh : handlesOk l nh -> handlesOk (filter p l) nh.
Proof.
  intros [H1 H2]. split; [now apply filter_keeps_NoDup|].
  rewrite Forall_forall in *. intros tm Hin.
  apply filter_In in Hin as [Hin _]. auto.
Qed.

Lemma handlesOk_snoc l nh due k :
  handlesOk l nh -> handlesOk (l ++ [mkTimer nh due k]) (S nh).
Proof.
  intros [H1 H2]. rewrite Forall_forall in H2. split.
  - rewrite map_app. apply NoDup_app; [exact H1 | repeat constructor; intros [] |].
    intros x Hx [<- | []]. apply in_map_iff in Hx as [tm [Hh Hin]].
    specialize (H2 tm Hin). cbn in Hh. lia.
  - apply Forall_forall. intros tm Hin.
    apply in_app_or in Hin as [Hin | [<- | []]]; [specialize (H2 tm Hin)|cbn]; lia.
Qed.

Lemma handlesOk_distinct l nh a b :
  handlesOk l nh -> In a l -> In b l -> handle a = handle b -> a = b.
Proof.
  intros [H1 _]. induction l as [|x l IH]; [intros []|].
  inversion H1 as [|? ? Hnot Hnd]; subst.
  intros [-> | Ha] [-> | Hb] E; auto.
  - exfalso. apply Hnot. rewrite E. now apply in_map.
  - exfalso. apply Hnot. rewrite <- E. now apply in_map.
Qed.

Section Steps.
Variable mathRandom : nat -> string.

Lemma Shrinks_onComplete w : Shrinks w (onComplete w).
Proof.
  open_world w. unfold onComplete. cbn. destruct done, ct, st; by_cases.
Qed.

Lemma Shrinks_onError err w : Shrinks w (onError err w).
Proof.
  open_world w. unfold onError. cbn.
  destruct done, es, rt, ct, st; by_cases.
Qed.

Lemma Shrinks_onProgress m w : Shrinks w (onProgress mathRandom m w).
Proof. open_world w. by_cases. Qed.

Lemma Shrinks_cleanup w : Shrinks w (Channel.cleanup subscription setVars w).
Proof. exact (Shrinks_unsubscribe w). Qed.

Lemma Shrinks_log a w : Shrinks w (log a w).
Proof. open_world w. by_cases. Qed.

Lemma Shrinks_deliverOpen w w' :
  deliverOpen subscription setVars w = Some w' -> Shrinks w w'.
Proof.
  open_world w. unfold deliverOpen. cbn.
  destruct es as [[| |]|]; try discriminate. intros [= <-]. by_cases.
Qed.

Lemma Shrinks_deliverMessage f w w' :
  deliverMessage subscription setVars (onProgress mathRandom) onComplete onError
                 f w = Some w' ->
  Shrinks w w'.
Proof.
  unfold deliverMessage.
  destruct (eventSource (vars subscription w)) as [[| |]|]; try discriminate.
  intros [= <-].
  destruct f as [| |[| | | |] [m|]]; cbn [onmessage]; try apply Shrinks_refl.
  - eapply Shrinks_trans; [apply Shrinks_log | apply Shrinks_onProgress].
  - eapply Shrinks_trans; [|apply Shrinks_cleanup].
    eapply Shrinks_trans; [apply Shrinks_log | apply Shrinks_onComplete].
  - eapply Shrinks_trans; [|apply Shrinks_cleanup].
    eapply Shrinks_trans; [apply Shrinks_log | apply Shrinks_onComplete].
  - eapply Shrinks_trans; [|apply Shrinks_cleanup].
    eapply Shrinks_trans; [apply Shrinks_log | apply Shrinks_onError].
  - eapply Shrinks_trans; [|apply Shrinks_cleanup].
    eapply Shrinks_trans; [apply Shrinks_log | apply Shrinks_onError].
Qed.

Lemma Shrinks_setEventSource rs w :
  Shrinks w (setEventSource subscription setVars rs w).
Proof. open_world w. by_cases. Qed.

Lemma Shrinks_onerror w : Shrinks w (onerror subscription setVars onError w).
Proof.
  unfold onerror.
  destruct (eventSource (vars subscription w)) as [[| |]|];
    try apply Shrinks_refl.
  destruct (negb _ && _).
  - open_world w. by_cases.
  - destruct (_ <=? _)%nat; [|apply Shrinks_refl].
    eapply Shrinks_trans; [|apply Shrinks_cleanup].
    eapply Shrinks_trans; [apply Shrinks_log | apply Shrinks_onError].
Qed.

Lemma Shrinks_deliverError fatal w w' :
  deliverError subscription setVars onError fatal w = Some w' -> Shrinks w w'.
Proof.
  unfold deliverError.
  destruct (eventSource (vars subscription w)) as [[| |]|]; try discriminate;
    intros [= <-];
    (eapply Shrinks_trans; [apply Shrinks_setEventSource | apply Shrinks_onerror]).
Qed.

Lemma Shrinks_reconnectCallback w :
  Shrinks w (reconnectCallback subscription setVars true onError w).
Proof.
  open_world w. unfold reconnectCallback, connect. cbn.
  destruct es, man; by_cases.
Qed.

Lemma Shrinks_resolveDelay w : Shrinks w (resolveDelay w).
Proof. open_world w. destruct ph; by_cases. Qed.

Lemma Shrinks_requestFailure m w : Shrinks w (requestFailure m w).
Proof.
  open_world w. unfold requestFailure. cbn.
  destruct done, es, rt, ct, st; by_cases.
Qed.

Lemma Shrinks_completionFallback w : Shrinks w (completionFallback w).
Proof.
  open_world w. unfold completionFallback. cbn. destruct done, es, rt; by_cases.
Qed.

Lemma Shrinks_safetyCleanup w : Shrinks w (safetyCleanup w).
Proof.
  open_world w. unfold safetyCleanup. cbn.
  destruct done, es, rt, ct; by_cases.
Qed.

Lemma Shrinks_fire h w w' : fire h w = Some w' -> Shrinks w w'.
Proof.
  unfold fire. destruct (findTimer h w) as [tm|]; [|discriminate].
  destruct (due tm <=? clock w)%Z; [|discriminate]. intros [= <-].
  eapply Shrinks_trans; [apply Shrinks_clearTimeout|].
  destruct (callback tm).
  - apply Shrinks_reconnectCallback.
  - apply Shrinks_resolveDelay.
  - apply Shrinks_completionFallback.
  - apply Shrinks_safetyCleanup.
Qed.

Lemma Owned_requestSuccess w :
  Owned w -> awaitingRequest w = true -> Owned (requestSuccess w).
Proof.
  intros [O1 O2 O3 O4] Hp.
  assert (Hnil : armed w = []).
  { apply O1. unfold awaitingRequest in Hp.
    destruct (phase (client w)); congruence. }
  pose proof (proj1 (armed_nil w) Hnil) as Hno.
  destruct (requestSuccess_arms w) as (_ & Ht & Hc & Hs).
  constructor.
  - intros Hph. exfalso. apply Hph. open_world w. reflexivity.
  - intros tm Hin Hk. rewrite Hc. rewrite Ht in Hin.
    apply in_app_or in Hin as [Hin | [<- | [<- | []]]].
    + now destruct (Hno tm Hin).
    + reflexivity.
    + discriminate.
  - intros tm Hin Hk. rewrite Hs. rewrite Ht in Hin.
    apply in_app_or in Hin as [Hin | [<- | [<- | []]]].
    + now destruct (Hno tm Hin).
    + discriminate.
    + reflexivity.
  - intros h Hh. open_world w. cbn in *. specialize (O4 h Hh). lia.
Qed.

Lemma Owned_step t e w w' :
  Owned w -> step mathRandom t e w = Some w' -> Owned w'.
Proof.
  intros HO. unfold step. destruct (t <? clock w)%Z; [discriminate|].
  pose proof (Owned_Shrinks _ _ HO (Shrinks_withClock t w)) as HO'.
  destruct e.
  - intros H. eapply Owned_Shrinks; [exact HO' | eapply Shrinks_deliverOpen, H].
  - intros H. eapply Owned_Shrinks; [exact HO' | eapply Shrinks_deliverMessage, H].
  - intros H. eapply Owned_Shrinks; [exact HO' | eapply Shrinks_deliverError, H].
  - intros H. eapply Owned_Shrinks; [exact HO' | eapply Shrinks_fire, H].
  - destruct (awaitingRequest (withClock t w)) eqn:E; [|discriminate].
    intros [= <-]. now apply Owned_requestSuccess.
  - destruct (awaitingRequest (withClock t w)) eqn:E; [|discriminate].
    intros [= <-]. eapply Owned_Shrinks; [exact HO' | apply Shrinks_requestFailure].
Qed.

Lemma Owned_run evs w w' :
  Owned w -> run mathRandom evs w = Some w' -> Owned w'.
Proof.
  revert w. induction evs as [|[t e] evs IH]; intros w HO; simpl.
  - now intros [= <-].
  - destruct (step mathRandom t e w) as [w1|] eqn:E; [|discriminate].
    apply IH. now apply (Owned_step t e w).
Qed.

Lemma Owned_start d f now reg : Owned (start d f now reg).
Proof.
  constructor; cbn; [reflexivity | | | discriminate];
    intros tm [<- | []]; discriminate.
Qed.


(** *** Settling disarms *)

Ltac disarm O2 O3 :=
  apply armed_nil; cbn;
  let tm := fresh "tm" in
  let H := fresh "H" in
  intros tm H;
  repeat (let Hf := fresh "Hf" in
          apply filter_In in H as [H Hf];
          apply negb_true_iff, Nat.eqb_neq in Hf);
  let Hkind := fresh "Hkind" in
  split; intros Hkind;
  [ specialize (O2 tm H Hkind) | specialize (O3 tm H Hkind) ];
  congruence.

Lemma onComplete_disarms w :
  Owned w -> isCompleted (client w) = false -> armed (onComplete w) = [].
Proof.
  intros [_ O2 O3 _] Hd. open_world w. subst done. unfold onComplete. cbn.
  destruct ct, st; disarm O2 O3.
Qed.

Lemma onError_disarms err w :
  Owned w -> isCompleted (client w) = false -> armed (onError err w) = [].
Proof.
  intros [_ O2 O3 _] Hd. open_world w. subst done. unfold onError. cbn.
  destruct es, rt, ct, st; disarm O2 O3.
Qed.

Lemma requestFailure_disarms m w :
  Owned w -> armed (requestFailure m w) = [].
Proof.
  intros [_ O2 O3 _]. open_world w. unfold requestFailure. cbn.
  destruct done, es, rt, ct, st; disarm O2 O3.
Qed.

Lemma findTimer_In h w tm :
  findTimer h w = Some tm -> In tm (timers w) /\ handle tm = h.
Proof.
  unfold findTimer. intros H. apply find_some in H as [Hin Hh].
  apply Nat.eqb_eq in Hh. auto.
Qed.

Lemma safetyCleanup_disarms h tm w :
  Owned w -> findTimer h w = Some tm -> callback tm = SafetyCleanup ->
  armed (safetyCleanup (clearTimeout h w)) = [].
Proof.
  intros [_ O2 O3 _] Hf Hk.
  destruct (findTimer_In _ _ _ Hf) as [Hin Hh].
  pose proof (O3 tm Hin Hk) as Hst.
  open_world w. unfold safetyCleanup. cbn.
  destruct done, es, rt, ct; disarm O2 O3.
Qed.

Lemma completionFallback_disarms h tm w :
  Owned w -> findTimer h w = Some tm -> callback tm = CompletionFallback ->
  pending CompletionFallback (completionFallback (clearTimeout h w)) = [].
Proof.
  intros [_ O2 O3 _] Hf Hk.
  destruct (findTimer_In _ _ _ Hf) as [Hin Hh].
  pose proof (O2 tm Hin Hk) as Hct.
  apply filter_nil_iff. intros x Hx.
  destruct (callback x) eqn:Ex; try reflexivity. exfalso.
  open_world w. unfold completionFallback in Hx. cbn in Hx.
  destruct done, es, rt; cbn in Hx;
    repeat (let Hf := fresh "Hf" in
            apply filter_In in Hx as [Hx Hf];
            apply negb_true_iff, Nat.eqb_neq in Hf);
    specialize (O2 x Hx Ex); congruence.
Qed.

(** Events that leave the flag as it is. *)
Lemma flag_deliverOpen w w' :
  deliverOpen subscription setVars w = Some w' ->
  isCompleted (client w') = isCompleted (client w).
Proof.
  open_world w. unfold deliverOpen. cbn.
  destruct es as [[| |]|]; try discriminate. now intros [= <-].
Qed.

Lemma flag_cleanup w :
  isCompleted (client (Channel.cleanup subscription setVars w))
  = isCompleted (client w).
Proof. apply (unsubscribe_frame w). Qed.

Lemma flag_reconnectCallback w :
  isCompleted (client (reconnectCallback subscription setVars true onError w))
  = isCompleted (client w).
Proof.
  open_world w. unfold reconnectCallback, connect. cbn.
  destruct es, man; reflexivity.
Qed.


Lemma flag_log a w : isCompleted (client (log a w)) = isCompleted (client w).
Proof. now destruct w. Qed.

Lemma flag_onProgress m w :
  isCompleted (client (onProgress mathRandom m w)) = isCompleted (client w).
Proof. now open_world w. Qed.

Lemma flag_resolveDelay w :
  isCompleted (client (resolveDelay w)) = isCompleted (client w).
Proof. open_world w. now destruct ph. Qed.

Lemma flag_clearTimeout h w :
  isCompleted (client (clearTimeout h w)) = isCompleted (client w).
Proof. now destruct w. Qed.

Lemma onerror_cases w :
  isCompleted (client (onerror subscription setVars onError w))
  = isCompleted (client w)
  \/ onerror subscription setVars onError w
     = Channel.cleanup subscription setVars
         (onError (Some connectionLostMessage)
                  (log (OnError (Some connectionLostMessage)) w)).
Proof.
  unfold onerror.
  destruct (eventSource (vars subscription w)) as [[| |]|]; auto.
  destruct (negb _ && _).
  - left. now open_world w.
  - destruct (_ <=? _)%nat; auto.
Qed.

Lemma Owned_log a w : Owned w -> Owned (log a w).
Proof. intros H. exact (Owned_Shrinks _ _ H (Shrinks_log a w)). Qed.

Lemma armed_pending w : armed w = [] -> pending CompletionFallback w = [].
Proof. unfold armed. intros H. now apply app_eq_nil in H. Qed.

Lemma settle_disarms t e w w' :
  Owned w ->
  isCompleted (client w) = false ->
  step mathRandom t e w = Some w' ->
  isCompleted (client w') = true ->
  pending CompletionFallback w' = []
  /\ (fallbackFires e w = false -> armed w' = []).
Proof.
  intros HO Hd. unfold step. destruct (t <? clock w)%Z; [discriminate|].
  assert (HO0 : Owned (withClock t w))
    by exact (Owned_Shrinks _ _ HO (Shrinks_withClock t w)).
  assert (Hd0 : isCompleted (client (withClock t w)) = false)
    by (now destruct w).
  assert (Hft : forall h, findTimer h (withClock t w) = findTimer h w)
    by (now destruct w).
  revert HO0 Hd0 Hft. generalize (withClock t w) as w0. intros w0 HO0 Hd0 Hft.
  assert (Hall : armed w' = [] ->
                 pending CompletionFallback w' = []
                 /\ (fallbackFires e w = false -> armed w' = [])).
  { intros H. split; [now apply armed_pending | auto]. }
  destruct e as [| f | fatal | h | | m]; intros Hs Hdone.
  - rewrite (flag_deliverOpen _ _ Hs) in Hdone. congruence.
  - unfold deliverMessage in Hs.
    destruct (eventSource (vars subscription w0)) as [[| |]|]; try discriminate.
    injection Hs as <-.
    destruct f as [| |[| | | |] [msg|]]; cbn [onmessage] in *; try congruence.
    + rewrite flag_onProgress, flag_log in Hdone. congruence.
    + apply Hall. eapply armed_Shrinks; [|apply Shrinks_cleanup].
      apply onComplete_disarms; [now apply Owned_log | now rewrite flag_log].
    + apply Hall. eapply armed_Shrinks; [|apply Shrinks_cleanup].
      apply onComplete_disarms; [now apply Owned_log | now rewrite flag_log].
    + apply Hall. eapply armed_Shrinks; [|apply Shrinks_cleanup].
      apply onError_disarms; [now apply Owned_log | now rewrite flag_log].
    + apply Hall. eapply armed_Shrinks; [|apply Shrinks_cleanup].
      apply onError_disarms; [now apply Owned_log | now rewrite flag_log].
  - unfold deliverError in Hs.
    assert (Hset : forall rs,
               Owned (setEventSource subscription setVars rs w0)
               /\ isCompleted (client (setEventSource subscription setVars rs w0))
                  = false).
    { intros rs. split.
      - exact (Owned_Shrinks _ _ HO0 (Shrinks_setEventSource rs w0)).
      - rewrite <- Hd0. now destruct w0. }
    destruct (eventSource (vars subscription w0)) as [[| |]|]; try discriminate;
      injection Hs as <-;
      match goal with
      | |- context [onerror _ _ _ ?x] =>
          destruct (onerror_cases x) as [Hsame | Hlost]
      end;
      try (rewrite Hsame in Hdone;
           rewrite (proj2 (Hset _)) in Hdone; congruence);
      apply Hall; rewrite Hlost;
      (eapply armed_Shrinks; [|apply Shrinks_cleanup]);
      (apply onError_disarms;
       [apply Owned_log, Hset | rewrite flag_log; apply Hset]).
  - unfold fire in Hs. cbn [fallbackFires]. rewrite <- Hft.
    destruct (findTimer h w0) as [tm|] eqn:Ef; [|discriminate].
    destruct (due tm <=? clock w0)%Z; [|discriminate].
    injection Hs as <-.
    destruct (callback tm) eqn:Ek.
    + rewrite flag_reconnectCallback, flag_clearTimeout in Hdone. congruence.
    + rewrite flag_resolveDelay, flag_clearTimeout in Hdone. congruence.
    + split; [|discriminate].
      now apply (completionFallback_disarms h tm).
    + assert (A : armed (safetyCleanup (clearTimeout h w0)) = [])
        by now apply (safetyCleanup_disarms h tm).
      split; [now apply armed_pending | auto].
  - destruct (awaitingRequest w0); [|discriminate]. injection Hs as <-.
    destruct (requestSuccess_arms w0) as ([Hflag _] & _).
    rewrite Hflag in Hdone. congruence.
  - destruct (awaitingRequest w0); [|discriminate]. injection Hs as <-.
    apply Hall. now apply requestFailure_disarms.
Qed.


(** C8, as the code has it.  Along any run of a job: when an event settles
    the job, no grace-window timer is pending right after, and unless the
    event is the firing of the grace-window timer itself, no hard-safety
    timer is pending either.  (The grace-window fallback leaves the
    hard-safety timer to fire.) *)
Theorem C8_settling_disarms (d : string) (f : option string) (now : Z)
        (reg : Registry.State) (evs : list (Z * Event))
        (w : W) (t : Z) (e : Event) (w' : W) :
  run mathRandom evs (start d f now reg) = Some w ->
  isCompleted (client w) = false ->
  step mathRandom t e w = Some w' ->
  isCompleted (client w') = true ->
  pending CompletionFallback w' = []
  /\ (fallbackFires e w = false -> armed w' = []).
Proof.
  intros Hrun. apply settle_disarms.
  exact (Owned_run evs _ _ (Owned_start d f now reg) Hrun).
Qed.

(** *** While the job is unsettled *)

Ltac open_job w :=
  destruct w as [clk tms nh [d0 reg done ct st ph [es att man rt] rc] tr];
  cbn [client clock timers nextHandle trace docId registry isCompleted
       completionTimer cleanupTimer phase subscription randomCalls] in *.

Ltac crunch_w :=
  cbv -[Registry.dispatch Z.ltb Z.leb Z.add Z.le String.eqb app filter find
        mathRandom handlesOk In due handle callback cleanupCalls lt].

Ltac crunch_c :=
  cbv -[Registry.dispatch Z.ltb Z.leb Z.add Z.le String.eqb app filter find
        mathRandom handlesOk In due handle callback lt List.length Nat.eqb
        negb isCleanup isClose];
  cbn [filter isCleanup isClose List.length].

Ltac same := match goal with |- ?x = ?y => constr_eq x y; exact eq_refl end.

Ltac settled := split; [same | let H := fresh in intros H; discriminate H].


Ltac handles :=
  repeat first [ assumption | apply handlesOk_filter | apply handlesOk_snoc ].

Ltac count_cleanup :=
  unfold cleanupCalls; cbn [trace filter isCleanup]; assumption.

Ltac is_fresh :=
  let h := fresh "h" in let Hh := fresh "Hh" in
  intros h Hh;
  first [ injection Hh as <-; lia
        | match goal with
          | H : forall h, _ = Some h -> _ |- _ => pose proof (H _ Hh); lia
          end ].

(* a timer of the table before the event *)
Ltac old_held H5 tm Hin :=
  let Ha := fresh "Ha" in let Hb := fresh "Hb" in
  pose proof (H5 tm Hin) as Ha;
  destruct (callback tm); destruct Ha as [Ha Hb];
  first [ discriminate Hb | exfalso; congruence
        | split; first [assumption | congruence] ].

Ltac fields :=
  split; [same|]; intros _; constructor; unfold held;
  cbn [client clock timers nextHandle trace docId registry isCompleted
       completionTimer cleanupTimer phase subscription randomCalls
       eventSource reconnectTimer].

Ltac new_held := cbn; split; reflexivity.

Ltac grown Hin :=
  repeat (apply in_app_or in Hin as [Hin | [<- | []]]).

Ltac kept H7 :=
  let tm := fresh "tm" in let Hk := fresh "Hk" in
  intros tm Hk; destruct (H7 tm Hk);
  split; [repeat (apply in_or_app; left); assumption | assumption].

(* a fatal error schedules a retry *)
Ltac retry_set H3 H5 H7 :=
  fields;
  [ count_cleanup | discriminate | handles | is_fresh
  | let tm := fresh "tm" in let Hin := fresh "Hin" in
    intros tm Hin; grown Hin; [old_held H5 tm Hin | new_held]
  | let tm := fresh "tm" in let Hin := fresh "Hin" in let Hr := fresh "Hr" in
    intros tm Hin Hr; grown Hin;
    [ destruct H3 as [_ HF]; rewrite Forall_forall in HF;
      specialize (HF tm Hin); injection Hr; lia
    | reflexivity ]
  | kept H7 ].

(* the retry timer or the pause fires *)
Ltac fired H5 H6 Hkeep :=
  fields;
  [ count_cleanup | first [assumption | discriminate] | handles | is_fresh
  | let tm := fresh "tm" in let Hin := fresh "Hin" in let Hne := fresh "Hne" in
    intros tm Hin; apply filter_In in Hin as [Hin Hne];
    apply negb_true_iff, Nat.eqb_neq in Hne; old_held H5 tm Hin
  | let tm := fresh "tm" in let Hin := fresh "Hin" in let Hne := fresh "Hne" in
    let Hr := fresh "Hr" in
    intros tm Hin Hr; apply filter_In in Hin as [Hin Hne];
    apply negb_true_iff, Nat.eqb_neq in Hne;
    first [ exact (H6 tm Hin Hr) | exfalso; congruence ]
  | let tm := fresh "tm" in let Hk := fresh "Hk" in
    intros tm Hk; apply (Hkeep tm Hk); discriminate ].

(* the request has returned: both timers are armed *)
Ltac armed_now H4 H5 H6 H7 :=
  fields;
  [ count_cleanup | assumption | handles | is_fresh
  | let tm := fresh "tm" in let Hin := fresh "Hin" in
    intros tm Hin; grown Hin; [old_held H5 tm Hin | new_held | new_held]
  | let tm := fresh "tm" in let Hin := fresh "Hin" in let Hr := fresh "Hr" in
    intros tm Hin Hr; grown Hin;
    [ exact (H6 tm Hin Hr)
    | cbn in Hr; pose proof (H4 _ Hr); lia
    | cbn in Hr; pose proof (H4 _ Hr); lia ]
  | kept H7 ].

(* the event leaves the timers as they are *)
Ltac go_on :=
  fields;
  [ count_cleanup | first [assumption | discriminate] | handles | is_fresh
  | let tm := fresh "tm" in let Hin := fresh "Hin" in
    intros tm Hin;
    match goal with H : forall tm, In tm _ -> match callback tm with _ => _ end |- _ =>
      old_held H tm Hin end
  | assumption | assumption ].

(** Every event keeps what holds of an unsettled job. *)
Lemma waiting_step d keep t e w w' :
  waiting d keep w -> step mathRandom t e w = Some w' -> waiting d keep w'.
Proof.
  intros [Hd Hw]. unfold step. destruct (t <? clock w)%Z eqn:Et; [discriminate|].
  apply Z.ltb_ge in Et.
  open_job w. subst d0. unfold waiting.
  destruct done.
  { clear Hw. destruct e as [| f | fatal | h | | m].
    - unfold deliverOpen. cbn.
      destruct es as [[| |]|]; try discriminate. intros [= <-]. crunch_w. settled.
    - unfold deliverMessage. cbn.
      destruct es as [[| |]|]; try discriminate. intros [= <-].
      destruct f as [| |[| | | |] [m|]]; try (crunch_w; settled);
        destruct ct, st, rt; crunch_w; settled.
    - unfold deliverError. cbn.
      destruct es as [[| |]|]; try discriminate; intros [= <-];
        (destruct fatal; [|crunch_w; settled]);
        destruct man, att as [|[|[|[|att]]]]; try (crunch_w; settled);
        destruct rt, ct, st; crunch_w; settled.
    - unfold fire, findTimer. cbn.
      destruct (find _ tms) as [tm|] eqn:Ef; [|discriminate].
      destruct (due tm <=? t)%Z; [|discriminate]. intros [= <-].
      destruct (callback tm).
      + destruct es, man; crunch_w; settled.
      + destruct ph; crunch_w; settled.
      + crunch_w; settled.
      + destruct es, rt, ct; crunch_w; settled.
    - unfold awaitingRequest. cbn. destruct ph; try discriminate.
      intros [= <-]. crunch_w. settled.
    - unfold awaitingRequest. cbn. destruct ph; try discriminate.
      intros [= <-]. destruct es, rt, ct, st; crunch_w; settled. }
  specialize (Hw eq_refl). destruct Hw as [H1 H2 H3 H4 H5 H6 H7].
  unfold cleanupCalls in H1. unfold held in H5.
  cbn [client clock timers nextHandle trace docId registry isCompleted
       completionTimer cleanupTimer phase subscription randomCalls
       eventSource reconnectTimer] in *.
  destruct e as [| f | fatal | h | | m].
  - unfold deliverOpen. cbn.
    destruct es as [[| |]|]; try discriminate. intros [= <-]. crunch_w.
    go_on.
  - unfold deliverMessage. cbn.
    destruct es as [[| |]|]; try discriminate. intros [= <-].
    destruct f as [| |[| | | |] [m|]].
    + crunch_w. go_on.
    + crunch_w. go_on.
    + crunch_w. go_on.
    + crunch_w. go_on.
    + crunch_w. go_on.
    + crunch_w. go_on.
    + destruct ct, st, rt; crunch_w; settled.
    + destruct ct, st, rt; crunch_w; settled.
    + destruct ct, st, rt; crunch_w; settled.
    + destruct ct, st, rt; crunch_w; settled.
    + crunch_w. go_on.
    + crunch_w. go_on.
  - unfold deliverError. cbn.
    destruct es as [[| |]|]; try discriminate; intros [= <-];
      (destruct fatal; [|crunch_w; go_on]);
      (destruct man;
       [ destruct att as [|[|[|[|att]]]];
         [ crunch_w; go_on | crunch_w; go_on | crunch_w; go_on
         | destruct rt, ct, st; crunch_w; settled
         | destruct rt, ct, st; crunch_w; settled ]
       | destruct att as [|[|[|[|att]]]];
         [ crunch_w; retry_set H3 H5 H7 | crunch_w; retry_set H3 H5 H7 | crunch_w; retry_set H3 H5 H7
         | destruct rt, ct, st; crunch_w; settled
         | destruct rt, ct, st; crunch_w; settled ] ]).
  - unfold fire, findTimer. cbn.
    destruct (find _ tms) as [tm0|] eqn:Ef; [|discriminate].
    destruct (due tm0 <=? t)%Z; [|discriminate]. intros [= <-].
    apply find_some in Ef as [Hin0 Eh]. apply Nat.eqb_eq in Eh.
    pose proof (H5 tm0 Hin0) as Hfired.
    assert (Hkeep : forall tm, In tm keep ->
                          callback tm0 <> CompletionFallback ->
                          callback tm0 <> SafetyCleanup ->
                          In tm (filter (fun x => negb (handle x =? h)) tms)
                          /\ (callback tm = CompletionFallback
                              \/ callback tm = SafetyCleanup)).
    { intros tm Hk N1 N2. destruct (H7 tm Hk) as [Hin Hcb].
      split; [|exact Hcb]. apply filter_In. split; [exact Hin|].
      apply negb_true_iff, Nat.eqb_neq. intros E.
      assert (tm = tm0)
        by (apply (handlesOk_distinct _ _ _ _ H3 Hin Hin0); congruence).
      subst tm0. destruct Hcb; congruence. }
    destruct (callback tm0) eqn:Ek.
    + destruct Hfired as [-> ->].
      destruct man; crunch_w; fired H5 H6 Hkeep.
    + destruct Hfired as [-> E1].
      crunch_w; fired H5 H6 Hkeep.
    + destruct es, rt; crunch_w; settled.
    + destruct es, rt, ct; crunch_w; settled.
  - unfold awaitingRequest. cbn. destruct ph; try discriminate.
    intros [= <-]. crunch_w. armed_now H4 H5 H6 H7.
  - unfold awaitingRequest. cbn. destruct ph; try discriminate.
    intros [= <-]. destruct es, rt, ct, st; crunch_w; settled.
Qed.


Lemma waiting_run d keep evs w w' :
  waiting d keep w -> run mathRandom evs w = Some w' -> waiting d keep w'.
Proof.
  revert w. induction evs as [|[t e] evs IH]; intros w Hw; simpl.
  - now intros [= <-].
  - destruct (step mathRandom t e w) as [w1|] eqn:E; [|discriminate].
    apply IH. now apply (waiting_step d keep t e w).
Qed.

Lemma waiting_start d f now reg : waiting d [] (start d f now reg).
Proof.
  split; [reflexivity|]. intros _. constructor; unfold held; cbn.
  - reflexivity.
  - discriminate.
  - split; repeat constructor. intros [].
  - discriminate.
  - intros tm [<- | []]. cbn. auto.
  - discriminate.
  - intros tm [].
Qed.

(** The return of the request arms the two timers. *)
Lemma waiting_armed d t w w1 :
  waiting d [] w ->
  step mathRandom t RequestSuccess w = Some w1 ->
  waiting d [mkTimer (nextHandle w) (t + 2000) CompletionFallback;
             mkTimer (S (nextHandle w)) (t + 5000) SafetyCleanup] w1.
Proof.
  intros Hw Hs. destruct (waiting_step d [] t _ w w1 Hw Hs) as [Hd Hw1].
  split; [exact Hd|]. intros Hun. destruct (Hw1 Hun) as [H1 H2 H3 H4 H5 H6 _].
  constructor; auto.
  unfold step in Hs. destruct (t <? clock w)%Z; [discriminate|].
  destruct (awaitingRequest (withClock t w)); [|discriminate].
  injection Hs as <-.
  destruct (requestSuccess_arms (withClock t w)) as (_ & Ht & _).
  rewrite Ht. destruct w. cbn [withClock timers clock nextHandle].
  intros tm [<- | [<- | []]]; (split; [|cbn; auto]);
    apply in_or_app; right; cbn; auto.
Qed.

(** The grace-window timer finds the job unsettled. *)
Lemma fallback_fires d fb sf t2 w2 :
  waiting d [fb; sf] w2 ->
  isCompleted (client w2) = false ->
  callback fb = CompletionFallback ->
  callback sf = SafetyCleanup ->
  (clock w2 <= t2)%Z -> (due fb <= t2)%Z ->
  cleanupCalls w2 = 0
  /\ exists wg,
      step mathRandom t2 (Timeout (handle fb)) w2 = Some wg
      /\ registry (client wg)
         = Registry.dispatch (Registry.CompleteOperation d t2)
                             (registry (client w2))
      /\ closeCalls wg = S (closeCalls w2)
      /\ clock wg = t2
      /\ fallenBack sf wg.
Proof.
  intros [Hd Hw] Hun Hfb Hsf Hclk Hdue. destruct (Hw Hun) as [H1 H2 H3 H4 H5 H6 H7].
  split; [exact H1|].
  destruct (H7 fb (or_introl eq_refl)) as [Hinf _].
  destruct (H7 sf (or_intror (or_introl eq_refl))) as [Hins _].
  pose proof (H5 fb Hinf) as Hhf. unfold held in Hhf. rewrite Hfb in Hhf.
  pose proof (H5 sf Hins) as Hhs. unfold held in Hhs. rewrite Hsf in Hhs.
  destruct Hhf as [Hct Hph]. destruct Hhs as [Hst _].
  assert (Hfind : findTimer (handle fb) (withClock t2 w2) = Some fb).
  { unfold findTimer. cbn [timers withClock].
    destruct (find _ (timers w2)) as [tm'|] eqn:Ef.
    - apply find_some in Ef as [Hin' Eh]. apply Nat.eqb_eq in Eh.
      f_equal. exact (handlesOk_distinct _ _ _ _ H3 Hin' Hinf Eh).
    - exfalso. apply (find_none _ _ Ef) in Hinf.
      now rewrite Nat.eqb_refl in Hinf. }
  assert (Hne : handle sf <> handle fb).
  { intros E. assert (sf = fb) by exact (handlesOk_distinct _ _ _ _ H3 Hins Hinf E).
    congruence. }
  assert (Hsr : reconnectTimer (subscription (client w2)) <> Some (handle sf)).
  { intros E. pose proof (H6 sf Hins E). congruence. }
  assert (Honly : forall tm, In tm (timers w2) -> handle tm <> handle fb ->
                        reconnectTimer (subscription (client w2))
                        <> Some (handle tm) ->
                        tm = sf).
  { intros tm Hin N1 N2. pose proof (H5 tm Hin) as Hh. unfold held in Hh.
    destruct (callback tm); destruct Hh as [Ha Hb].
    - congruence.
    - congruence.
    - congruence.
    - apply (handlesOk_distinct _ _ _ _ H3 Hin Hins). congruence. }
  unfold step. destruct (t2 <? clock w2)%Z eqn:E; [apply Z.ltb_lt in E; lia|].
  unfold fire. rewrite Hfind. cbn [clock withClock].
  destruct (due fb <=? t2)%Z eqn:E2; [|apply Z.leb_gt in E2; lia].
  rewrite Hfb. eexists. split; [reflexivity|].
  unfold cleanupCalls in H1. unfold closeCalls, fallenBack, cleanupCalls.
  clear Hw H4 H5 H7 Hfind.
  open_job w2. cbn [reconnectTimer eventSource] in *. subst d0 done ph.
  destruct es as [rs|]; [clear H2 | exfalso; apply H2; reflexivity].
  destruct rt as [r|]; crunch_c.
  - split; [same|]. split; [same|]. split; [same|]. split; [same|].
    split; [same|]. split; [same|]. split; [now rewrite H1|].
    intros tm. split.
    + intros Hin. apply filter_In in Hin as [Hin N2].
      apply filter_In in Hin as [Hin N1].
      apply negb_true_iff, Nat.eqb_neq in N1, N2.
      apply Honly; congruence.
    + intros ->. apply filter_In. split; [apply filter_In; split; [exact Hins|]|];
        apply negb_true_iff, Nat.eqb_neq; congruence.
  - split; [same|]. split; [same|]. split; [same|]. split; [same|].
    split; [same|]. split; [same|]. split; [now rewrite H1|].
    intros tm. split.
    + intros Hin. apply filter_In in Hin as [Hin N1].
      apply negb_true_iff, Nat.eqb_neq in N1.
      apply Honly; congruence.
    + intros ->. apply filter_In. split; [exact Hins|].
      apply negb_true_iff, Nat.eqb_neq; congruence.
Qed.


(** *** After the fallback *)

Lemma nothing_left w :
  eventSource (subscription (client w)) = None ->
  phase (client w) = Returned ->
  timers w = [] ->
  forall t e, step mathRandom t e w = None.
Proof.
  intros Hes Hph Htm t e. unfold step.
  destruct (t <? clock w)%Z; [reflexivity|].
  open_job w. cbn [eventSource] in *. subst es ph tms.
  destruct e; reflexivity.
Qed.

Lemma only_safety sf t e wg w' :
  fallenBack sf wg ->
  step mathRandom t e wg = Some w' ->
  e = Timeout (handle sf).
Proof.
  intros (_ & Hes & Hph & _ & Honly). unfold step.
  destruct (t <? clock wg)%Z; [discriminate|].
  open_job wg. cbn [eventSource] in *. subst es ph.
  destruct e as [| fr | fatal | h | | m]; try discriminate.
  unfold fire, findTimer. cbn [timers withClock].
  destruct (find _ tms) as [tm|] eqn:Ef; [|discriminate].
  apply find_some in Ef as [Hin Eh]. apply Nat.eqb_eq in Eh.
  apply Honly in Hin. subst tm. now rewrite Eh.
Qed.

Lemma safety_fires sf t3 wg :
  fallenBack sf wg ->
  callback sf = SafetyCleanup ->
  (clock wg <= t3)%Z -> (due sf <= t3)%Z ->
  exists w3,
    step mathRandom t3 (Timeout (handle sf)) wg = Some w3
    /\ registry (client w3) = registry (client wg)
    /\ cleanupCalls w3 = 2
    /\ closeCalls w3 = closeCalls wg
    /\ timers w3 = []
    /\ forall t e, step mathRandom t e w3 = None.
Proof.
  intros (Hdone & Hes & Hph & Hc & Honly) Hsf Hclk Hdue.
  assert (Hfind : findTimer (handle sf) (withClock t3 wg) = Some sf).
  { unfold findTimer. cbn [timers withClock].
    destruct (find _ (timers wg)) as [tm'|] eqn:Ef.
    - apply find_some in Ef as [Hin' _]. f_equal. now apply Honly.
    - exfalso. assert (Hin : In sf (timers wg)) by now apply Honly.
      apply (find_none _ _ Ef) in Hin. now rewrite Nat.eqb_refl in Hin. }
  unfold step. destruct (t3 <? clock wg)%Z eqn:E; [apply Z.ltb_lt in E; lia|].
  unfold fire. rewrite Hfind. cbn [clock withClock].
  destruct (due sf <=? t3)%Z eqn:E2; [|apply Z.leb_gt in E2; lia].
  rewrite Hsf. eexists. split; [reflexivity|].
  assert (Hgone : filter (fun x => negb (handle x =? handle sf)) (timers wg) = []).
  { apply filter_nil_iff. intros x Hx. apply Honly in Hx. subst x.
    now rewrite Nat.eqb_refl. }
  clear Hfind Honly.
  assert (Hlast :
            registry (client (safetyCleanup
                                (clearTimeout (handle sf) (withClock t3 wg))))
            = registry (client wg)
            /\ cleanupCalls (safetyCleanup
                               (clearTimeout (handle sf) (withClock t3 wg))) = 2
            /\ closeCalls (safetyCleanup
                             (clearTimeout (handle sf) (withClock t3 wg)))
               = closeCalls wg
            /\ timers (safetyCleanup
                         (clearTimeout (handle sf) (withClock t3 wg))) = []
            /\ eventSource (subscription (client (safetyCleanup
                  (clearTimeout (handle sf) (withClock t3 wg))))) = None
            /\ phase (client (safetyCleanup
                  (clearTimeout (handle sf) (withClock t3 wg)))) = Returned).
  { unfold cleanupCalls in *. unfold closeCalls.
    open_job wg. cbn [eventSource] in *. subst done es ph.
    destruct rt as [r|], ct as [c|]; crunch_c; rewrite Hc, ?Hgone;
      repeat split. }
  destruct Hlast as (L1 & L2 & L3 & L4 & L5 & L6).
  split; [exact L1|]. split; [exact L2|]. split; [exact L3|].
  split; [exact L4|]. now apply nothing_left.
Qed.

(** C9, as the code has it.  Along any run of a job, let the request
    resolve successfully at time [t]: the grace-window timer (due at
    [t + 2000]) and the hard-safety timer (due at [t + 5000]) are
    pending.  Whatever happens next (frames, failures and retries of the
    stream), if the job is still unsettled when the grace-window timer
    fires, then [cleanup] has not been invoked so far and the firing
    completes the job in the registry by [completeOperation] at that
    time and invokes [cleanup], which closes the EventSource.  The hard-safety timer is not cancelled: it is the
    one timer left and its firing is the only event that can follow.
    When it fires it leaves the registry as it is and invokes [cleanup]
    again, which closes nothing; no timer remains and nothing more can
    happen.  Over the whole run [cleanup] is invoked exactly twice. *)
Theorem C9_fallback_then_safety (d : string) (f : option string) (now : Z)
        (reg : Registry.State) (evs : list (Z * Event))
        (t : Z) (w w1 : W) :
  run mathRandom evs (start d f now reg) = Some w ->
  step mathRandom t RequestSuccess w = Some w1 ->
  let fallback := mkTimer (nextHandle w) (t + 2000) CompletionFallback in
  let safety := mkTimer (S (nextHandle w)) (t + 5000) SafetyCleanup in
  In fallback (timers w1) /\ In safety (timers w1)
  /\ forall evs' w2 t2,
      run mathRandom evs' w1 = Some w2 ->
      isCompleted (client w2) = false ->
      (clock w2 <= t2)%Z -> (t + 2000 <= t2)%Z ->
      cleanupCalls w2 = 0
      /\ exists wg,
          step mathRandom t2 (Timeout (handle fallback)) w2 = Some wg
          /\ isCompleted (client wg) = true
          /\ registry (client wg)
             = Registry.dispatch (Registry.CompleteOperation d t2)
                                 (registry (client w2))
          /\ cleanupCalls wg = 1
          /\ closeCalls wg = S (closeCalls w2)
          /\ eventSource (subscription (client wg)) = None
          /\ (forall tm, In tm (timers wg) <-> tm = safety)
          /\ (forall t' e w',
                step mathRandom t' e wg = Some w' ->
                e = Timeout (handle safety))
          /\ forall t3, (t2 <= t3)%Z -> (t + 5000 <= t3)%Z ->
             exists w3,
               step mathRandom t3 (Timeout (handle safety)) wg = Some w3
               /\ registry (client w3) = registry (client wg)
               /\ cleanupCalls w3 = 2
               /\ closeCalls w3 = closeCalls wg
               /\ timers w3 = []
               /\ forall t' e, step mathRandom t' e w3 = None.
Proof.
  intros Hrun Hs fallback safety.
  pose proof (waiting_run d [] evs _ _ (waiting_start d f now reg) Hrun) as Hw.
  pose proof (waiting_armed d t w w1 Hw Hs) as Hw1.
  fold fallback safety in Hw1.
  assert (Hin : In fallback (timers w1) /\ In safety (timers w1)).
  { unfold step in Hs. destruct (t <? clock w)%Z; [discriminate|].
    destruct (awaitingRequest (withClock t w)); [|discriminate].
    injection Hs as <-.
    destruct (requestSuccess_arms (withClock t w)) as (_ & Ht & _).
    rewrite Ht. destruct w. cbn [withClock timers clock nextHandle].
    split; apply in_or_app; right; cbn; auto. }
  split; [exact (proj1 Hin)|]. split; [exact (proj2 Hin)|].
  intros evs' w2 t2 Hrun2 Hun2 Hclk2 Hdue2.
  pose proof (waiting_run d _ evs' _ _ Hw1 Hrun2) as Hw2.
  destruct (fallback_fires d fallback safety t2 w2 Hw2 Hun2 eq_refl eq_refl
              Hclk2 Hdue2)
    as (Hc0 & wg & Hstep & Hreg & Hclose & Hclk & Hfb).
  split; [exact Hc0|]. exists wg.
  pose proof Hfb as (Hdone & Hes & _ & Hc1 & Honly).
  split; [exact Hstep|]. split; [exact Hdone|]. split; [exact Hreg|].
  split; [exact Hc1|]. split; [exact Hclose|]. split; [exact Hes|].
  split; [exact Honly|].
  split; [intros t' e w' H; exact (only_safety safety t' e wg w' Hfb H)|].
  intros t3 H3 H5.
  apply (safety_fires safety t3 wg Hfb eq_refl); [rewrite Hclk; exact H3|exact H5].
Qed.

End Steps.


(** C1, as the code has it.  While the job is unsettled, each of
    stream-complete, stream-error and request-failure, and each of the two
    fallback timers, flips the settled flag and performs its terminal
    transition on the registry ([completeOperation] for stream-complete
    and the timers, [errorOperation] for stream-error and
    request-failure).  Request-success never settles the job: it leaves
    the flag and the registry as they are and arms the grace-window timer
    (2000 ms) and the hard-safety timer (5000 ms).  Once the flag is set,
    every signal, from either source, and every firing of a fallback
    timer leaves the registry unchanged. *)
Theorem C1_first_settling_signal_wins (w : W) :
  (isCompleted (client w) = false ->
   settledWith (Registry.CompleteOperation (docId (client w)) (clock w))
               w (signal StreamComplete w)
   /\ (forall err,
        settledWith (Registry.ErrorOperation (docId (client w))
                                             (orConnectionError err) (clock w))
                    w (signal (StreamError err) w))
   /\ (forall m,
        settledWith (Registry.ErrorOperation (docId (client w)) m (clock w))
                    w (signal (RequestFailed m) w))
   /\ settledWith (Registry.CompleteOperation (docId (client w)) (clock w))
                  w (completionFallback w)
   /\ settledWith (Registry.CompleteOperation (docId (client w)) (clock w))
                  w (safetyCleanup w))
  /\ (untouched w (signal RequestSucceeded w)
      /\ timers (signal RequestSucceeded w)
         = (timers w
            ++ [mkTimer (nextHandle w) (clock w + 2000) CompletionFallback;
                mkTimer (S (nextHandle w)) (clock w + 5000) SafetyCleanup])%list)
  /\ (isCompleted (client w) = true ->
      (forall sg, untouched w (signal sg w))
      /\ untouched w (completionFallback w)
      /\ untouched w (safetyCleanup w)).
Proof.
  split; [|split].
  - intros Hd. split; [now apply onComplete_settles|].
    split; [intros err; now apply onError_settles|].
    split; [intros m; now apply requestFailure_settles|].
    split; [now apply completionFallback_settles | now apply safetyCleanup_settles].
  - destruct (requestSuccess_arms w) as (Hu & Ht & _). now split.
  - intros Hd. split; [intros sg; now apply settled_signal_untouched|].
    now apply settled_timers_untouched.
Qed.

End Arbitration.

(** ** The arbiter on concrete runs *)

Section ArbitrationRuns.
Import Browser Channel Arbiter.
Local Open Scope nat_scope.

Lemma C1_first_settling_signal_wins_witness :
  isCompleted (client Scenario.job) = false
  /\ settledWith (Registry.CompleteOperation "doc-3" 0)
                 Scenario.job (signal StreamComplete Scenario.job)
  /\ isCompleted (client (signal StreamComplete Scenario.job)) = true
  /\ untouched (signal StreamComplete Scenario.job)
               (signal (RequestFailed "Network Error")
                       (signal StreamComplete Scenario.job)).
Proof.
  assert (H0 : isCompleted (client Scenario.job) = false) by reflexivity.
  assert (H1 : isCompleted (client (signal StreamComplete Scenario.job)) = true)
    by reflexivity.
  destruct (C1_first_settling_signal_wins Scenario.job) as [Hfirst _].
  destruct (C1_first_settling_signal_wins (signal StreamComplete Scenario.job))
    as [_ [_ Hlater]].
  split; [exact H0|]. split; [exact (proj1 (Hfirst H0))|].
  split; [exact H1|]. exact (proj1 (Hlater H1) (RequestFailed "Network Error")).
Defined.

(** The request resolves successfully before the stream says anything:
    the job is still unsettled and active with an empty history; the error
    frame that follows is the signal that changes the registry. *)
Lemma C1_counterexample :
  exists w w',
    run Scenario.random Scenario.resolved Scenario.job = Some w
    /\ isCompleted (client w) = false
    /\ Registry.isActive "doc-3" (registry (client w)) = true
    /\ Registry.history (registry (client w)) = []
    /\ step Scenario.random 1000 (Message (Typed TError None)) w = Some w'
    /\ isCompleted (client w') = true
    /\ Registry.history (registry (client w')) <> Registry.history (registry (client w)).
Proof.
  eexists. eexists.
  split; [vm_compute; reflexivity|].
  split; [reflexivity|]. split; [reflexivity|]. split; [reflexivity|].
  split; [vm_compute; reflexivity|].
  split; [reflexivity|]. vm_compute. discriminate.
Qed.

Lemma C8_settling_disarms_witness :
  exists w w',
    run Scenario.random Scenario.resolved Scenario.job = Some w
    /\ isCompleted (client w) = false
    /\ step Scenario.random 1500 (Message (Typed TComplete None)) w = Some w'
    /\ isCompleted (client w') = true
    /\ armed w' = [].
Proof.
  let r := eval vm_compute in (run Scenario.random Scenario.resolved Scenario.job) in
  match r with
  | Some ?w =>
      exists w;
      let r' := eval vm_compute in
                  (step Scenario.random 1500 (Message (Typed TComplete None)) w) in
      match r' with
      | Some ?w' =>
          exists w';
          assert (H1 : run Scenario.random Scenario.resolved Scenario.job = Some w)
            by (vm_compute; reflexivity);
          assert (H2 : isCompleted (client w) = false) by reflexivity;
          assert (H3 : step Scenario.random 1500 (Message (Typed TComplete None)) w
                       = Some w') by (vm_compute; reflexivity);
          assert (H4 : isCompleted (client w') = true) by reflexivity;
          pose proof (C8_settling_disarms Scenario.random "doc-3"
                        (Some "contract.pdf") 0 Registry.fresh Scenario.resolved
                        w 1500 (Message (Typed TComplete None)) w'
                        H1 H2 H3 H4) as H
      end
  end.
  repeat (split; [assumption|]). exact (proj2 H eq_refl).
Defined.

(** The stream announces completion first; when the request then resolves,
    both timers are armed on a settled job. *)
Lemma C8_counterexample :
  exists w,
    run Scenario.random Scenario.streamFirst Scenario.job = Some w
    /\ isCompleted (client w) = true
    /\ armed w = [mkTimer 2 2900 CompletionFallback;
                  mkTimer 3 5900 SafetyCleanup].
Proof.
  eexists. split; [vm_compute; reflexivity|]. split; reflexivity.
Qed.

Lemma C9_fallback_then_safety_witness :
  exists w w1 w2 wg w3,
    run Scenario.random Scenario.retrying Scenario.job = Some w
    /\ isCompleted (client w) = false
    /\ List.length (timers w) = 1
    /\ step Scenario.random 900%Z RequestSuccess w = Some w1
    /\ run Scenario.random Scenario.reconnected w1 = Some w2
    /\ isCompleted (client w2) = false
    /\ step Scenario.random 2900%Z (Timeout 3) w2 = Some wg
    /\ step Scenario.random 5900%Z (Timeout 4) wg = Some w3
    /\ cleanupCalls w3 = 2
    /\ closeCalls w3 = 2
    /\ timers w3 = [].
Proof.
  let r := eval vm_compute in (run Scenario.random Scenario.retrying Scenario.job) in
  match r with
  | Some ?w =>
      let r1 := eval vm_compute in (step Scenario.random 900%Z RequestSuccess w) in
      match r1 with
      | Some ?w1 =>
          let r2 := eval vm_compute in (run Scenario.random Scenario.reconnected w1) in
          match r2 with
          | Some ?w2 =>
              exists w, w1, w2;
              assert (H : run Scenario.random Scenario.retrying Scenario.job = Some w)
                by (vm_compute; reflexivity);
              assert (H0 : isCompleted (client w) = false) by reflexivity;
              assert (H1 : step Scenario.random 900%Z RequestSuccess w = Some w1)
                by (vm_compute; reflexivity);
              assert (H2 : run Scenario.random Scenario.reconnected w1 = Some w2)
                by (vm_compute; reflexivity);
              assert (H3 : isCompleted (client w2) = false) by reflexivity;
              assert (Hc : closeCalls w2 = 1) by reflexivity;
              destruct (C9_fallback_then_safety Scenario.random "doc-3"
                          (Some "contract.pdf") 0 Registry.fresh
                          Scenario.retrying 900%Z w w1 H H1)
                as (_ & _ & Hrest);
              destruct (Hrest Scenario.reconnected w2 2900%Z H2 H3
                          ltac:(vm_compute; discriminate)
                          ltac:(vm_compute; discriminate))
                as (_ & wg & Hg & _ & _ & _ & Hcl & _ & _ & _ & Hsafe);
              destruct (Hsafe 5900%Z ltac:(vm_compute; discriminate)
                              ltac:(vm_compute; discriminate))
                as (w3 & Hs3 & _ & Hc3 & Hcl3 & Ht3 & _);
              exists wg, w3
          end
      end
  end.
  split; [exact H|]. split; [exact H0|]. split; [reflexivity|].
  split; [exact H1|]. split; [exact H2|]. split; [exact H3|].
  split; [exact Hg|]. split; [exact Hs3|]. split; [exact Hc3|].
  split; [rewrite Hcl3, Hcl, Hc; reflexivity | exact Ht3].
Defined.

(** Scenario C on the code: [cleanup] is invoked by the fallback at 2900
    and again by the hard-safety timer at 5900. *)
Lemma C9_counterexample :
  exists w,
    run Scenario.random Scenario.resolved Scenario.job = Some w
    /\ isCompleted (client (runTimers Scenario.random w)) = true
    /\ Registry.isActive "doc-3" (registry (client (runTimers Scenario.random w)))
       = false
    /\ cleanupCalls (runTimers Scenario.random w) = 2.
Proof.
  eexists. split; [vm_compute; reflexivity|].
  split; [reflexivity|]. split; reflexivity.
Qed.

End ArbitrationRuns.

(** ** The scenarios of the specification, run on the code *)

Section SpecScenarios.
Import Browser Channel Arbiter.

(** Scenario A: start, two steps, complete. *)
Example scenario_A :
  let s := Registry.dispatch (Registry.CompleteOperation "doc-1" 200)
                             Scenario.reporting in
  Registry.activeOperations s = []
  /\ option_map Registry.documentId (hd_error (Registry.history s)) = Some "doc-1"
  /\ option_map Registry.status (hd_error (Registry.history s))
     = Some Registry.StatusCompleted
  /\ option_map (fun op => List.length (Registry.steps op))
                (hd_error (Registry.history s)) = Some 2%nat.
Proof. vm_compute. auto. Qed.

(** Scenario B: the stream reports an error before the request resolves;
    the successful resolution that follows changes nothing in the
    registry. *)
Example scenario_B :
  exists w w',
    run Scenario.random
        [(100, Open); (300, Message (Typed TError None)); (500, Timeout 1%nat)]%Z
        Scenario.job = Some w
    /\ step Scenario.random 900 RequestSuccess w = Some w'
    /\ isCompleted (client w) = true
    /\ registry (client w') = registry (client w)
    /\ option_map Registry.status (hd_error (Registry.history (registry (client w'))))
       = Some Registry.StatusError.
Proof.
  eexists. eexists.
  split; [vm_compute; reflexivity|].
  split; [vm_compute; reflexivity|].
  repeat split; reflexivity.
Qed.

End SpecScenarios.

(* ================================================================== *)
(** * Further properties of the code                                   *)
(* ================================================================== *)

(** ** The registry: starting, reporting, removing *)

Section RegistryLookup.
Import Registry.

Lemma existsb_keys_has {V} k (m : JSMap.t V) :
  existsb (String.eqb k) (JSMap.keys m) = JSMap.has k m.
Proof.
  unfold JSMap.has, JSMap.get, JSMap.keys.
  induction m as [|[k' v] m IH]; simpl; [reflexivity|].
  rewrite (String.eqb_sym k k'). destruct (String.eqb k' k); simpl; auto.
Qed.

(** X1. [startOperation] makes the id active under a fresh entry (no
    steps, started now) whatever was there: an entry already active under
    the id is replaced, its steps discarded, and keeps its place in the
    map; a new id goes last.  Every other id is looked up as before and
    history is untouched. *)
Theorem start_lookup (s : State) (d : string) (f : option string) (now : Z) :
  let s' := dispatch (StartOperation d f now) s in
  (forall d',
      getOperation d' s'
      = if String.eqb d' d
        then Some (mkOperation d f StatusActive [] now None None)
        else getOperation d' s)
  /\ JSMap.keys (activeOperations s')
     = (if isActive d s then JSMap.keys (activeOperations s)
        else JSMap.keys (activeOperations s) ++ [d])%list
  /\ history s' = history s.
Proof.
  cbv zeta. destruct (dispatch_start d f now s) as [Ha Hh].
  unfold getOperation, isActive. rewrite Ha, Hh.
  split; [|split; [|reflexivity]].
  - intros d'. destruct (String.eqb_spec d' d) as [-> | Hne].
    + apply get_set_same.
    + now apply get_set_other.
  - rewrite keys_set.
    pose proof (existsb_keys_has d (activeOperations s)) as E.
    now rewrite E.
Qed.


(** X3. [removeOperation] forgets the id without a history record, and
    leaves every other id alone; a terminal transition requested for the
    id afterwards changes nothing, so a removed operation never reaches
    the history. *)
Theorem remove_forgets (s : State) (d : string) :
  let s' := dispatch (RemoveOperation d) s in
  (forall d', getOperation d' s'
              = if String.eqb d' d then None else getOperation d' s)
  /\ history s' = history s
  /\ (forall c, terminalFor d c = true -> dispatch c s' = s').
Proof.
  cbv zeta. destruct (dispatch_remove d s) as [Ha Hh].
  assert (H1 : forall d', getOperation d' (dispatch (RemoveOperation d) s)
              = if String.eqb d' d then None else getOperation d' s).
  { intros d'. unfold getOperation. rewrite Ha.
    destruct (String.eqb_spec d' d) as [-> | Hne].
    - apply get_delete_same.
    - now apply get_delete_other. }
  split; [exact H1 | split; [exact Hh|]].
  intros c Ht. apply (terminal_absent d c _ Ht).
  now rewrite H1, String.eqb_refl.
Qed.

Lemma remove_forgets_witness :
  isActive "doc-1" Scenario.reporting = true
  /\ terminalFor "doc-1" (CompleteOperation "doc-1" 200) = true
  /\ dispatch (CompleteOperation "doc-1" 200)
              (dispatch (RemoveOperation "doc-1") Scenario.reporting)
     = dispatch (RemoveOperation "doc-1") Scenario.reporting
  /\ history (dispatch (RemoveOperation "doc-1") Scenario.reporting) = [].
Proof.
  destruct (remove_forgets Scenario.reporting "doc-1") as (_ & Hh & Hterm).
  split; [reflexivity|]. split; [reflexivity|].
  split; [apply Hterm; reflexivity|].
  rewrite Hh. reflexivity.
Defined.

End RegistryLookup.

(** ** Progress steps and updaters invoked again *)

Section ProgressSteps.
Import Progress.
Local Open Scope nat_scope.























(** Entries stay separate: a start gives the id an array of its own. *)
Lemma read_grown a (h : Arrays) : a < List.length h -> read a (h ++ [[]])%list = read a h.
Proof. intros Ha. unfold read. now rewrite app_nth1. Qed.

Lemma read_new (h : Arrays) : read (List.length h) (h ++ [[]])%list = [].
Proof. unfold read. rewrite app_nth2, Nat.sub_diag; [reflexivity | lia]. Qed.

Lemma separate_startOperation d f now m h :
  separate m h ->
  separate (fst (startOperation d f now (m, h)))
           (snd (startOperation d f now (m, h))).
Proof.
  intros [Hnd Hin]. cbn [startOperation fst snd].
  set (o := mkObject d f Registry.StatusActive (List.length h) now None None).
  rewrite Forall_forall in Hin. split.
  - assert (Hnew : ~ In (List.length h) (map (fun kv => steps (snd kv)) m)).
    { intros H. apply in_map_iff in H as [kv [E Hkv]].
      specialize (Hin _ Hkv). lia. }
    clear Hin. induction m as [|[k v] m IH]; cbn.
    + repeat constructor. intros [].
    + inversion Hnd as [|? ? Hnot Hnd']; subst.
      destruct (String.eqb k d); cbn.
      * constructor; [|exact Hnd']. intros H. apply Hnew. now right.
      * constructor.
        -- intros H. apply in_map_iff in H as [kv [E Hkv]].
           destruct (In_set _ _ _ _ Hkv) as [-> | Hold].
           ++ apply Hnew. left. cbn in E. now rewrite E.
           ++ apply Hnot. rewrite <- E.
              now apply (in_map (fun kv => steps (snd kv))).
        -- apply IH; [exact Hnd'|]. intros H. apply Hnew. now right.
  - apply Forall_forall. intros kv Hkv. rewrite length_app. cbn [List.length].
    destruct (In_set _ _ _ _ Hkv) as [-> | Hold]; [cbn; lia|].
    specialize (Hin _ Hold). lia.
Qed.

(** On the entries, this is [Registry.startOperation]. *)
Lemma startOperation_is_dispatch d f now m h s :
  separate m h ->
  Registry.activeOperations s = viewMap h m ->
  Registry.activeOperations (Registry.dispatch (Registry.StartOperation d f now) s)
  = viewMap (snd (startOperation d f now (m, h)))
            (fst (startOperation d f now (m, h))).
Proof.
  intros [_ Hin] Hs. rewrite (proj1 (dispatch_start d f now s)), Hs.
  cbn [startOperation fst snd]. rewrite Forall_forall in Hin. clear Hs.
  induction m as [|[k v] m IH]; cbn.
  - unfold view. cbn. now rewrite read_new.
  - destruct (String.eqb k d); cbn.
    + f_equal; [unfold view; cbn; now rewrite read_new|].
      unfold viewMap. apply map_ext_in. intros kv Hkv. unfold view.
      rewrite read_grown; [reflexivity|]. apply (Hin kv). now right.
    + f_equal.
      * unfold view. rewrite read_grown; [reflexivity|].
        apply (Hin (k, v)). now left.
      * apply IH. intros kv Hkv. apply Hin. now right.
Qed.



End ProgressSteps.

(** ** The registry and its storage *)

Section StorageMirror.
Import Registry Persistence.
Implicit Types (s : State) (d : string) (c : Call) (calls : list Call)
         (m : JSMap.t ProgressOperation).

Lemma wellKeyed_set k op m :
  wellKeyed m -> documentId op = k -> wellKeyed (JSMap.set k op m).
Proof.
  intros [Hk Hn] Hop. split; [now apply keyed_set | now apply NoDup_keys_set].
Qed.

Lemma wellKeyed_delete k m : wellKeyed m -> wellKeyed (JSMap.delete k m).
Proof.
  intros [Hk Hn]. split; [now apply keyed_delete|].
  unfold JSMap.delete, JSMap.keys. now apply filter_keeps_NoDup.
Qed.

Lemma wellKeyed_filter (p : string * ProgressOperation -> bool) m :
  wellKeyed m -> wellKeyed (filter p m).
Proof.
  intros [Hk Hn]. split.
  - unfold keyed in *. rewrite Forall_forall in *. intros kv Hin.
    apply filter_In in Hin as [Hin _]. auto.
  - unfold JSMap.keys. now apply filter_keeps_NoDup.
Qed.

Lemma wellKeyed_step c s :
  wellKeyed (activeOperations s) -> wellKeyed (activeOperations (dispatch c s)).
Proof.
  intros Hw. pose proof (terminalFor_self c) as Hself.
  assert (Hterm : forall d, terminalFor d c = true ->
                       wellKeyed (activeOperations (dispatch c s))).
  { intros d Ht. rewrite (active_terminal d c s Ht).
    destruct (getOperation d s); [now apply wellKeyed_delete | exact Hw]. }
  destruct c as [d f now | d m ty idNow random now | d now | d err now | d | ].
  - rewrite (proj1 (dispatch_start _ _ _ _)). now apply wellKeyed_set.
  - pose proof (proj2 (dispatch_addProgress d m ty idNow random now s)) as H.
    destruct (getOperation d s) as [op|] eqn:E.
    + destruct H as [step ->]. apply wellKeyed_set; [exact Hw|].
      simpl. now apply (keyed_get _ _ _ (proj1 Hw)).
    + now rewrite H.
  - eapply Hterm, Hself.
  - eapply Hterm, Hself.
  - rewrite (proj1 (dispatch_remove _ _)). now apply wellKeyed_delete.
  - now rewrite (proj1 (dispatch_clear _)).
Qed.

Lemma wellKeyed_run calls s :
  wellKeyed (activeOperations s) -> wellKeyed (activeOperations (run calls s)).
Proof.
  revert s. induction calls as [|c calls IH]; intros s Hw; simpl; [exact Hw|].
  apply IH. now apply wellKeyed_step.
Qed.

Lemma filter_twice {A} (p q : A -> bool) (l : list A) :
  filter q (filter p l) = filter (fun x => p x && q x) l.
Proof.
  induction l as [|a l IH]; simpl; [reflexivity|].
  destruct (p a) eqn:Ep; simpl; [destruct (q a)|]; now rewrite IH.
Qed.

(** Deleting the stale entries one by one, as the [forEach] loop does, is
    a filter of the map. *)
Lemma dropFrom_filter now (l : list ProgressOperation) m :
  dropFrom now l m
  = filter (fun kv =>
              negb (existsb (fun op => isStale now op
                                       && String.eqb (fst kv) (documentId op)) l))
           m.
Proof.
  unfold dropFrom. revert m.
  induction l as [|op l IH]; intros m; simpl.
  - induction m as [|kv m IHm]; simpl; [reflexivity | now rewrite <- IHm].
  - rewrite IH. destruct (isStale now op) eqn:Es; simpl; [|reflexivity].
    unfold JSMap.delete. rewrite filter_twice. apply filter_ext.
    intros kv. now destruct (String.eqb (fst kv) (documentId op)).
Qed.

Lemma wellKeyed_entry m kv kv' :
  wellKeyed m -> In kv m -> In kv' m -> fst kv' = fst kv -> kv' = kv.
Proof.
  intros [_ Hn] H1 H2 E. destruct kv as [k v], kv' as [k' v']. simpl in E.
  subst k'. apply (NoDup_keys_get _ _ _ Hn) in H1, H2. congruence.
Qed.

Lemma dropStale_recent now m : wellKeyed m -> dropStale now m = recent now m.
Proof.
  intros Hw. unfold dropStale, recent. rewrite dropFrom_filter.
  apply filter_ext_in. intros kv Hin. f_equal.
  assert (Hk : documentId (snd kv) = fst kv).
  { destruct Hw as [Hk _]. unfold keyed in Hk. rewrite Forall_forall in Hk. auto. }
  destruct (isStale now (snd kv)) eqn:Es.
  - apply existsb_exists. exists (snd kv). split.
    + apply in_map_iff. eauto.
    + now rewrite Es, Hk, String.eqb_refl.
  - destruct (existsb _ _) eqn:Ex; [|reflexivity].
    apply existsb_exists in Ex as [op [Hop Hp]].
    apply andb_true_iff in Hp as [Hst Heq]. apply String.eqb_eq in Heq.
    apply in_map_iff in Hop as [kv' [<- Hin']].
    assert (Hk' : documentId (snd kv') = fst kv').
    { destruct Hw as [Hk' _]. unfold keyed in Hk'. rewrite Forall_forall in Hk'. auto. }
    assert (kv' = kv) by (apply (wellKeyed_entry m); congruence).
    congruence.
Qed.

Lemma wellKeyed_loadActive st : wellKeyed (loadActive st).
Proof. split; [apply loadActive_keyed | apply loadActive_keys]. Qed.

Lemma wellKeyed_mount now st : wellKeyed (activeOperations (mount now st)).
Proof.
  rewrite active_mount. fold (dropStale now (loadActive st)).
  rewrite dropStale_recent by apply wellKeyed_loadActive.
  apply wellKeyed_filter, wellKeyed_loadActive.
Qed.











End StorageMirror.

(** ** The registry: which ids are active, and what entries look like *)

Section RegistryIntegrity.
Import Registry Persistence Integrity.
Implicit Types (s : State) (d : string) (c : Call) (calls : list Call)
         (m : JSMap.t ProgressOperation).

Lemma isActive_step d c s :
  isActive d (dispatch c s)
  = match verdict d c with Some b => b | None => isActive d s end.
Proof.
  unfold isActive.
  destruct c as [d' f t | d' msg ty idNow random t | d' t | d' err t | d' | ];
    cbn [verdict].
  - rewrite (proj1 (dispatch_start _ _ _ _)), has_set.
    now destruct (String.eqb d' d).
  - pose proof (proj2 (dispatch_addProgress d' msg ty idNow random t s)) as H.
    destruct (getOperation d' s) as [op|] eqn:E.
    + destruct H as [step ->]. rewrite has_set.
      destruct (String.eqb_spec d' d) as [-> | Hne]; [|reflexivity].
      unfold JSMap.has. unfold getOperation in E. now rewrite E.
    + now rewrite H.
  - assert (Ht : terminalFor d' (CompleteOperation d' t) = true)
      by apply String.eqb_refl.
    rewrite (active_terminal d' _ s Ht).
    destruct (getOperation d' s) as [op|] eqn:E.
    + rewrite has_delete. now destruct (String.eqb d' d).
    + destruct (String.eqb_spec d' d) as [-> | Hne]; [|reflexivity].
      unfold JSMap.has. unfold getOperation in E. now rewrite E.
  - assert (Ht : terminalFor d' (ErrorOperation d' err t) = true)
      by apply String.eqb_refl.
    rewrite (active_terminal d' _ s Ht).
    destruct (getOperation d' s) as [op|] eqn:E.
    + rewrite has_delete. now destruct (String.eqb d' d).
    + destruct (String.eqb_spec d' d) as [-> | Hne]; [|reflexivity].
      unfold JSMap.has. unfold getOperation in E. now rewrite E.
  - rewrite (proj1 (dispatch_remove _ _)), has_delete.
    now destruct (String.eqb d' d).
  - now rewrite (proj1 (dispatch_clear _)).
Qed.

(** X7. An id is active exactly when the last call that concerned it was
    a [startOperation]: a start makes it active, a complete, error or
    remove makes it inactive, and progress reports and [clearHistory]
    leave it as it is. *)
Theorem active_iff_last_start (s : State) (d : string) (calls : list Call) :
  isActive d (run calls s) = lastVerdict d calls (isActive d s).
Proof.
  unfold lastVerdict. revert s.
  induction calls as [|c calls IH]; intros s; simpl; [reflexivity|].
  now rewrite IH, isActive_step.
Qed.

Lemma forallb_firstn {A} (p : A -> bool) n (l : list A) :
  forallb p l = true -> forallb p (firstn n l) = true.
Proof.
  revert n. induction l as [|a l IH]; intros [|n]; simpl; auto.
  intros H. apply andb_true_iff in H as [Ha Hl]. rewrite Ha. now apply IH.
Qed.

Lemma pending_set k op m :
  forallb isPending (JSMap.values m) = true ->
  isPending op = true ->
  forallb isPending (JSMap.values (JSMap.set k op m)) = true.
Proof.
  unfold JSMap.values. rewrite !forallb_forall. intros Hm Hop x Hin.
  apply in_map_iff in Hin as [kv [<- Hin]].
  destruct (In_set _ _ _ _ Hin) as [-> | Hold]; [exact Hop|].
  apply Hm. apply in_map_iff. eauto.
Qed.

Lemma pending_filter (p : string * ProgressOperation -> bool) m :
  forallb isPending (JSMap.values m) = true ->
  forallb isPending (JSMap.values (filter p m)) = true.
Proof.
  unfold JSMap.values. rewrite !forallb_forall. intros Hm x Hin.
  apply in_map_iff in Hin as [kv [<- Hin]]. apply filter_In in Hin as [Hin _].
  apply Hm. apply in_map_iff. eauto.
Qed.

Lemma pending_get d op s :
  forallb isPending (JSMap.values (activeOperations s)) = true ->
  getOperation d s = Some op -> isPending op = true.
Proof.
  intros Hm Hget. rewrite forallb_forall in Hm. apply Hm.
  apply get_In in Hget. unfold JSMap.values. apply in_map_iff.
  now exists (d, op).
Qed.

Lemma finished_isFinished c op entry :
  isPending op = true -> finished c op = Some entry -> isFinished entry = true.
Proof.
  unfold isPending, isFinished. destruct op as [d f st stps t0 ca er].
  cbn. destruct st, ca, er; try discriminate. intros _.
  destruct c; cbn; intros [= <-]; reflexivity.
Qed.

Lemma consistent_step c s : consistent s -> consistent (dispatch c s).
Proof.
  intros [Hh Ha]. unfold consistent.
  pose proof (terminalFor_self c) as Hself.
  assert (Hterm : forall d, terminalFor d c = true -> consistent (dispatch c s)).
  { intros d Ht. unfold consistent.
    rewrite (history_terminal d c s Ht), (active_terminal d c s Ht).
    destruct (getOperation d s) as [op|] eqn:E; [|auto].
    split; [|now apply pending_filter].
    destruct (isDuplicate _ _ _); [exact Hh|].
    destruct (finished c op) as [entry|] eqn:Ef; [|exact Hh].
    apply forallb_firstn. cbn [forallb].
    rewrite (finished_isFinished c op entry (pending_get d op s Ha E) Ef).
    exact Hh. }
  destruct c as [d f t | d msg ty idNow random t | d t | d err t | d | ].
  - destruct (dispatch_start d f t s) as [-> ->]. split; [exact Hh|].
    now apply pending_set.
  - destruct (dispatch_addProgress d msg ty idNow random t s) as [-> H].
    split; [exact Hh|].
    destruct (getOperation d s) as [op|] eqn:E; [|now rewrite H].
    destruct H as [step ->]. apply pending_set; [exact Ha|].
    pose proof (pending_get d op s Ha E) as Hp.
    unfold isPending in *. now destruct op.
  - eapply Hterm, Hself.
  - eapply Hterm, Hself.
  - destruct (dispatch_remove d s) as [-> ->]. split; [exact Hh|].
    now apply pending_filter.
  - destruct (dispatch_clear s) as [-> ->]. split; [reflexivity | exact Ha].
Qed.

Lemma consistent_mount now st :
  consistentStorage st -> consistent (mount now st).
Proof.
  intros [Hh Ha]. unfold consistent.
  assert (Hload : forallb isPending (JSMap.values (loadActive st)) = true).
  { unfold loadActive. destruct (classification_active st) as [parsed|];
      [|reflexivity].
    unfold JSMap.values. rewrite forallb_forall in *. intros x Hin.
    apply in_map_iff in Hin as [kv [<- Hin]].
    apply In_of_entries, in_map_iff in Hin as [op [<- Hop]]. now apply Ha. }
  split.
  - rewrite history_mount.
    destruct (staleOps now (loadActive st)) as [|e l] eqn:E; [exact Hh|].
    apply forallb_firstn. rewrite <- E. rewrite forallb_app, Hh, andb_true_r.
    unfold staleOps. rewrite forallb_forall. intros x Hin.
    apply in_map_iff in Hin as [op [<- Hin]].
    apply filter_In in Hin as [Hin _].
    rewrite forallb_forall in Hload. specialize (Hload op Hin).
    unfold isPending, isFinished, interrupt in *. now destruct op.
  - rewrite active_mount. fold (dropStale now (loadActive st)).
    rewrite dropStale_recent by apply wellKeyed_loadActive.
    now apply pending_filter.
Qed.

(** X8. Status, end time and error of every entry agree.  When what is
    stored is well formed (in particular on a first visit), then after
    the mount and any calls every active entry has status active, no end
    time and no error and is stored under its own id, and every history
    entry is either completed, with an end time and no error, or failed,
    with an end time and an error message. *)
Theorem entries_are_consistent (now : Z) (st : Storage) (calls : list Call) :
  consistentStorage st ->
  let s := run calls (mount now st) in
  forallb isFinished (history s) = true
  /\ forall d op, getOperation d s = Some op ->
                  isPending op = true /\ documentId op = d.
Proof.
  intros Hst. cbv zeta.
  assert (Hc : consistent (run calls (mount now st))).
  { generalize (consistent_mount now st Hst). generalize (mount now st).
    induction calls as [|c calls IH]; intros s Hs; simpl; [exact Hs|].
    apply IH. now apply consistent_step. }
  destruct Hc as [Hh Ha]. split; [exact Hh|].
  intros d op Hget. split; [now apply (pending_get d op _ Ha)|].
  apply (keyed_get d op (activeOperations (run calls (mount now st)))).
  - apply wellKeyed_run, wellKeyed_mount.
  - exact Hget.
Qed.

Lemma entries_are_consistent_witness :
  consistentStorage Scenario.stored
  /\ forallb isFinished
       (history (run Cases.thenFailed (mount 1000000 Scenario.stored))) = true
  /\ List.length (history (run Cases.thenFailed (mount 1000000 Scenario.stored)))
     = 2.
Proof.
  assert (H : consistentStorage Scenario.stored) by (split; reflexivity).
  destruct (entries_are_consistent 1000000 Scenario.stored Cases.thenFailed H)
    as [Hh _].
  split; [exact H|]. split; [exact Hh | reflexivity].
Defined.

Lemma other_step d c s :
  keyed (activeOperations s) ->
  names d c = false ->
  getOperation d (dispatch c s) = getOperation d s
  /\ occurrences d (history (dispatch c s)) <= occurrences d (history s).
Proof.
  intros Hk Hn.
  assert (Hterm : forall d', terminalFor d' c = true -> String.eqb d' d = false ->
             getOperation d (dispatch c s) = getOperation d s
             /\ occurrences d (history (dispatch c s))
                <= occurrences d (history s)).
  { intros d' Ht Hne. apply String.eqb_neq in Hne. split.
    - unfold getOperation at 1. rewrite (active_terminal d' c s Ht).
      destruct (getOperation d' s); [|reflexivity].
      apply get_delete_other. congruence.
    - rewrite (history_terminal d' c s Ht).
      destruct (getOperation d' s) as [op|] eqn:E; [|lia].
      destruct (isDuplicate _ _ _); [lia|].
      destruct (finished c op) as [entry|] eqn:Ef; [|lia].
      destruct (finished_fields _ _ _ Ef) as (Hd & _ & _).
      pose proof (keyed_get _ _ _ Hk E) as Hop.
      unfold occurrences. etransitivity; [apply filter_firstn_le|].
      cbn [filter]. rewrite Hd, Hop.
      destruct (String.eqb_spec d' d) as [-> | _]; [congruence | lia]. }
  destruct c as [d' f t | d' msg ty idNow random t | d' t | d' err t | d' | ];
    cbn [names] in Hn.
  - destruct (dispatch_start d' f t s) as [Ha ->]. split; [|lia].
    unfold getOperation. rewrite Ha. apply get_set_other.
    apply String.eqb_neq in Hn. congruence.
  - destruct (dispatch_addProgress d' msg ty idNow random t s) as [-> H].
    split; [|lia]. unfold getOperation at 1.
    destruct (getOperation d' s) as [op|]; [|now rewrite H].
    destruct H as [step ->]. apply get_set_other.
    apply String.eqb_neq in Hn. congruence.
  - apply (Hterm d'); [apply String.eqb_refl | exact Hn].
  - apply (Hterm d'); [apply String.eqb_refl | exact Hn].
  - destruct (dispatch_remove d' s) as [Ha ->]. split; [|lia].
    unfold getOperation. rewrite Ha. apply get_delete_other.
    apply String.eqb_neq in Hn. congruence.
  - destruct (dispatch_clear s) as [Ha ->]. split; [|cbn; lia].
    unfold getOperation. now rewrite Ha.
Qed.

(** X9. Documents do not interfere: calls made for other ids, and
    [clearHistory], leave the active entry of an id exactly as it is,
    steps included, and never add a history entry for it. *)
Theorem other_ids_do_not_interfere (now : Z) (st : Storage)
        (before calls : list Call) (d : string) :
  others d calls = true ->
  let s := run before (mount now st) in
  getOperation d (run calls s) = getOperation d s
  /\ occurrences d (history (run calls s)) <= occurrences d (history s).
Proof.
  intros Hall. cbv zeta.
  assert (Hk : keyed (activeOperations (run before (mount now st))))
    by apply wellKeyed_run, wellKeyed_mount.
  revert Hk Hall. generalize (run before (mount now st)) as s.
  induction calls as [|c calls IH]; intros s Hk Hall;
    [split; [reflexivity | apply Nat.le_refl]|].
  change (run (c :: calls) s) with (run calls (dispatch c s)).
  unfold others in Hall. cbn [forallb] in Hall.
  apply andb_true_iff in Hall as [Hc Hall]. apply negb_true_iff in Hc.
  destruct (other_step d c s Hk Hc) as [H1 H2].
  destruct (IH (dispatch c s) (keyed_step c s Hk) Hall) as [H3 H4].
  split; [congruence | lia].
Qed.

Lemma other_ids_do_not_interfere_witness :
  others "doc-recent" Cases.onDoc7 = true
  /\ getOperation "doc-recent"
       (run Cases.onDoc7
            (run Cases.afterReload (mount 1000000 Scenario.stored)))
     = Some Scenario.docRecent.
Proof.
  assert (H : others "doc-recent" Cases.onDoc7 = true) by reflexivity.
  destruct (other_ids_do_not_interfere 1000000 Scenario.stored
              Cases.afterReload Cases.onDoc7 "doc-recent" H) as [Hsame _].
  split; [exact H|]. rewrite Hsame. reflexivity.
Defined.

End RegistryIntegrity.

(** ** The event-stream client: frames, cleanup, the retry timer *)

Section FrameDelivery.
Import Browser Channel Subscriber Delivery.
Local Open Scope nat_scope.

Lemma callbacks_cons a tr :
  callbacks (a :: tr)
  = (callbacks tr ++ (if isCallback a then [a] else []))%list.
Proof.
  unfold callbacks. simpl. destruct (isCallback a); simpl;
    [reflexivity | now rewrite app_nil_r].
Qed.

(** X10. Frames are handled in the order of their arrival: each progress frame
    invokes [onProgress] with its message, frames that are keepalives,
    malformed, of another type or without a message are skipped and leave
    the subscription as it is, and a complete or error frame invokes its
    callback, releases the subscription and is the last frame handled. *)
Theorem frames_in_order (urlOk : bool) (fs : list (Z * Frame)) (w w' : W) :
  run urlOk (messages fs) w = Some w' ->
  callbacks (trace w')
  = (callbacks (trace w) ++ flat_map callbackOf (map snd fs))%list
  /\ forallb (fun f => negb (isTerminal f)) (removelast (map snd fs)) = true
  /\ (if existsb isTerminal (map snd fs)
      then released (client w')
      else client w' = client w /\ timers w' = timers w).
Proof.
  revert w. induction fs as [|[t f] fs IH]; intros w; simpl.
  - intros [= <-]. rewrite app_nil_r. auto.
  - unfold step. destruct (t <? clock w)%Z; [discriminate|].
    unfold deliverMessage.
    destruct w as [clk tms nh [es att man rt] tr]. cbn.
    destruct es as [[| |]|]; try discriminate.
    destruct (isTerminal f) eqn:Et.
    + (* a terminal frame ends the stream *)
      assert (Hdead : exists tms' tr',
                 onmessage getVars setVars onProgress onComplete onError f
                   (withClock t (mkWorld clk tms nh (mkVars (Some OPEN) att man rt) tr))
                 = mkWorld t tms' nh (mkVars None att true None) tr'
                 /\ callbacks tr' = (callbacks tr ++ callbackOf f)%list).
      { destruct f as [| |[| | | |] msg]; try discriminate; destruct rt;
          cbv -[callbacks app]; eexists; eexists; (split; [reflexivity|]);
          rewrite !callbacks_cons; cbn; now rewrite !app_nil_r. }
      destruct Hdead as (tms' & tr' & -> & Hcb).
      destruct fs as [|[t2 f2] fs]; simpl.
      * intros [= <-]. cbn [trace client map snd flat_map existsb removelast forallb].
        rewrite Hcb, app_nil_r. repeat split.
      * unfold step. destruct (t2 <? _)%Z; discriminate.
    + assert (Hkeep : exists tr',
                 onmessage getVars setVars onProgress onComplete onError f
                   (withClock t (mkWorld clk tms nh (mkVars (Some OPEN) att man rt) tr))
                 = mkWorld t tms nh (mkVars (Some OPEN) att man rt) tr'
                 /\ callbacks tr' = (callbacks tr ++ callbackOf f)%list).
      { destruct f as [| |[| | | |] [m|]]; try discriminate;
          cbv -[callbacks app]; eexists; (split; [reflexivity|]);
          rewrite ?callbacks_cons; cbn; now rewrite ?app_nil_r. }
      destruct Hkeep as (tr' & -> & Hcb).
      intros Hrun. destruct (IH _ Hrun) as (H1 & H2 & H3).
      cbn [trace client timers] in H1, H3.
      cbn [trace client timers map snd flat_map existsb].
      rewrite H1, Hcb, <- app_assoc, ?Et. split; [reflexivity|]. split.
      * destruct (map snd fs) eqn:E; [reflexivity|].
        change (removelast (f :: f0 :: l)) with (f :: removelast (f0 :: l)).
        cbn [forallb]. rewrite Et. exact H2.
      * exact H3.
Qed.

Lemma frames_in_order_witness :
  exists w w',
    run true Cases.opened (subscribe true 0) = Some w
    /\ run true (messages Cases.stream) w = Some w'
    /\ callbacks (trace w')
       = [OnProgress "Extracting"; OnProgress "Classifying"; OnComplete]
    /\ released (client w').
Proof.
  let r := eval vm_compute in (run true Cases.opened (subscribe true 0)) in
  match r with
  | Some ?w =>
      let r' := eval vm_compute in (run true (messages Cases.stream) w) in
      match r' with
      | Some ?w' =>
          exists w, w';
          assert (H0 : run true Cases.opened (subscribe true 0) = Some w)
            by (vm_compute; reflexivity);
          assert (H1 : run true (messages Cases.stream) w = Some w')
            by (vm_compute; reflexivity);
          pose proof (frames_in_order true Cases.stream w w' H1)
            as (Hcb & _ & Hrel)
      end
  end.
  split; [exact H0|]. split; [exact H1|]. split; [exact Hcb | exact Hrel].
Defined.

Lemma cleanup_releases (w : W) : released (client (cleanup w)).
Proof.
  destruct w as [clk tms nh [es att man rt] tr]. unfold released.
  destruct es, rt; cbn; auto.
Qed.

(** [cleanup] is idempotent: the first call leaves the subscription
    released and closes the EventSource if there is one; a second call
    changes neither the variables of the subscription nor the timers and
    closes nothing. *)
Lemma cleanup_idempotent (w : W) :
  let w1 := cleanup w in
  released (client w1)
  /\ client (cleanup w1) = client w1
  /\ timers (cleanup w1) = timers w1
  /\ trace (cleanup w1) = Cleanup :: trace w1
  /\ count isClose (trace w1)
     = count isClose (trace w)
       + (match eventSource (client w) with Some _ => 1 | None => 0 end).
Proof.
  destruct w as [clk tms nh [es att man rt] tr]. unfold released, count.
  destruct es, rt; cbn; repeat split; lia.
Qed.

(** X11. Nothing is invoked after [cleanup]: whatever happens next (stale
    timers firing, further calls of [cleanup]), no callback runs, no
    connection is made, no timer is set; the trace grows by [Cleanup]
    entries only. *)
Theorem silent_after_cleanup (urlOk : bool) (w : W)
        (evs : list (Z * Event)) (w' : W) :
  run urlOk evs (cleanup w) = Some w' ->
  client w' = client (cleanup w)
  /\ nextHandle w' = nextHandle w
  /\ exists n, trace w' = (repeat Cleanup n ++ trace (cleanup w))%list.
Proof.
  assert (G : forall evs (w0 w' : W),
             released (client w0) ->
             run urlOk evs w0 = Some w' ->
             client w' = client w0 /\ nextHandle w' = nextHandle w0
             /\ exists n, trace w' = (repeat Cleanup n ++ trace w0)%list).
  { clear. induction evs as [|[t e] evs IH]; intros w0 w' Hrel; simpl.
    - intros [= <-]. repeat split. now exists 0.
    - destruct w0 as [clk tms nh [es att man rt] tr].
      destruct Hrel as (He & Hm & Hr). cbn in He, Hm, Hr. subst es man rt.
      unfold step. cbn [clock]. destruct (t <? clk)%Z; [discriminate|].
      destruct e as [| f | fatal | h |]; try discriminate.
      + unfold fire. cbn.
        destruct (find _ tms) as [tm|]; [|discriminate].
        destruct (due tm <=? t)%Z; [|discriminate].
        assert (E : (match callback tm with
                     | ReconnectCallback =>
                         reconnectCallback urlOk
                           (clearTimeout h (withClock t
                              (mkWorld clk tms nh (mkVars None att true None) tr)))
                     | _ => clearTimeout h (withClock t
                              (mkWorld clk tms nh (mkVars None att true None) tr))
                     end)
                    = clearTimeout h (withClock t
                        (mkWorld clk tms nh (mkVars None att true None) tr)))
          by (destruct (callback tm); reflexivity).
        cbn in E. cbn. rewrite E. intros Hrun.
        apply IH in Hrun; [exact Hrun | repeat split].
      + cbn. intros Hrun. apply IH in Hrun; [|repeat split].
        cbn in Hrun. destruct Hrun as (H1 & H2 & n & H3).
        repeat split; auto. exists (S n).
        rewrite H3. cbn. clear. induction n; cbn; [reflexivity|].
        now rewrite IHn. }
  intros Hrun. apply G in Hrun; [|apply cleanup_releases].
  destruct Hrun as (H1 & H2 & H3). repeat split; auto.
  rewrite H2. destruct w as [clk tms nh [es att man rt] tr].
  destruct es, rt; reflexivity.
Qed.

Lemma silent_after_cleanup_witness :
  exists w',
    run true Cases.afterCleanup (cleanup Cases.strayTimer) = Some w'
    /\ timers (cleanup Cases.strayTimer) <> []
    /\ client w' = client (cleanup Cases.strayTimer)
    /\ exists n, trace w'
                 = (repeat Cleanup n ++ trace (cleanup Cases.strayTimer))%list.
Proof.
  let r := eval vm_compute in
             (run true Cases.afterCleanup (cleanup Cases.strayTimer)) in
  match r with
  | Some ?w' =>
      exists w';
      assert (H : run true Cases.afterCleanup (cleanup Cases.strayTimer)
                  = Some w') by (vm_compute; reflexivity);
      pose proof (silent_after_cleanup true Cases.strayTimer
                    Cases.afterCleanup w' H) as (H1 & _ & H3)
  end.
  split; [exact H|]. split; [discriminate|]. split; [exact H1 | exact H3].
Defined.

Lemma oneRetry_step urlOk t e (w w' : W) :
  oneRetry w -> step urlOk t e w = Some w' -> oneRetry w'.
Proof.
  intros HT. unfold step. destruct (t <? clock w)%Z; [discriminate|].
  destruct w as [clk tms nh [es att man rt] tr].
  destruct HT as [Ht | (tm & Ht & Hk & Hr & He & Hm)]; cbn in *.
  - subst tms. destruct e as [| f | fatal | h |].
    + unfold deliverOpen. cbn. destruct es as [[| |]|]; try discriminate.
      intros [= <-]. now left.
    + unfold deliverMessage. cbn. destruct es as [[| |]|]; try discriminate.
      intros [= <-]. left.
      destruct f as [| |[| | | |] [m|]], rt; reflexivity.
    + unfold deliverError. cbn.
      destruct es as [[| |]|]; try discriminate; intros [= <-];
        destruct fatal; try (now left);
        destruct att as [|[|[|[|att]]]], man, rt; cbn;
        first [ now left | right; eexists; repeat split; reflexivity ].
    + unfold fire. cbn. discriminate.
    + intros [= <-]. left. destruct es, rt; reflexivity.
  - subst tms es man rt. destruct e as [| f | fatal | h |]; try discriminate.
    + unfold fire, findTimer. cbn.
      destruct (handle tm =? h) eqn:Eh; [|discriminate].
      destruct (due tm <=? t)%Z; [|discriminate]. intros [= <-].
      rewrite Hk. left. unfold reconnectCallback, Channel.reconnectCallback,
        clearTimeout. cbn. rewrite Eh. cbn.
      destruct urlOk; reflexivity.
    + intros [= <-]. left. cbn. now rewrite Nat.eqb_refl.
Qed.

Lemma oneRetry_run urlOk evs (w w' : W) :
  oneRetry w -> run urlOk evs w = Some w' -> oneRetry w'.
Proof.
  revert w. induction evs as [|[t e] evs IH]; intros w HT; simpl.
  - now intros [= <-].
  - destruct (step urlOk t e w) as [w1|] eqn:E; [|discriminate].
    apply IH. now apply (oneRetry_step urlOk t e w).
Qed.

(** X12. A subscription never has more than one retry pending, the pending
    retry is the one whose handle the subscription holds, and [cleanup]
    cancels it: after [cleanup] no timer is left that could reconnect. *)
Theorem cleanup_cancels_retry (urlOk : bool) (now : Z)
        (evs : list (Z * Event)) (w : W) :
  run urlOk evs (subscribe urlOk now) = Some w ->
  List.length (timers w) <= 1
  /\ (forall tm, In tm (timers w) ->
                 callback tm = ReconnectCallback
                 /\ reconnectTimer (client w) = Some (handle tm)
                 /\ eventSource (client w) = Some CLOSED)
  /\ timers (cleanup w) = [].
Proof.
  intros Hrun.
  assert (H0 : oneRetry (subscribe urlOk now)) by (left; now destruct urlOk).
  pose proof (oneRetry_run urlOk evs _ _ H0 Hrun) as HT.
  destruct w as [clk tms nh [es att man rt] tr].
  destruct HT as [Ht | (tm & Ht & Hk & Hr & He & Hm)]; cbn in *; subst.
  - split; [cbn; lia|]. split; [intros tm []|]. destruct es, rt; reflexivity.
  - split; [cbn; lia|]. split.
    + intros tm' [<- | []]. auto.
    + cbn. now rewrite Nat.eqb_refl.
Qed.

Lemma cleanup_cancels_retry_witness :
  exists w,
    run true Cases.failedOnce (subscribe true 0) = Some w
    /\ List.length (timers w) = 1
    /\ timers (cleanup w) = [].
Proof.
  let r := eval vm_compute in (run true Cases.failedOnce (subscribe true 0)) in
  match r with
  | Some ?w =>
      exists w;
      assert (H : run true Cases.failedOnce (subscribe true 0) = Some w)
        by (vm_compute; reflexivity);
      pose proof (cleanup_cancels_retry true 0 Cases.failedOnce w H)
        as (_ & _ & H3)
  end.
  split; [exact H|]. split; [reflexivity | exact H3].
Defined.

End FrameDelivery.

(** ** The event-stream client: connections created and closed *)

Section Connections.
Import Browser Channel Subscriber Leak.
Local Open Scope nat_scope.

Lemma unclosed_cons a tr :
  unclosed (a :: tr)
  = (unclosed tr + (if isNew a then 1 else 0) - (if isClose a then 1 else 0))%Z.
Proof.
  unfold unclosed, count. cbn [filter].
  destruct a; cbn [isNew isClose List.length]; lia.
Qed.

Ltac tally := rewrite ?unclosed_cons; cbn [isNew isClose]; lia.

Lemma accounted_step urlOk t e (w w' : W) :
  Inv urlOk w -> accounted w -> step urlOk t e w = Some w' -> accounted w'.
Proof.
  intros HI HA. unfold step. destruct (t <? clock w)%Z; [discriminate|].
  pose proof (inv_closed _ _ HI) as Hclosed.
  pose proof (inv_url _ _ HI) as Hurl.
  destruct w as [clk tms nh [es att man rt] tr].
  unfold accounted in *. cbn in HA, Hclosed, Hurl.
  destruct e as [| f | fatal | h |].
  - unfold deliverOpen. cbn.
    destruct es as [[| |]|]; try discriminate. intros [= <-]. cbn -[unclosed]. tally.
  - unfold deliverMessage. cbn.
    destruct es as [[| |]|]; try discriminate. intros [= <-].
    destruct f as [| |[| | | |] [m|]], rt; cbn -[unclosed]; tally.
  - unfold deliverError. cbn.
    destruct es as [[| |]|]; try discriminate; intros [= <-];
      destruct fatal; cbn -[unclosed]; try tally;
      destruct att as [|[|[|[|att]]]], man, rt; cbn -[unclosed]; tally.
  - unfold fire, findTimer. cbn.
    destruct (find _ tms) as [tm|] eqn:Ef; [|discriminate].
    destruct (due tm <=? t)%Z; [|discriminate]. intros [= <-].
    destruct (callback tm); cbn -[unclosed]; try exact HA.
    destruct urlOk.
    + destruct man.
      * rewrite Hclosed in * by reflexivity. cbn -[unclosed]. exact HA.
      * destruct es; cbn -[unclosed]; tally.
    + destruct (Hurl eq_refl) as [-> _]. discriminate.
  - intros [= <-]. destruct es, rt; cbn -[unclosed]; tally.
Qed.

Lemma accounted_run urlOk evs (w w' : W) :
  Inv urlOk w -> accounted w -> run urlOk evs w = Some w' -> accounted w'.
Proof.
  revert w. induction evs as [|[t e] evs IH]; intros w HI HA; simpl.
  - now intros [= <-].
  - destruct (step urlOk t e w) as [w1|] eqn:E; [|discriminate].
    apply IH; [now apply (Inv_step urlOk t e w) | now apply (accounted_step urlOk t e w)].
Qed.

(** X13. No connection is leaked: at any time the EventSource objects
    created and not closed are the one the subscription holds, if it
    holds one, and after [cleanup] every EventSource that was created has
    been closed. *)
Theorem no_connection_leaked (urlOk : bool) (now : Z)
        (evs : list (Z * Event)) (w : W) :
  run urlOk evs (subscribe urlOk now) = Some w ->
  unclosed (trace w)
  = match eventSource (client w) with Some _ => 1%Z | None => 0%Z end
  /\ count isNew (trace (cleanup w)) = count isClose (trace (cleanup w)).
Proof.
  intros Hrun.
  assert (H0 : accounted (subscribe urlOk now)) by (now destruct urlOk).
  pose proof (accounted_run urlOk evs _ _ (Inv_subscribe urlOk now) H0 Hrun)
    as HA.
  split; [exact HA|]. unfold accounted in HA.
  assert (Hc : unclosed (trace (cleanup w)) = 0%Z).
  { destruct w as [clk tms nh [es att man rt] tr]. cbn in HA.
    destruct es, rt; cbn -[unclosed]; tally. }
  unfold unclosed in Hc. lia.
Qed.

Lemma no_connection_leaked_witness :
  exists w,
    run true Scenario.dropped (subscribe true 0) = Some w
    /\ count isNew (trace w) = 4
    /\ count isClose (trace (cleanup w)) = 4.
Proof.
  let r := eval vm_compute in (run true Scenario.dropped (subscribe true 0)) in
  match r with
  | Some ?w =>
      exists w;
      assert (H : run true Scenario.dropped (subscribe true 0) = Some w)
        by (vm_compute; reflexivity);
      pose proof (no_connection_leaked true 0 Scenario.dropped w H) as [_ Heq]
  end.
  split; [exact H|]. split; [reflexivity|]. rewrite <- Heq. reflexivity.
Defined.

End Connections.

(** ** The completion arbiter and the registry *)

Section JobTracking.
Import Browser Channel Arbiter Tracking.
Local Open Scope nat_scope.
Variable mathRandom : nat -> string.

Ltac open_world w :=
  destruct w as [clk tms nh [d reg done ct st ph [es att man rt] rc] tr];
  cbn [client clock timers nextHandle trace docId registry isCompleted
       completionTimer cleanupTimer phase subscription randomCalls] in *.

Ltac crunch :=
  cbv -[Registry.dispatch Z.ltb Z.leb Z.add String.eqb app progressOf filter find
        mathRandom];
  cbn [progressOf].

Ltac same := match goal with |- ?x = ?y => constr_eq x y; exact eq_refl end.

Ltac is_sound := split; intros; first [ same | discriminate | now auto ].

(* the three outcomes of an event, on fully computed states *)
Ltac is_quiet := split; [same|]; split; [is_sound|]; left; repeat split; same.

Ltac is_report :=
  split; [same|]; split; [is_sound|]; right; left;
  split; [same|]; split; [same|];
  eexists; eexists; split; exact eq_refl.

Ltac is_settled c :=
  split; [same|]; split; [is_sound|]; right; right;
  split; [same|]; split; [same|]; split; [same|];
  exists c; split; [apply String.eqb_refl | exact eq_refl].

Lemma step_effect t e w w' :
  sound w ->
  step mathRandom t e w = Some w' ->
  docId (client w') = docId (client w)
  /\ sound w'
  /\ (quiet w w' \/ reports w w' \/ settles w w').
Proof.
  intros [Hs1 Hs2]. unfold step. destruct (t <? clock w)%Z; [discriminate|].
  open_world w. unfold sound, quiet, reports, settles.
  assert (Hman : man = true -> es = None) by exact Hs1.
  assert (Hdone : done = true -> man = true) by exact Hs2.
  clear Hs1 Hs2.
  destruct e as [| f | fatal | h | | m].
  - unfold deliverOpen. cbn.
    destruct es as [[| |]|]; try discriminate. intros [= <-].
    destruct man; [specialize (Hman eq_refl); discriminate|].
    destruct done; [specialize (Hdone eq_refl); discriminate|].
    crunch. is_quiet.
  - unfold deliverMessage. cbn.
    destruct es as [[| |]|]; try discriminate. intros [= <-].
    destruct man; [specialize (Hman eq_refl); discriminate|].
    destruct done; [specialize (Hdone eq_refl); discriminate|].
    destruct f as [| |[| | | |] [m|]].
    + crunch. is_quiet.
    + crunch. is_quiet.
    + crunch. is_quiet.
    + crunch. is_quiet.
    + crunch. is_report.
    + crunch. is_quiet.
    + destruct ct, st, rt; crunch; is_settled (Registry.CompleteOperation d t).
    + destruct ct, st, rt; crunch; is_settled (Registry.CompleteOperation d t).
    + destruct ct, st, rt; crunch;
        is_settled (Registry.ErrorOperation d serverErrorMessage t).
    + destruct ct, st, rt; crunch;
        is_settled (Registry.ErrorOperation d serverErrorMessage t).
    + crunch. is_quiet.
    + crunch. is_quiet.
  - unfold deliverError. cbn.
    assert (Hlive : es = Some CONNECTING \/ es = Some OPEN ->
                    man = false /\ done = false).
    { intros Hes. destruct man.
      - specialize (Hman eq_refl). destruct Hes; congruence.
      - split; [reflexivity|]. destruct done; [now specialize (Hdone eq_refl)|].
        reflexivity. }
    destruct es as [[| |]|]; try discriminate; intros [= <-];
      (destruct Hlive as [-> ->]; [auto|]);
      (destruct fatal; [|crunch; is_quiet]);
      (destruct att as [|[|[|[|att]]]];
       [ crunch; is_quiet | crunch; is_quiet | crunch; is_quiet
       | destruct rt, ct, st; crunch;
         is_settled (Registry.ErrorOperation d connectionLostMessage t)
       | destruct rt, ct, st; crunch;
         is_settled (Registry.ErrorOperation d connectionLostMessage t) ]).
  - unfold fire, findTimer. cbn.
    destruct (find _ tms) as [tm|]; [|discriminate].
    destruct (due tm <=? t)%Z; [|discriminate]. intros [= <-].
    destruct (callback tm).
    + destruct man.
      * specialize (Hman eq_refl). subst es. destruct done; crunch; is_quiet.
      * destruct done; [specialize (Hdone eq_refl); discriminate|].
        destruct es; crunch; is_quiet.
    + destruct ph; crunch; is_quiet.
    + destruct done.
      * crunch. is_quiet.
      * destruct es, rt; crunch; is_settled (Registry.CompleteOperation d t).
    + destruct done.
      * specialize (Hdone eq_refl). subst man. specialize (Hman eq_refl). subst es.
        destruct rt, ct; crunch; is_quiet.
      * destruct es, rt, ct; crunch; is_settled (Registry.CompleteOperation d t).
  - unfold awaitingRequest. cbn. destruct ph; try discriminate.
    intros [= <-]. crunch. is_quiet.
  - unfold awaitingRequest. cbn. destruct ph; try discriminate.
    intros [= <-]. destruct done.
    + specialize (Hdone eq_refl). subst man. specialize (Hman eq_refl). subst es.
      destruct rt, ct, st; crunch; is_quiet.
    + destruct es, rt, ct, st; crunch; is_settled (Registry.ErrorOperation d m t).
Qed.


Lemma sound_start d f now reg : sound (start d f now reg).
Proof. split; discriminate. Qed.

Lemma sound_run evs w w' :
  sound w -> run mathRandom evs w = Some w' -> sound w'.
Proof.
  revert w. induction evs as [|[t e] evs IH]; intros w Hs; simpl.
  - now intros [= <-].
  - destruct (step mathRandom t e w) as [w1|] eqn:E; [|discriminate].
    apply IH. exact (proj1 (proj2 (step_effect t e w w1 Hs E))).
Qed.

(** X15. Once a job is settled, nothing that can still happen changes
    the registry (active map, history, storage): the subscription is
    closed, so no frame is delivered and no progress is recorded, and the
    timers and the return of the request find the flag set. *)
Theorem settled_job_is_final (d : string) (f : option string) (now : Z)
        (reg : Registry.State) (evs : list (Z * Event)) (w : W)
        (t : Z) (e : Event) (w' : W) :
  run mathRandom evs (start d f now reg) = Some w ->
  isCompleted (client w) = true ->
  step mathRandom t e w = Some w' ->
  isCompleted (client w') = true
  /\ registry (client w') = registry (client w)
  /\ unsubscribed w'
  /\ progressOf (trace w') = progressOf (trace w).
Proof.
  intros Hrun Hdone Hstep.
  pose proof (sound_run evs _ _ (sound_start d f now reg) Hrun) as Hsw.
  destruct (step_effect t e w w' Hsw Hstep) as (_ & [Hs1 Hs2] & Heff).
  destruct Heff as [(Hf & Hr & Hq) | [(Hf & _) | (Hf & _)]]; try congruence.
  rewrite Hf, Hdone in *. repeat split; auto.
Qed.

(** *** The hard-safety timer *)

Ltac handles :=
  repeat first [ assumption | apply handlesOk_filter | apply handlesOk_snoc ].

Ltac crunch_timers :=
  cbv -[Registry.dispatch Z.ltb Z.leb Z.add Z.le String.eqb app filter find
        mathRandom handlesOk In due handle callback].

(* the job is settled, or not past its request *)
Ltac off_guard :=
  split; [handles|];
  let Hp := fresh in let Hd := fresh in intros Hp Hd; discriminate.

(* the safety timer is where it was *)
Ltac on_guard Hg :=
  split; [handles|];
  let Hp := fresh in let Hd := fresh in
  intros Hp Hd;
  let tm := fresh "tm" in
  destruct (Hg Hp Hd) as (tm & ? & ? & ? & ?);
  exists tm; repeat split;
  [ first [ assumption | apply in_or_app; left; assumption ]
  | assumption | assumption | lia ].

Lemma guarded_step t e w w' :
  guarded w -> step mathRandom t e w = Some w' -> guarded w'.
Proof.
  intros [Hh Hg]. unfold step. destruct (t <? clock w)%Z eqn:Et; [discriminate|].
  apply Z.ltb_ge in Et.
  open_world w. unfold guarded.
  destruct e as [| f | fatal | h | | m].
  - unfold deliverOpen. cbn.
    destruct es as [[| |]|]; try discriminate. intros [= <-]. crunch_timers.
    on_guard Hg.
  - unfold deliverMessage. cbn.
    destruct es as [[| |]|]; try discriminate. intros [= <-].
    destruct f as [| |[| | | |] [m|]].
    + crunch_timers. on_guard Hg.
    + crunch_timers. on_guard Hg.
    + crunch_timers. on_guard Hg.
    + crunch_timers. on_guard Hg.
    + crunch_timers. on_guard Hg.
    + crunch_timers. on_guard Hg.
    + destruct done, ct, st, rt; crunch_timers; off_guard.
    + destruct done, ct, st, rt; crunch_timers; off_guard.
    + destruct done, ct, st, rt; crunch_timers; off_guard.
    + destruct done, ct, st, rt; crunch_timers; off_guard.
    + crunch_timers. on_guard Hg.
    + crunch_timers. on_guard Hg.
  - unfold deliverError. cbn.
    destruct es as [[| |]|]; try discriminate; intros [= <-];
      (destruct fatal; [|crunch_timers; on_guard Hg]);
      (destruct man;
       [ destruct att as [|[|[|[|att]]]];
         [ crunch_timers; on_guard Hg | crunch_timers; on_guard Hg | crunch_timers; on_guard Hg
         | destruct done, rt, ct, st; crunch_timers; off_guard
         | destruct done, rt, ct, st; crunch_timers; off_guard ]
       | destruct att as [|[|[|[|att]]]];
         [ crunch_timers; on_guard Hg | crunch_timers; on_guard Hg | crunch_timers; on_guard Hg
         | destruct done, rt, ct, st; crunch_timers; off_guard
         | destruct done, rt, ct, st; crunch_timers; off_guard ] ]).
  - unfold fire, findTimer. cbn.
    destruct (find _ tms) as [tm|] eqn:Ef; [|discriminate].
    destruct (due tm <=? t)%Z; [|discriminate]. intros [= <-].
    apply find_some in Ef as [Hin Eh]. apply Nat.eqb_eq in Eh.
    assert (Hkeep : forall tm', In tm' tms -> callback tm' <> callback tm ->
                           In tm' (filter (fun x => negb (handle x =? h)) tms)).
    { intros tm' Hin' Hk. apply filter_In. split; [exact Hin'|].
      apply negb_true_iff, Nat.eqb_neq. intros E. apply Hk. f_equal.
      apply (handlesOk_distinct _ _ _ _ Hh Hin' Hin). congruence. }
    destruct (callback tm) eqn:Ek.
    + destruct es, man; crunch_timers; (split; [handles|]);
        intros Hp Hd;
        destruct (Hg Hp Hd) as (tm' & H1 & H2 & H3 & H4);
        exists tm'; (repeat split; [|assumption|assumption|lia]);
        apply (Hkeep tm' H1); congruence.
    + destruct ph; crunch_timers; (split; [handles|]);
        intros Hp Hd; try discriminate;
        destruct (Hg Hp Hd) as (tm' & H1 & H2 & H3 & H4);
        exists tm'; (repeat split; [|assumption|assumption|lia]);
        apply (Hkeep tm' H1); congruence.
    + destruct done, es, rt; crunch_timers; off_guard.
    + destruct done, es, rt, ct; crunch_timers; off_guard.
  - unfold awaitingRequest. cbn. destruct ph; try discriminate.
    intros [= <-]. crunch_timers. split; [handles|].
    intros _ _. eexists. split; [apply in_or_app; right; left; reflexivity|].
    cbn. repeat split. lia.
  - unfold awaitingRequest. cbn. destruct ph; try discriminate.
    intros [= <-]. destruct done, es, rt, ct, st; crunch_timers; off_guard.
Qed.


Lemma guarded_run evs w w' :
  guarded w -> run mathRandom evs w = Some w' -> guarded w'.
Proof.
  revert w. induction evs as [|[t e] evs IH]; intros w Hg; simpl.
  - now intros [= <-].
  - destruct (step mathRandom t e w) as [w1|] eqn:E; [|discriminate].
    apply IH. now apply (guarded_step t e w).
Qed.

Lemma guarded_start d f now reg : guarded (start d f now reg).
Proof.
  split; [|discriminate]. split; cbn.
  - repeat constructor. intros [].
  - repeat constructor.
Qed.

(** X16. A job cannot stay unsettled for ever once its request has returned:
    while it is unsettled its hard-safety timer is pending, due at most
    five seconds ahead, and when that timer fires the job is settled, by
    [completeOperation] at that time. *)
Theorem safety_timer_guards (d : string) (f : option string) (now : Z)
        (reg : Registry.State) (evs : list (Z * Event)) (w : W) :
  run mathRandom evs (start d f now reg) = Some w ->
  phase (client w) = Returned ->
  isCompleted (client w) = false ->
  exists tm,
    In tm (timers w)
    /\ callback tm = SafetyCleanup
    /\ (due tm <= clock w + 5000)%Z
    /\ forall t, (clock w <= t)%Z -> (due tm <= t)%Z ->
       exists w',
         step mathRandom t (Timeout (handle tm)) w = Some w'
         /\ isCompleted (client w') = true
         /\ registry (client w')
            = Registry.dispatch
                (Registry.CompleteOperation (docId (client w)) t)
                (registry (client w)).
Proof.
  intros Hrun Hp Hd.
  destruct (guarded_run evs _ _ (guarded_start d f now reg) Hrun) as [Hh Hg].
  destruct (Hg Hp Hd) as (tm & Hin & Hk & _ & Hdue).
  exists tm. split; [exact Hin|]. split; [exact Hk|]. split; [exact Hdue|].
  intros t Ht Hfire. unfold step.
  destruct (t <? clock w)%Z eqn:E; [apply Z.ltb_lt in E; lia|].
  unfold fire.
  assert (Hfind : findTimer (handle tm) (withClock t w) = Some tm).
  { unfold findTimer. cbn [timers withClock].
    destruct (find _ (timers w)) as [tm'|] eqn:Ef.
    - apply find_some in Ef as [Hin' Eh]. apply Nat.eqb_eq in Eh.
      f_equal. exact (handlesOk_distinct _ _ _ _ Hh Hin' Hin Eh).
    - exfalso. apply (find_none _ _ Ef) in Hin. now rewrite Nat.eqb_refl in Hin. }
  rewrite Hfind. cbn [clock withClock].
  destruct (due tm <=? t)%Z eqn:E2; [|apply Z.leb_gt in E2; lia].
  rewrite Hk. eexists. split; [reflexivity|].
  assert (Hd0 : isCompleted (client (clearTimeout (handle tm) (withClock t w)))
                = false) by (destruct w; exact Hd).
  destruct (safetyCleanup_settles _ Hd0) as [H1 H2].
  split; [exact H1|]. rewrite H2. now destruct w.
Qed.

End JobTracking.

Section JobTrackingRuns.
Import Browser Channel Arbiter Tracking.
Local Open Scope nat_scope.

Lemma settled_job_is_final_witness :
  exists w w',
    run Scenario.random Cases.reported Scenario.job = Some w
    /\ isCompleted (client w) = true
    /\ step Scenario.random 500 (Timeout 1) w = Some w'
    /\ registry (client w') = registry (client w)
    /\ timers w <> timers w'.
Proof.
  let r := eval vm_compute in
             (run Scenario.random Cases.reported Scenario.job) in
  match r with
  | Some ?w =>
      let r' := eval vm_compute in (step Scenario.random 500 (Timeout 1) w) in
      match r' with
      | Some ?w' =>
          exists w, w';
          assert (H : run Scenario.random Cases.reported Scenario.job = Some w)
            by (vm_compute; reflexivity);
          assert (H0 : isCompleted (client w) = true) by reflexivity;
          assert (H1 : step Scenario.random 500 (Timeout 1) w = Some w')
            by (vm_compute; reflexivity);
          pose proof (settled_job_is_final Scenario.random "doc-3"
                        (Some "contract.pdf") 0 Registry.fresh Cases.reported
                        w 500%Z (Timeout 1) w' H H0 H1) as (_ & Hreg & _)
      end
  end.
  split; [exact H|]. split; [exact H0|]. split; [exact H1|].
  split; [exact Hreg | discriminate].
Defined.

Lemma safety_timer_guards_witness :
  exists w tm,
    run Scenario.random Scenario.resolved Scenario.job = Some w
    /\ phase (client w) = Returned
    /\ isCompleted (client w) = false
    /\ In tm (timers w)
    /\ callback tm = SafetyCleanup
    /\ (due tm <= clock w + 5000)%Z.
Proof.
  let r := eval vm_compute in
             (run Scenario.random Scenario.resolved Scenario.job) in
  match r with
  | Some ?w =>
      exists w;
      assert (H : run Scenario.random Scenario.resolved Scenario.job = Some w)
        by (vm_compute; reflexivity);
      assert (Hp : phase (client w) = Returned) by reflexivity;
      assert (Hd : isCompleted (client w) = false) by reflexivity;
      pose proof (safety_timer_guards Scenario.random "doc-3"
                    (Some "contract.pdf") 0 Registry.fresh Scenario.resolved
                    w H Hp Hd) as (tm & H1 & H2 & H3 & _);
      exists tm
  end.
  repeat (split; [assumption|]). assumption.
Defined.

End JobTrackingRuns.

(** ** A job on the registry it shares *)

Section SharedRegistry.
Import Browser Channel Arbiter Tracking Session.
Local Open Scope nat_scope.
Variable mathRandom : nat -> string.

Ltac open_world w :=
  destruct w as [clk tms nh [d0 reg done ct st ph [es att man rt] rc] tr];
  cbn [client clock timers nextHandle trace docId registry isCompleted
       completionTimer cleanupTimer phase subscription randomCalls] in *.

Ltac crunch :=
  cbv -[Registry.dispatch Z.ltb Z.leb Z.add String.eqb app progressOf filter find
        mathRandom];
  cbn [progressOf].














(** *** When [new EventSource] throws *)






End SharedRegistry.

Section SharedRegistryRuns.
Import Browser Channel Arbiter Tracking Session.
Local Open Scope nat_scope.


End SharedRegistryRuns.

(** ** The results carousel *)

Section CarouselFacts.
Import Carousel.







End CarouselFacts.
